(** * Recovery, correction merge and batch bookkeeping of the OCR pipeline

    A shallow embedding of the Python sources
    - [apply_claude_corrections.py] and [apply_gemini_corrections.py]
      (the two correction mergers),
    - [archive/scripts/extract.py] and [archive/scripts/retry_failed.py]
      (the two JSON recovery functions, the model call and the batch drivers),
    followed by the properties the specification states about them. *)

From Stdlib Require Import String Ascii DecimalZ DecimalFacts.
From stdpp Require Import base tactics option list numbers sorting gmap.

Set Default Proof Using "Type".
#[local] Set Warnings "-register-all".
Local Open Scope nat_scope.

(** ** Python strings

    A Python [str] is a sequence of Unicode code points: a list of [N].
    String literals of this file are ASCII and enter through [u]. *)

Abbreviation char := N (only parsing).
Abbreviation str := (list N) (only parsing).

Definition u (lit : string) : str :=
  List.map N_of_ascii (list_ascii_of_string lit).

(** A literal in which the apostrophe stands for the double quote. *)
Definition q (lit : string) : str :=
  List.map (fun c => if (c =? 39)%N then 34%N else c) (u lit).

(** [s.startswith(p)] *)
Fixpoint startswith (p s : str) : bool :=
  match p, s with
  | [], _ => true
  | _ :: _, [] => false
  | a :: p', b :: s' => (a =? b)%N && startswith p' s'
  end.

(** [s.find(sub)]: the lowest index where [sub] occurs, [None] for Python's -1. *)
Fixpoint py_find (sub s : str) : option nat :=
  if startswith sub s then Some 0
  else match s with
       | [] => None
       | _ :: s' => S <$> py_find sub s'
       end.

(** [sub in s] *)
Definition py_in (sub s : str) : bool :=
  match py_find sub s with Some _ => true | None => false end.

(** [s.replace(old, new)] for a non-empty [old]: occurrences are taken left to
    right and do not overlap; [skip] counts the characters of the occurrence
    just replaced that are still to be dropped. *)
Fixpoint replace_from (old new : str) (skip : nat) (s : str) : str :=
  match s with
  | [] => []
  | c :: s' =>
      match skip with
      | S k => replace_from old new k s'
      | 0 =>
          if startswith old s
          then new ++ replace_from old new (length old - 1) s'
          else c :: replace_from old new 0 s'
      end
  end.

(** [s.replace(old, new)]; with an empty [old] Python puts [new] before every
    character and at the end. *)
Definition py_replace (s old new : str) : str :=
  match old with
  | [] => new ++ List.concat (List.map (fun c => c :: new) s)
  | _ :: _ => replace_from old new 0 s
  end.

(** ** Documents

    What [json.load] returns: [None], [bool], [int], [float], [str], [list]
    and [dict].  A [dict] keeps its insertion order, so it is an association
    list; its keys are distinct ([valid_doc] below).  A float is kept as the
    text that denotes it, the one [json.loads] read or the one [json.dumps]
    writes; the sources do no arithmetic on floats but the test for zero of
    [truthy]. *)

Inductive Document : Type :=
| DNull
| DBool (b : bool)
| DNum (z : Z)
| DFloat (lexeme : str)
| DStr (s : str)
| DSeq (items : list Document)
| DMap (entries : list (str * Document)).

(** Induction with the hypothesis available for every element and value. *)
Lemma Document_induction (P : Document -> Prop) :
  P DNull ->
  (forall b, P (DBool b)) ->
  (forall z, P (DNum z)) ->
  (forall x, P (DFloat x)) ->
  (forall s, P (DStr s)) ->
  (forall items, Forall P items -> P (DSeq items)) ->
  (forall entries, Forall (fun kv => P kv.2) entries -> P (DMap entries)) ->
  forall d, P d.
Proof.
  intros Hnull Hbool Hnum Hfloat Hstr Hseq Hmap.
  fix IH 1. intros [ | b | z | x | s | items | entries ].
  - exact Hnull.
  - apply Hbool.
  - apply Hnum.
  - apply Hfloat.
  - apply Hstr.
  - apply Hseq. induction items as [ | d items IHitems ]; constructor.
    + apply IH.
    + exact IHitems.
  - apply Hmap. induction entries as [ | [k d] entries IHentries ]; constructor.
    + apply IH.
    + exact IHentries.
Qed.

(** Truth value of a list. *)
Definition nonempty {A} (l : list A) : bool :=
  match l with [] => false | _ :: _ => true end.

(** The truth value of a float, from the text that denotes it.  The float
    of a decimal text [m * 10^e] is the double nearest to it, which is zero
    exactly when [m] is zero or [m * 10^e] is at most [2^-1075], half the
    smallest positive double. *)
Definition is_decimal_digit (c : char) : bool :=
  (48 <=? c)%N && (c <=? 57)%N.

(** The text before the exponent mark, and the text after it. *)
Fixpoint mantissa (lexeme : str) : str :=
  match lexeme with
  | [] => []
  | c :: rest => if (c =? 101)%N || (c =? 69)%N then [] else c :: mantissa rest
  end.

Fixpoint exponent (lexeme : str) : str :=
  match lexeme with
  | [] => []
  | c :: rest => if (c =? 101)%N || (c =? 69)%N then rest else exponent rest
  end.

(** The number the digits of a text write, its sign left out. *)
Definition digits_value (s : str) : Z :=
  fold_left (fun acc c => if is_decimal_digit c then (10 * acc + Z.of_N (c - 48))%Z else acc)
            s 0%Z.

Definition signed_value (s : str) : Z :=
  match s with
  | 45%N :: _ => (- digits_value s)%Z
  | _ => digits_value s
  end.

(** The number of digits after the point. *)
Fixpoint fraction_digits (s : str) : nat :=
  match s with
  | [] => 0
  | c :: rest =>
      if (c =? 46)%N then length (List.filter is_decimal_digit rest)
      else fraction_digits rest
  end.

Definition float_is_zero (lexeme : str) : bool :=
  let m := digits_value (mantissa lexeme) in
  let e := (signed_value (exponent lexeme)
            - Z.of_nat (fraction_digits (mantissa lexeme)))%Z in
  ((m =? 0) || (e <? 0) && (m * 2 ^ 1075 <=? 10 ^ (- e)))%Z.

(** Python truth value of a document ([if corrected_json:], [if parsed:]).
    A float is false when it is zero; [NaN] and the infinities, the floats
    written without a digit, are true. *)
Definition truthy (d : Document) : bool :=
  match d with
  | DNull => false
  | DBool b => b
  | DNum z => negb (z =? 0)%Z
  | DFloat x => negb (existsb is_decimal_digit x && float_is_zero x)
  | DStr s => nonempty s
  | DSeq items => nonempty items
  | DMap entries => nonempty entries
  end.

(** Truth value of [issue.get(...)]: a missing field, [null] and the empty
    string are all false. *)
Definition truthy_field (f : option str) : bool :=
  match f with
  | Some (_ :: _) => true
  | _ => false
  end.

Definition str_eqb (a b : str) : bool := bool_decide (a = b).

(** [d is None] *)
Definition is_none (d : Document) : bool :=
  match d with DNull => true | _ => false end.

(** [d == s] for a string [s]: only a string compares equal to a string. *)
Definition eq_str (d : Document) (s : str) : bool :=
  match d with DStr s' => str_eqb s' s | _ => false end.

(** [c.isspace()]: the code points Python counts as whitespace, which are
    also the ones [\s] matches in a [str] pattern and [strip()] removes. *)
Definition isspace (c : char) : bool :=
  ((9 <=? c) && (c <=? 13) || (28 <=? c) && (c <=? 32)
   || (c =? 133) || (c =? 160) || (c =? 5760)
   || (8192 <=? c) && (c <=? 8202)
   || (c =? 8232) || (c =? 8233) || (c =? 8239) || (c =? 8287) || (c =? 12288))%N.

(** [s.lstrip()], [s.rstrip()], [s.strip()] *)
Fixpoint lstrip (s : str) : str :=
  match s with
  | c :: s' => if isspace c then lstrip s' else s
  | [] => []
  end.

Definition rstrip (s : str) : str := rev (lstrip (rev s)).

Definition strip (s : str) : str := rstrip (lstrip s).

(** [s.endswith(p)] *)
Definition endswith (p s : str) : bool := startswith (rev p) (rev s).

(** [s[:-1]] *)
Definition drop_last (s : str) : str := take (length s - 1) s.

(** ** Regular expressions

    The fragment of Python's [re] the sources use, with its backtracking
    order: an optional part and a greedy star try the longer match first, a
    lazy star the shorter one first.  Stars range over one character class;
    there is one capture group. *)

Inductive regex :=
| Lit (text : str)
| Class (p : char -> bool)
| Opt (r : regex)
| Star (p : char -> bool)
| LazyStar (p : char -> bool)
| Seq (r1 r2 : regex)
| Group (r : regex).

(** [p*] then the continuation [k], longest run first. *)
Fixpoint star_greedy {A} (p : char -> bool) (s : str) (k : str -> option A) : option A :=
  match s with
  | c :: s' =>
      if p c
      then match star_greedy p s' k with
           | Some a => Some a
           | None => k s
           end
      else k s
  | [] => k []
  end.

(** [p*?] then the continuation [k], shortest run first. *)
Fixpoint star_lazy {A} (p : char -> bool) (s : str) (k : str -> option A) : option A :=
  match k s with
  | Some a => Some a
  | None =>
      match s with
      | c :: s' => if p c then star_lazy p s' k else None
      | [] => None
      end
  end.

(** Match [r] at the head of [s], then run [k] on what is left of [s] and on
    the text of group 1; a failing [k] makes the matcher backtrack. *)
Fixpoint rmatch {A} (r : regex) (s : str) (group : option str)
    (k : str -> option str -> option A) : option A :=
  match r with
  | Lit text => if startswith text s then k (drop (length text) s) group else None
  | Class p =>
      match s with
      | c :: s' => if p c then k s' group else None
      | [] => None
      end
  | Opt r' =>
      match rmatch r' s group k with
      | Some a => Some a
      | None => k s group
      end
  | Star p => star_greedy p s (fun s' => k s' group)
  | LazyStar p => star_lazy p s (fun s' => k s' group)
  | Seq r1 r2 => rmatch r1 s group (fun s' g => rmatch r2 s' g k)
  | Group r' =>
      rmatch r' s group (fun s' _ => k s' (Some (take (length s - length s') s)))
  end.

(** The match at the head of [s], if any: what follows it, and group 1. *)
Definition match_here (r : regex) (s : str) : option (str * option str) :=
  rmatch r s None (fun s' g => Some (s', g)).

(** [re.search(r, s)]: the leftmost match; of the match object, group 1. *)
Fixpoint re_search (r : regex) (s : str) : option (option str) :=
  match match_here r s with
  | Some (_, g) => Some g
  | None =>
      match s with
      | _ :: s' => re_search r s'
      | [] => None
      end
  end.

(** [re.sub(r, repl, s)] for a pattern that matches no empty string: matches
    are replaced left to right, [repl] making the replacement from group 1;
    [skip] counts the characters of the last match still to be dropped. *)
Fixpoint sub_from (r : regex) (repl : option str -> str) (skip : nat) (s : str) : str :=
  match s with
  | [] => []
  | c :: s' =>
      match skip with
      | S n => sub_from r repl n s'
      | 0 =>
          match match_here r s with
          | Some (rest, g) => repl g ++ sub_from r repl (length s - length rest - 1) s'
          | None => c :: sub_from r repl 0 s'
          end
      end
  end.

Definition re_sub (r : regex) (repl : option str -> str) (s : str) : str :=
  sub_from r repl 0 s.

(** The replacement template [r'\1']. *)
Definition backref1 (g : option str) : str := default [] g.

Definition any_char (c : char) : bool := true.

(** [r'```(?:json)?\s*\n?(.*?)```'] with [re.DOTALL] *)
Definition fence_re : regex :=
  Seq (Lit (u "```"))
   (Seq (Opt (Lit (u "json")))
    (Seq (Star isspace)
     (Seq (Opt (Lit [10%N]))
      (Seq (Group (LazyStar any_char)) (Lit (u "```")))))).

Definition is_closer (c : char) : bool := ((c =? 125) || (c =? 93))%N.

(** [r',(\s*[}\]])'] *)
Definition trailing_comma_re : regex :=
  Seq (Lit (u ",")) (Group (Seq (Star isspace) (Class is_closer))).

(** [r',\s*}'] and [r',\s*]'] *)
Definition comma_brace_re : regex :=
  Seq (Lit (u ",")) (Seq (Star isspace) (Lit (u "}"))).

Definition comma_bracket_re : regex :=
  Seq (Lit (u ",")) (Seq (Star isspace) (Lit (u "]"))).

(** ** Python's [json] module

    [json.loads] and [json.dumps] are library code; this is their behaviour
    on [str] input as the decoder and encoder of CPython define it (messages
    as before Python 3.13, which words two of them differently without
    changing which of them mention a delimiter). *)

(** The message of a [json.JSONDecodeError]. *)
Inductive JSONDecodeError :=
| Expecting_value
| Expecting_comma
| Expecting_colon
| Expecting_property_name
| Unterminated_string
| Invalid_control_character
| Invalid_escape
| Invalid_uXXXX_escape
| Extra_data
| Unexpected_BOM.

Definition msg (e : JSONDecodeError) : str :=
  match e with
  | Expecting_value => u "Expecting value"
  | Expecting_comma => u "Expecting ',' delimiter"
  | Expecting_colon => u "Expecting ':' delimiter"
  | Expecting_property_name => u "Expecting property name enclosed in double quotes"
  | Unterminated_string => u "Unterminated string starting at"
  | Invalid_control_character => u "Invalid control character at"
  | Invalid_escape => u "Invalid \escape"
  | Invalid_uXXXX_escape => u "Invalid \uXXXX escape"
  | Extra_data => u "Extra data"
  | Unexpected_BOM => u "Unexpected UTF-8 BOM (decode using utf-8-sig)"
  end.

(** The outcome of a decoding step: a value, or the error raised. *)
Inductive scan (A : Type) : Type :=
| Ok (a : A)
| Err (e : JSONDecodeError).
Arguments Ok {A} a.
Arguments Err {A} e.

#[global] Instance scan_ret : MRet scan := fun A a => Ok a.
#[global] Instance scan_bind : MBind scan := fun A B f m =>
  match m with
  | Ok a => f a
  | Err e => Err e
  end.
#[global] Instance scan_fmap : FMap scan := fun A B f m =>
  match m with
  | Ok a => Ok (f a)
  | Err e => Err e
  end.

(** The decoder's whitespace: space, tab, line feed, carriage return. *)
Definition is_ws (c : char) : bool :=
  ((c =? 32) || (c =? 9) || (c =? 10) || (c =? 13))%N.

Fixpoint skip_ws (s : str) : str :=
  match s with
  | c :: s' => if is_ws c then skip_ws s' else s
  | [] => []
  end.

Definition is_digit (c : char) : bool := ((48 <=? c) && (c <=? 57))%N.

(** Decimal digits, through the Standard Library's decimal numbers. *)
Definition digit_cons (c : char) (d : Decimal.uint) : Decimal.uint :=
  match (c - 48)%N with
  | 0%N => Decimal.D0 d
  | 1%N => Decimal.D1 d
  | 2%N => Decimal.D2 d
  | 3%N => Decimal.D3 d
  | 4%N => Decimal.D4 d
  | 5%N => Decimal.D5 d
  | 6%N => Decimal.D6 d
  | 7%N => Decimal.D7 d
  | 8%N => Decimal.D8 d
  | _ => Decimal.D9 d
  end.

Fixpoint uint_of_digits (s : str) : Decimal.uint :=
  match s with
  | [] => Decimal.Nil
  | c :: s' => digit_cons c (uint_of_digits s')
  end.

Fixpoint digits_of_uint (d : Decimal.uint) : str :=
  match d with
  | Decimal.Nil => []
  | Decimal.D0 d' => 48%N :: digits_of_uint d'
  | Decimal.D1 d' => 49%N :: digits_of_uint d'
  | Decimal.D2 d' => 50%N :: digits_of_uint d'
  | Decimal.D3 d' => 51%N :: digits_of_uint d'
  | Decimal.D4 d' => 52%N :: digits_of_uint d'
  | Decimal.D5 d' => 53%N :: digits_of_uint d'
  | Decimal.D6 d' => 54%N :: digits_of_uint d'
  | Decimal.D7 d' => 55%N :: digits_of_uint d'
  | Decimal.D8 d' => 56%N :: digits_of_uint d'
  | Decimal.D9 d' => 57%N :: digits_of_uint d'
  end.

(** [int(lexeme)] for a lexeme of digits with an optional minus sign. *)
Definition int_of_lexeme (negative : bool) (digits : str) : Z :=
  Z.of_int (if negative then Decimal.Neg (uint_of_digits digits)
            else Decimal.Pos (uint_of_digits digits)).

(** [int.__repr__] *)
Definition int_repr (z : Z) : str :=
  match Z.to_int z with
  | Decimal.Pos d => digits_of_uint d
  | Decimal.Neg d => 45%N :: digits_of_uint d
  end.

(** The longest prefix of characters satisfying [p], and the rest. *)
Fixpoint span (p : char -> bool) (s : str) : str * str :=
  match s with
  | c :: s' => if p c then let '(a, b) := span p s' in (c :: a, b) else ([], s)
  | [] => ([], [])
  end.

(** The groups of the decoder's number pattern.  First an optional minus
    sign. *)
Definition scan_sign (s : str) : bool * str :=
  match s with
  | c :: s' => if (c =? 45)%N then (true, s') else (false, s)
  | [] => (false, s)
  end.

(** The integer part is a single 0 or a run of digits that starts with 1 to
    9. *)
Definition scan_int_part (s : str) : option (str * str) :=
  match s with
  | [] => None
  | c :: s' =>
      if (c =? 48)%N then Some ([48%N], s')
      else if is_digit c then Some (span is_digit s)
      else None
  end.

(** The fraction: a point and one digit or more; nothing is taken otherwise. *)
Definition scan_frac (s : str) : str * str :=
  match s with
  | c :: s' =>
      if (c =? 46)%N
      then match span is_digit s' with
           | ([], _) => ([], s)
           | (ds, rest) => (c :: ds, rest)
           end
      else ([], s)
  | [] => ([], s)
  end.

(** The exponent: e or E, an optional sign, one digit or more; nothing is
    taken otherwise. *)
Definition scan_exp (s : str) : str * str :=
  match s with
  | e :: s' =>
      if ((e =? 101) || (e =? 69))%N
      then
        let '(sign, s'') :=
          match s' with
          | c :: t => if ((c =? 43) || (c =? 45))%N then ([c], t) else ([], s')
          | [] => ([], s')
          end in
        match span is_digit s'' with
        | ([], _) => ([], s)
        | (ds, rest) => (e :: sign ++ ds, rest)
        end
      else ([], s)
  | [] => ([], s)
  end.

(** The number at the head of [s], as the decoder's number pattern reads it:
    an optional minus sign, the integer part, the fraction, the exponent.
    A lexeme with a fraction or an exponent is a float, any other an
    integer.  The value and what follows it, or [None] when no number starts
    here. *)
Definition scan_number (s : str) : option (Document * str) :=
  let '(negative, s1) := scan_sign s in
  match scan_int_part s1 with
  | None => None
  | Some (digits, s2) =>
      let '(frac, s3) := scan_frac s2 in
      let '(expo, s4) := scan_exp s3 in
      match frac, expo with
      | [], [] => Some (DNum (int_of_lexeme negative digits), s4)
      | _, _ =>
          Some (DFloat ((if negative then [45%N] else []) ++ digits ++ frac ++ expo), s4)
      end
  end.

Definition hex_value (c : char) : option N :=
  if is_digit c then Some (c - 48)%N
  else if ((97 <=? c) && (c <=? 102))%N then Some (c - 87)%N
  else if ((65 <=? c) && (c <=? 70))%N then Some (c - 55)%N
  else None.

(** The four hexadecimal digits of a [\uXXXX] escape, [s] starting after the
    [u]. *)
Definition decode_uXXXX (s : str) : scan N :=
  match s with
  | a :: b :: c :: d :: _ =>
      match hex_value a, hex_value b, hex_value c, hex_value d with
      | Some x, Some y, Some z, Some w => Ok (((x * 16 + y) * 16 + z) * 16 + w)%N
      | _, _, _, _ => Err Invalid_uXXXX_escape
      end
  | _ => Err Invalid_uXXXX_escape
  end.

(** What a backslash stands for, [s] starting after it: the character, and how
    many characters of [s] the escape takes.  A high surrogate followed by an
    escaped low surrogate is one character. *)
Definition scan_escape (s : str) : scan (char * nat) :=
  match s with
  | [] => Err Unterminated_string
  | 117%N :: s' =>
      uni ← decode_uXXXX s';
      if ((55296 <=? uni) && (uni <=? 56319))%N
           && startswith (u "\u") (drop 4 s')
      then
        uni2 ← decode_uXXXX (drop 6 s');
        if ((56320 <=? uni2) && (uni2 <=? 57343))%N
        then Ok ((65536 + (((uni - 55296) * 1024) + (uni2 - 56320)))%N, 11)
        else Ok (uni, 5)
      else Ok (uni, 5)
  | 34%N :: _ => Ok (34%N, 1)
  | 92%N :: _ => Ok (92%N, 1)
  | 47%N :: _ => Ok (47%N, 1)
  | 98%N :: _ => Ok (8%N, 1)
  | 102%N :: _ => Ok (12%N, 1)
  | 110%N :: _ => Ok (10%N, 1)
  | 114%N :: _ => Ok (13%N, 1)
  | 116%N :: _ => Ok (9%N, 1)
  | _ => Err Invalid_escape
  end.

(** The decoder's [scanstring], [s] starting after the opening quote: the
    string and what follows its closing quote.  [skip] counts the characters
    of the escape just decoded that are still to be passed. *)
Fixpoint scanstring_from (skip : nat) (s : str) : scan (str * str) :=
  match s with
  | [] => Err Unterminated_string
  | c :: s' =>
      match skip with
      | S n => scanstring_from n s'
      | 0 =>
          if (c =? 34)%N then Ok ([], s')
          else if (c =? 92)%N then
            match scan_escape s' with
            | Ok (ch, n) => (fun r => (ch :: r.1, r.2)) <$> scanstring_from n s'
            | Err e => Err e
            end
          else if (c <? 32)%N then Err Invalid_control_character
          else (fun r => (c :: r.1, r.2)) <$> scanstring_from 0 s'
      end
  end.

Definition scanstring (s : str) : scan (str * str) := scanstring_from 0 s.

(** [d[key] = v] on a [dict]: an existing key keeps its place. *)
Fixpoint dict_set (entries : list (str * Document)) (key : str) (v : Document)
    : list (str * Document) :=
  match entries with
  | [] => [(key, v)]
  | (k, w) :: rest =>
      if str_eqb k key then (k, v) :: rest else (k, w) :: dict_set rest key v
  end.

(** The decoder's [scan_once] at the head of [s], with the loops of its object
    and array parsers: the value and what follows it.  [None] inside [Ok]
    stands for the [StopIteration] of a position where no value starts.
    Every call passes at least one character before the next one, so [fuel]
    above the length of [s] is never used up. *)
Fixpoint scan_once (fuel : nat) (s : str) : scan (option (Document * str)) :=
  match fuel with
  | 0 => Ok None
  | S fuel' =>
      match s with
      | [] => Ok None
      | c :: s' =>
          if (c =? 34)%N then
            '(text, rest) ← scanstring s'; Ok (Some (DStr text, rest))
          else if (c =? 123)%N then
            match skip_ws s' with
            | 125%N :: rest => Ok (Some (DMap [], rest))
            | s1 => (fun r => Some r) <$> object_loop fuel' [] s1
            end
          else if (c =? 91)%N then
            match skip_ws s' with
            | 93%N :: rest => Ok (Some (DSeq [], rest))
            | s1 => (fun r => Some r) <$> array_loop fuel' [] s1
            end
          else if startswith (u "null") s then Ok (Some (DNull, drop 4 s))
          else if startswith (u "true") s then Ok (Some (DBool true, drop 4 s))
          else if startswith (u "false") s then Ok (Some (DBool false, drop 5 s))
          else if startswith (u "NaN") s then Ok (Some (DFloat (u "NaN"), drop 3 s))
          else if startswith (u "Infinity") s then Ok (Some (DFloat (u "Infinity"), drop 8 s))
          else if startswith (u "-Infinity") s then Ok (Some (DFloat (u "-Infinity"), drop 9 s))
          else Ok (scan_number s)
      end
  end
with object_loop (fuel : nat) (pairs : list (str * Document)) (s : str)
    : scan (Document * str) :=
  match fuel with
  | 0 => Err Expecting_property_name
  | S fuel' =>
      match s with
      | 34%N :: s1 =>
          '(key, s2) ← scanstring s1;
          match skip_ws s2 with
          | 58%N :: s3 =>
              v ← scan_once fuel' (skip_ws s3);
              match v with
              | None => Err Expecting_value
              | Some (value, s4) =>
                  let pairs' := dict_set pairs key value in
                  match skip_ws s4 with
                  | 125%N :: rest => Ok (DMap pairs', rest)
                  | 44%N :: s5 => object_loop fuel' pairs' (skip_ws s5)
                  | _ => Err Expecting_comma
                  end
              end
          | _ => Err Expecting_colon
          end
      | _ => Err Expecting_property_name
      end
  end
with array_loop (fuel : nat) (values : list Document) (s : str)
    : scan (Document * str) :=
  match fuel with
  | 0 => Err Expecting_value
  | S fuel' =>
      v ← scan_once fuel' s;
      match v with
      | None => Err Expecting_value
      | Some (value, s1) =>
          match skip_ws s1 with
          | 93%N :: rest => Ok (DSeq (values ++ [value]), rest)
          | 44%N :: s2 => array_loop fuel' (values ++ [value]) (skip_ws s2)
          | _ => Err Expecting_comma
          end
      end
  end.

(** [json.loads(s)] *)
Definition json_loads (s : str) : scan Document :=
  if startswith [65279%N] s then Err Unexpected_BOM
  else
    v ← scan_once (S (length s)) (skip_ws s);
    match v with
    | None => Err Expecting_value
    | Some (obj, rest) =>
        match skip_ws rest with
        | [] => Ok obj
        | _ :: _ => Err Extra_data
        end
    end.

Definition hex_digit (n : N) : char :=
  if (n <? 10)%N then (48 + n)%N else (87 + n)%N.

(** The encoder's escape of one character with [ensure_ascii=False]: the
    quote, the backslash and the control characters below U+0020. *)
Definition escape_char (c : char) : str :=
  if (c =? 34)%N then [92%N; 34%N]
  else if (c =? 92)%N then u "\\"
  else if (c =? 10)%N then u "\n"
  else if (c =? 13)%N then u "\r"
  else if (c =? 9)%N then u "\t"
  else if (c =? 8)%N then u "\b"
  else if (c =? 12)%N then u "\f"
  else if (c <? 32)%N then u "\u00" ++ [hex_digit (c / 16); hex_digit (c mod 16)]
  else [c].

(** [encode_basestring(s)] *)
Definition encode_basestring (s : str) : str :=
  34%N :: List.concat (List.map escape_char s) ++ [34%N].

(** The line break and indentation the encoder puts before an item at nesting
    depth [level]; nothing when [indent] is [None]. *)
Definition newline_indent (indent : option nat) (level : nat) : str :=
  match indent with
  | Some n => 10%N :: List.repeat 32%N (n * level)
  | None => []
  end.

(** [item_separator]: a comma when [indent] is given, a comma and a space
    otherwise. *)
Definition item_separator (indent : option nat) : str :=
  match indent with
  | Some _ => u ","
  | None => u ", "
  end.

(** The items of a container, joined by the separator followed by the
    indentation of their level. *)
Fixpoint join (sep : str) (parts : list str) : str :=
  match parts with
  | [] => []
  | [x] => x
  | x :: rest => x ++ sep ++ join sep rest
  end.

(** The text [json.dumps(d, ensure_ascii=False, indent=indent)] produces for
    a value at nesting depth [level]. *)
Fixpoint encode (indent : option nat) (level : nat) (d : Document) : str :=
  match d with
  | DNull => u "null"
  | DBool true => u "true"
  | DBool false => u "false"
  | DNum z => int_repr z
  | DFloat lexeme => lexeme
  | DStr s => encode_basestring s
  | DSeq [] => u "[]"
  | DSeq items =>
      u "[" ++ newline_indent indent (S level)
        ++ join (item_separator indent ++ newline_indent indent (S level))
                (List.map (encode indent (S level)) items)
        ++ newline_indent indent level ++ u "]"
  | DMap [] => u "{}"
  | DMap entries =>
      u "{" ++ newline_indent indent (S level)
        ++ join (item_separator indent ++ newline_indent indent (S level))
                (List.map (fun kv => encode_basestring kv.1 ++ u ": "
                                       ++ encode indent (S level) kv.2) entries)
        ++ newline_indent indent level ++ u "}"
  end.

(** [json.dumps(d, ensure_ascii=False, indent=indent)]; the sources save
    every file with [indent=2]. *)
Definition json_dumps (indent : option nat) (d : Document) : str :=
  encode indent 0 d.

(** ** Loops over containers

    Both mergers walk a document with the same two loops.  [body] is what one
    iteration does with the value it meets: the value it leaves in the
    container, and how much it adds to the running count. *)

(** [for key in obj: ...] over a [dict]: every value is visited once, in
    insertion order, and written back under its own key. *)
Fixpoint for_key (body : Document -> Document * nat)
    (entries : list (str * Document)) : list (str * Document) * nat :=
  match entries with
  | [] => ([], 0)
  | (key, v) :: rest =>
      let '(v', n) := body v in
      let '(rest', count) := for_key body rest in
      ((key, v') :: rest', n + count)
  end.

(** [for i, item in enumerate(obj): ...] over a [list]. *)
Fixpoint for_item (body : Document -> Document * nat)
    (items : list Document) : list Document * nat :=
  match items with
  | [] => ([], 0)
  | item :: rest =>
      let '(item', n) := body item in
      let '(rest', count) := for_item body rest in
      (item' :: rest', n + count)
  end.

(** [isinstance(v, (dict, list))] *)
Definition is_container (v : Document) : bool :=
  match v with
  | DMap _ | DSeq _ => true
  | _ => false
  end.

(** One entry of a QA file's [issues] list.  A field is [None] when its key is
    missing or holds [null]; otherwise it is the string the reviewer wrote. *)
Record Issue := {
  issue_type : option str;
  severity : option str;
  location : option str;
  original_text : option str;
  corrected_text : option str
}.

(** [issue.get(key, dflt)] for a string field. *)
Definition get_default (f : option str) (dflt : str) : str := default dflt f.

(** ** The correction merger of [apply_claude_corrections.py] *)

Module Claude.

(** An element of [result["corrections_applied"]]: the marker string of a full
    replacement, or the dictionary logged for one issue. *)
Inductive Correction :=
| Marker (text : str)
| Applied (type_ severity_ location_ original corrected : str) (replacements_made : nat).

(** The body of both loops of [apply_text_replacement_recursive]: a string is
    replaced in place and counted once when it contains the text, a container
    is walked by [walk], any other leaf is passed over. *)
Definition visit (walk : Document -> Document * nat)
    (original_text corrected_text : str) (v : Document) : Document * nat :=
  match v with
  | DStr s =>
      if py_in original_text s
      then (DStr (py_replace s original_text corrected_text), 1)
      else (v, 0)
  | _ => if is_container v then walk v else (v, 0)
  end.

(** [apply_text_replacement_recursive(obj, original_text, corrected_text)]:
    the object after the in-place updates, and the returned count. *)
Fixpoint apply_text_replacement_recursive
    (obj : Document) (original_text corrected_text : str) {struct obj}
    : Document * nat :=
  match obj with
  | DMap entries =>
      let '(entries', replacements) :=
        for_key (visit (fun w => apply_text_replacement_recursive w original_text corrected_text)
                       original_text corrected_text) entries in
      (DMap entries', replacements)
  | DSeq items =>
      let '(items', replacements) :=
        for_item (visit (fun w => apply_text_replacement_recursive w original_text corrected_text)
                        original_text corrected_text) items in
      (DSeq items', replacements)
  | _ => (obj, 0)
  end.

(** The page file of the OCR run, as far as [process_page] reads it.
    [parsed_json] is [None] when the key is missing. *)
Record OcrData := {
  parsed_json : option Document;
  book_page : Document
}.

(** The QA file.  [corrected_json] is [DNull] when the key is missing or holds
    [null] ([qa_data.get("corrected_json", None)] cannot tell them apart);
    [issues] is empty when the key is missing. *)
Record QaData := {
  overall_quality : option str;
  summary : option str;
  issues : list Issue;
  corrected_json : Document
}.

Record Result := {
  page : nat;
  had_corrections : bool;
  corrections_applied : list Correction;
  quality : option str;
  result_summary : option str;
  result_book_page : Document
}.

(** The state the issue loop of [process_page] updates: the working copy
    [parsed_json], [result["had_corrections"]] and
    [result["corrections_applied"]]. *)
Definition MergeState : Type := Document * bool * list Correction.

(** One iteration of [for issue in issues:]. *)
Definition apply_issue (st : MergeState) (issue : Issue) : MergeState :=
  let '(parsed, had, applied) := st in
  let original := get_default (original_text issue) [] in
  let corrected := get_default (corrected_text issue) [] in
  if nonempty original && nonempty corrected && negb (str_eqb original corrected)
  then
    let '(parsed', count) := apply_text_replacement_recursive parsed original corrected in
    if 0 <? count
    then (parsed', true,
          applied ++ [Applied (get_default (issue_type issue) (u "unknown"))
                              (get_default (severity issue) (u "unknown"))
                              (get_default (location issue) [])
                              original corrected count])
    else (parsed', had, applied)
  else st.

Definition apply_issues (st : MergeState) (l : list Issue) : MergeState :=
  fold_left apply_issue l st.

(** [process_page(page_num)] as a function of the two files it loads ([qa] is
    [None] when the QA file does not exist): the document it saves to the
    output directory and the metadata it returns. *)
Definition process_page (page_num : nat) (ocr_data : OcrData) (qa : option QaData)
    : Document * Result :=
  let parsed := default (DMap []) (parsed_json ocr_data) in
  match qa with
  | None =>
      (parsed,
       {| page := page_num; had_corrections := false; corrections_applied := [];
          quality := None; result_summary := None;
          result_book_page := book_page ocr_data |})
  | Some qa_data =>
      let quality_ := Some (get_default (overall_quality qa_data) (u "unknown")) in
      let summary_ := Some (get_default (summary qa_data) []) in
      let '(saved, had, applied) :=
        if negb (is_none (corrected_json qa_data))
             && negb (eq_str (corrected_json qa_data) (u "null"))
        then (corrected_json qa_data, true, [Marker (u "Full corrected_json replacement")])
        else apply_issues (parsed, false, []) (issues qa_data) in
      (saved,
       {| page := page_num; had_corrections := had; corrections_applied := applied;
          quality := quality_; result_summary := summary_;
          result_book_page := book_page ocr_data |})
  end.

End Claude.

(** ** The correction merger of [apply_gemini_corrections.py] *)

Module Gemini.

(** An element of the returned [corrections] list: the dictionary
    [apply_text_corrections] logs (with its count), or the pair listed next to
    a full replacement. *)
Inductive Correction :=
| Counted (original corrected : str) (count : nat)
| Listed (original corrected : str).

(** The body of both loops of [_replace_in_obj]. *)
Definition visit (walk : Document -> Document * nat)
    (original corrected : str) (v : Document) : Document * nat :=
  match v with
  | DStr s =>
      if py_in original s
      then (DStr (py_replace s original corrected), 1)
      else if is_container v then walk v else (v, 0)
  | _ => if is_container v then walk v else (v, 0)
  end.

(** [_replace_in_obj(obj, original, corrected)] *)
Fixpoint _replace_in_obj (obj : Document) (original corrected : str) {struct obj}
    : Document * nat :=
  match obj with
  | DMap entries =>
      let '(entries', count) :=
        for_key (visit (fun w => _replace_in_obj w original corrected) original corrected)
                entries in
      (DMap entries', count)
  | DSeq items =>
      let '(items', count) :=
        for_item (visit (fun w => _replace_in_obj w original corrected) original corrected)
                 items in
      (DSeq items', count)
  | _ => (obj, 0)
  end.

(** One iteration of the loop of [apply_text_corrections]; the [continue] leaves
    the state as it is. *)
Definition apply_issue (st : Document * list Correction) (issue : Issue)
    : Document * list Correction :=
  let '(result, corrections_applied) := st in
  let original := original_text issue in
  let corrected := corrected_text issue in
  if negb (truthy_field original) || negb (truthy_field corrected)
       || bool_decide (original = corrected)
  then st
  else
    let '(result', count) :=
      _replace_in_obj result (get_default original []) (get_default corrected []) in
    if 0 <? count
    then (result',
          corrections_applied
            ++ [Counted (get_default original []) (get_default corrected []) count])
    else (result', corrections_applied).

(** [apply_text_corrections(parsed_json, issues)]; the deep copy is the
    document itself, values being immutable here. *)
Definition apply_text_corrections (parsed_json : Document) (issues : list Issue)
    : Document * list Correction :=
  fold_left apply_issue issues (parsed_json, []).

(** [qa["parsed_qa"]] when it is a dictionary. *)
Record ParsedQa := {
  overall_quality : option str;
  summary : option str;
  issues : list Issue;
  corrected_json : Document
}.

Record Result := {
  page : nat;
  modified : bool;
  method : str;
  corrections : list Correction;
  quality : option str;
  issues_count : nat;
  result_summary : str
}.

(** [process_page(page_num)] as a function of the two files it loads:
    [parsed_json] is [original.get("parsed_json")] ([DNull] for Python's
    [None]), [parsed_qa] is [None] when [qa.get("parsed_qa")] is. *)
Definition process_page (page_num : nat) (parsed_json : Document)
    (parsed_qa : option ParsedQa) : Document * Result :=
  if is_none parsed_json
  then (DMap [],
        {| page := page_num; modified := false; method := u "no_parsed_json";
           corrections := []; quality := None; issues_count := 0;
           result_summary := u "No parsed JSON available" |})
  else
    match parsed_qa with
    | None =>
        (parsed_json,
         {| page := page_num; modified := false; method := u "qa_parse_failed";
            corrections := []; quality := None; issues_count := 0;
            result_summary := u "QA parsing failed, using original" |})
    | Some qa =>
        let quality_ := Some (get_default (overall_quality qa) (u "unknown")) in
        let qa_summary := get_default (summary qa) [] in
        if truthy (corrected_json qa)
        then (corrected_json qa,
              {| page := page_num; modified := true; method := u "corrected_json";
                 corrections :=
                   List.map (fun iss => Listed (get_default (original_text iss) [])
                                               (get_default (corrected_text iss) []))
                     (List.filter (fun iss => truthy_field (original_text iss)
                                              && truthy_field (corrected_text iss))
                                  (issues qa));
                 quality := quality_; issues_count := length (issues qa);
                 result_summary := qa_summary |})
        else if nonempty (issues qa)
        then
          let '(corrected, corrections_applied) :=
            apply_text_corrections parsed_json (issues qa) in
          let modified_ := 0 <? length corrections_applied in
          (corrected,
           {| page := page_num; modified := modified_;
              method := if modified_ then u "text_replacement"
                        else u "no_applicable_corrections";
              corrections := corrections_applied;
              quality := quality_; issues_count := length (issues qa);
              result_summary := qa_summary |})
        else
          (parsed_json,
           {| page := page_num; modified := false; method := u "no_corrections_needed";
              corrections := []; quality := quality_; issues_count := 0;
              result_summary := qa_summary |})
    end.

End Gemini.

(** ** The model call and the batch drivers *)

(** What one [requests.post] to the model ends in: the rate-limit status 429,
    a response whose body yields the texts [content] and [thinking], or an
    exception raised anywhere in the [try] block. *)
Inductive Response :=
| RateLimited
| Answer (content thinking : str)
| Failure (error : str).

(** What a retry loop does besides computing: requests and sleeps. *)
Inductive Effect :=
| Post (attempt : nat)
| Sleep (seconds : nat).

(** The dictionary kept for a page, in memory and in its file.  [parsed_json]
    is [DNull] when the key is missing or holds [None]. *)
Record PageResult := {
  page : nat;
  book_page : nat;
  raw_response : str;
  thinking : str;
  parsed_json : Document;
  error : option str;
  status : str
}.

(** The value of a Python call seen by its caller: [DNull] is [None]. *)
Definition py_value (r : option Document) : Document := default DNull r.

(** Files of the output directory, by page number (from 1), and what happens
    to them. *)
Inductive FileEvent :=
| Read (i : nat)
| Write (i : nat).

(** ** Recovery of a document from a model response *)

(** The stages of a recovery, named when their code is entered. *)
Inductive Stage :=
| Fence
| Direct
| TrailingComma
| BalancedBrace
| TruncationRepair.

(** The tests the repair loop makes on [str(e)].  That text is the message
    followed by [: line l column c (char p)]; neither the word nor any of the
    three characters looked for can occur in this suffix, so the tests are
    made on the message. *)
Definition mentions_delimiter (e : JSONDecodeError) : bool :=
  py_in (u "Expecting") (msg e)
  && (py_in (u ",") (msg e) || py_in (u "}") (msg e) || py_in (u "]") (msg e)).

(** What a Python call ends in: a returned value or a raised exception. *)
Inductive outcome (A : Type) : Type :=
| Return (a : A)
| Raise (exception : str).
Arguments Return {A} a.
Arguments Raise {A} exception.

Module Retry.

(** The loop over [range(start, len(raw))] of the balanced-brace stage, run on
    [raw[start:]]: [seen] is the part already passed.  The result is
    [raw[start:i+1]] for the first [i] at which [depth] is 0 after the
    update, [None] when the loop runs to its end. *)
Fixpoint scan_depth (depth : Z) (seen rest : str) : option str :=
  match rest with
  | [] => None
  | c :: rest' =>
      let depth' :=
        if (c =? 123)%N then (depth + 1)%Z
        else if (c =? 125)%N then (depth - 1)%Z
        else depth in
      if (depth' =? 0)%Z then Some (seen ++ [c])
      else scan_depth depth' (seen ++ [c]) rest'
  end.

(** The block under [# Try to find outermost braces]: [Some d] when it
    returns [d], [None] when control leaves it (no brace, no balance, or the
    [break] after a failed parse). *)
Definition outermost_braces (raw : str) : option Document :=
  match py_find (u "{") raw with
  | Some start =>
      match scan_depth 0 [] (drop start raw) with
      | Some text =>
          match json_loads text with
          | Ok d => Some d
          | Err _ => None
          end
      | None => None
      end
  | None => None
  end.

(** The loop [for _ in range(10)] of the last resort, [n] iterations being
    left: [Some d] when it returns [d], [None] when it ends or breaks. *)
Fixpoint repair_loop (n : nat) (attempt : str) : option Document :=
  match n with
  | 0 => None
  | S n' =>
      match json_loads attempt with
      | Ok d => Some d
      | Err e =>
          if mentions_delimiter e
          then
            let attempt1 :=
              if endswith (u ",") (rstrip attempt) then drop_last (rstrip attempt)
              else attempt in
            repair_loop n' (attempt1 ++ u "]}")
          else None
      end
  end.

(** [extract_json_robust(raw)]: the stages entered, in order, and the value
    returned, [Some d] for a [return json.loads(...)] that gave [d] and [None]
    for a [return None]. *)
Definition extract_json_robust (raw : str) : list Stage * option Document :=
  if negb (nonempty raw) then ([], None)
  else
    let raw :=
      match re_search fence_re raw with
      | Some g => strip (backref1 g)
      | None => raw
      end in
    match json_loads raw with
    | Ok d => ([Fence; Direct], Some d)
    | Err _ =>
        let fixed := re_sub trailing_comma_re backref1 raw in
        match json_loads fixed with
        | Ok d => ([Fence; Direct; TrailingComma], Some d)
        | Err _ =>
            match outermost_braces raw with
            | Some d => ([Fence; Direct; TrailingComma; BalancedBrace], Some d)
            | None =>
                ([Fence; Direct; TrailingComma; BalancedBrace; TruncationRepair],
                 if startswith (u "{") (strip raw)
                 then repair_loop 10 (strip raw)
                 else None)
            end
        end
    end.



(** The output directory and the log of the accesses to its page files. *)
Record State := {
  files : gmap nat PageResult;
  log : list FileEvent
}.

Definition read (i : nat) (st : State) : State :=
  {| files := files st; log := log st ++ [Read i] |}.

Definition write (i : nat) (d : PageResult) (st : State) : State :=
  {| files := <[i := d]> (files st); log := log st ++ [Write i] |}.

(** The loop [for attempt in range(3)] of [process_page]: [result] is the
    local variable of that name, unbound ([None]) until an attempt gets an
    answer.  Returns the final state, how the call ends, and the requests and
    sleeps made. *)
Fixpoint attempt_loop (page_num : nat) (respond : nat -> Response) (attempts : list nat)
    (result : option PageResult) (st : State)
    : State * outcome PageResult * list Effect :=
  match attempts with
  | [] =>
      (st,
       match result with
       | Some r => Return r
       | None => Raise (u "UnboundLocalError")
       end,
       [])
  | attempt :: rest =>
      match respond attempt with
      | RateLimited =>
          let '(st', o, effects) := attempt_loop page_num respond rest result st in
          (st', o, Post attempt :: Sleep (5 * (attempt + 1)) :: effects)
      | Failure _ =>
          let '(st', o, effects) := attempt_loop page_num respond rest result st in
          (st', o, Post attempt :: Sleep 3 :: effects)
      | Answer content thinking_ =>
          let parsed := py_value (extract_json_robust content).2 in
          let r := {| page := page_num + 1; book_page := page_num + 37;
                      raw_response := content; thinking := thinking_;
                      parsed_json := parsed; error := None;
                      status := if truthy parsed then u "success"
                                else u "json_parse_failed" |} in
          let st1 := write (page_num + 1) r st in
          if truthy parsed then (st1, Return r, [Post attempt])
          else
            let '(st', o, effects) := attempt_loop page_num respond rest (Some r) st1 in
            (st', o, Post attempt :: effects)
      end
  end.

(** [process_page(page_num, system_prompt)] *)
Definition process_page (page_num : nat) (respond : nat -> Response) (st : State)
    : State * outcome PageResult * list Effect :=
  attempt_loop page_num respond (seq 0 3) None st.

(** The number of pages [main] goes through: [range(1, 85)]. *)
Definition NUM_PAGES : nat := 84.

(** The test [main] makes on a page file it has loaded. *)
Definition needs_retry (d : PageResult) : bool :=
  negb (str_eqb (status d) (u "success")) || negb (truthy (parsed_json d)).

(** One iteration of the first loop of [main]: a missing file puts the page
    on the list, an existing one is loaded and tested. *)
Definition check_page (acc : State * list nat) (i : nat) : State * list nat :=
  let '(st, failed) := acc in
  match files st !! i with
  | None => (st, failed ++ [i - 1])
  | Some d => (read i st, if needs_retry d then failed ++ [i - 1] else failed)
  end.

(** The first loop of [main]: the pages to retry (numbered from 0), every
    existing file being loaded on the way. *)
Definition find_failed (pages : list nat) (st : State) : State * list nat :=
  foldl check_page (st, []) pages.

(** One task of the pool; the flag records that a call raised. *)
Definition run_page (respond : nat -> nat -> Response) (acc : State * bool)
    (page_num : nat) : State * bool :=
  let '(st, raised) := acc in
  match process_page page_num (respond page_num) st with
  | (st', Return _, _) => (st', raised)
  | (st', Raise _, _) => (st', true)
  end.

(** The pool: every failed page is processed; [true] in the result when one
    of the calls raised, which [future.result()] raises again in [main]
    once the pool has shut down. *)
Definition run_pool (respond : nat -> nat -> Response) (failed : list nat) (st : State)
    : State * bool :=
  foldl (run_page respond) (st, false) failed.

(** One iteration of the loop that parses again the raw response of a page
    left without a document. *)
Definition reparse_page (st : State) (i : nat) : State :=
  match files st !! i with
  | None => st
  | Some d =>
      let st := read i st in
      if negb (truthy (parsed_json d)) && nonempty (raw_response d)
      then
        let parsed := py_value (extract_json_robust (raw_response d)).2 in
        if truthy parsed
        then write i {| page := page d; book_page := book_page d;
                        raw_response := raw_response d; thinking := thinking d;
                        parsed_json := parsed; error := error d;
                        status := u "success" |} st
        else st
      else st
  end.

Definition reparse (pages : list nat) (st : State) : State :=
  foldl reparse_page st pages.

(** One iteration of the loop that collects every page file into the combined
    results. *)
Definition collect_page (acc : State * list PageResult) (i : nat)
    : State * list PageResult :=
  let '(st, results) := acc in
  match files st !! i with
  | None => (st, results)
  | Some d => (read i st, results ++ [d])
  end.

Definition collect (pages : list nat) (st : State) : State * list PageResult :=
  foldl collect_page (st, []) pages.

(** [main()]: the final state, the pages it handed to [process_page], and the
    combined results it wrote ([None] when it returned early or raised). *)
Definition main (respond : nat -> nat -> Response) (st : State)
    : State * list nat * option (list PageResult) :=
  let pages := seq 1 NUM_PAGES in
  let '(st1, failed) := find_failed pages st in
  if negb (nonempty failed) then (st1, [], None)
  else
    let '(st2, raised) := run_pool respond failed st1 in
    if raised then (st2, failed, None)
    else
      let st3 := reparse pages st2 in
      let '(st4, results) := collect pages st3 in
      (st4, failed, Some results).

End Retry.

Module Extract.

(** [raw.index(sub, start)]: [None] stands for the [ValueError] raised when
    [sub] does not occur from [start] on. *)
Definition index_from (raw sub : str) (start : nat) : option nat :=
  (fun i => start + i) <$> py_find sub (drop start raw).

(** [raw[start:end]] *)
Definition slice (raw : str) (start end_ : nat) : str :=
  take (end_ - start) (drop start raw).

(** The two fence branches: the text to parse, or the [ValueError] of an
    opening fence that is never closed. *)
Definition strip_fence (raw : str) : outcome str :=
  if py_in (u "```json") raw then
    match py_find (u "```json") raw with
    | Some i =>
        let start := i + 7 in
        match index_from raw (u "```") start with
        | Some end_ => Return (strip (slice raw start end_))
        | None => Raise (u "ValueError")
        end
    | None => Raise (u "ValueError")
    end
  else if py_in (u "```") raw then
    match py_find (u "```") raw with
    | Some i =>
        let start := i + 3 in
        match index_from raw (u "```") start with
        | Some end_ => Return (strip (slice raw start end_))
        | None => Raise (u "ValueError")
        end
    | None => Raise (u "ValueError")
    end
  else Return raw.

(** [extract_json_from_response(raw)]: the stages entered and how the call
    ends. *)
Definition extract_json_from_response (raw : str)
    : list Stage * outcome (option Document) :=
  if negb (nonempty raw) then ([], Return None)
  else
    match strip_fence raw with
    | Raise e => ([Fence], Raise e)
    | Return raw =>
        match json_loads raw with
        | Ok d => ([Fence; Direct], Return (Some d))
        | Err _ =>
            let raw := strip raw in
            if startswith (u "{") raw || startswith (u "[") raw
            then
              let fixed := re_sub comma_brace_re (fun _ => u "}") raw in
              let fixed := re_sub comma_bracket_re (fun _ => u "]") fixed in
              match json_loads fixed with
              | Ok d => ([Fence; Direct; TrailingComma], Return (Some d))
              | Err _ => ([Fence; Direct; TrailingComma], Return None)
              end
            else ([Fence; Direct; TrailingComma], Return None)
        end
    end.



(** The loop [for attempt in range(3)] of [call_gemini], [attempts] being the
    attempts left: what the function returns ([None] when control falls off
    the end of the loop) and what it did meanwhile. *)
Fixpoint call_loop (page_num : nat) (respond : nat -> Response) (attempts : list nat)
    : option PageResult * list Effect :=
  match attempts with
  | [] => (None, [])
  | attempt :: rest =>
      match respond attempt with
      | RateLimited =>
          let wait := 2 ^ (attempt + 1) + 5 in
          let '(r, effects) := call_loop page_num respond rest in
          (r, Post attempt :: Sleep wait :: effects)
      | Answer content thinking_ =>
          (Some {| page := page_num + 1; book_page := page_num + 37;
                   raw_response := content; thinking := thinking_;
                   parsed_json := DNull; error := None; status := u "success" |},
           [Post attempt])
      | Failure e =>
          if attempt <? 2
          then
            let wait := 2 ^ (attempt + 1) in
            let '(r, effects) := call_loop page_num respond rest in
            (r, Post attempt :: Sleep wait :: effects)
          else
            (Some {| page := page_num + 1; book_page := page_num + 37;
                     raw_response := []; thinking := [];
                     parsed_json := DNull; error := Some e; status := u "failed" |},
             [Post attempt])
      end
  end.

(** [call_gemini(page_num, image_b64, system_prompt)], [respond] telling what
    each attempt meets. *)
Definition call_gemini (page_num : nat) (respond : nat -> Response)
    : option PageResult * list Effect :=
  call_loop page_num respond (seq 0 3).

(** [process_page(args)]: the dictionary it saves to the page's file and
    returns, or the exception it raises before saving anything. *)
Definition process_page (page_num : nat) (respond : nat -> Response)
    : outcome PageResult :=
  match (call_gemini page_num respond).1 with
  | None => Raise (u "AttributeError")
  | Some result =>
      match (extract_json_from_response (raw_response result)).2 with
      | Raise e => Raise e
      | Return r =>
          let parsed := py_value r in
          Return {| page := page result; book_page := book_page result;
                    raw_response := raw_response result; thinking := thinking result;
                    parsed_json := parsed; error := error result;
                    status := if truthy parsed then u "success"
                              else if str_eqb (status result) (u "success")
                                   then u "json_parse_failed"
                                   else status result |}
      end
  end.

(** What [main] appends to [results] for a page: the returned dictionary, or
    the one it builds in its [except] branch. *)
Definition collected (page_num : nat) (o : outcome PageResult) : PageResult :=
  match o with
  | Return result => result
  | Raise e =>
      {| page := page_num + 1; book_page := page_num + 37;
         raw_response := []; thinking := [];
         parsed_json := DNull; error := Some e; status := u "exception" |}
  end.

(** [results.sort(key=lambda x: x["page"])]: a stable sort; insertion from
    the right keeps equal keys in their order. *)
Fixpoint insert_by_page (r : PageResult) (sorted : list PageResult) : list PageResult :=
  match sorted with
  | [] => [r]
  | x :: rest =>
      if page r <=? page x then r :: sorted else x :: insert_by_page r rest
  end.

Fixpoint sort_by_page (results : list PageResult) : list PageResult :=
  match results with
  | [] => []
  | r :: rest => insert_by_page r (sort_by_page rest)
  end.

(** [summary.json] without the elapsed time. *)
Record Summary := {
  total_pages : nat;
  success : nat;
  json_parse_failed : nat;
  api_failed : nat;
  failed_pages : list nat
}.

Definition not_success (r : PageResult) : bool :=
  negb (str_eqb (status r) (u "success")).

(** The part of [main] after the pool has drained: [results] holds the
    dictionaries in the order the pages completed. *)
Definition summarize (total : nat) (results : list PageResult) : Summary :=
  let results := sort_by_page results in
  {| total_pages := total;
     success := length (List.filter (fun r => truthy (parsed_json r)) results);
     json_parse_failed :=
       length (List.filter (fun r => str_eqb (status r) (u "json_parse_failed")) results);
     api_failed := length (List.filter not_success results);
     failed_pages := List.map page (List.filter not_success results) |}.

(** [main()]: [total] pages, [respond page_num] telling what the attempts for
    a page meet, [completed] listing the page numbers (from 0) in the order
    [as_completed] yields them. *)
Definition main (total : nat) (respond : nat -> nat -> Response) (completed : list nat)
    : Summary :=
  summarize total
    (List.map (fun page_num => collected page_num (process_page page_num (respond page_num)))
              completed).

(** The page files a run leaves in an output directory that held [files]:
    a page whose [process_page] returns has its dictionary saved, a page whose
    [process_page] raises keeps what it had. *)
Definition saved (respond : nat -> nat -> Response) (pages : list nat)
    (files : gmap nat PageResult) : gmap nat PageResult :=
  foldr (fun page_num fs =>
           match process_page page_num (respond page_num) with
           | Return result => <[page_num + 1 := result]> fs
           | Raise _ => fs
           end) files pages.

End Extract.





(** ** Recovery as an ordered list of strategies

    The recovery of the specification: the fence step, then an ordered list
    of strategies, each one a function from the text to a document or a
    failure, tried until one succeeds.  The two recovery functions of the
    sources are compared with it below. *)

(** [json.loads] as a strategy. *)
Definition parse (text : str) : option Document :=
  match json_loads text with
  | Ok d => Some d
  | Err _ => None
  end.

(** Try the stages of a list in order on the same text; stop at the first one
    that yields a document.  The stages tried are returned with the result. *)
Fixpoint first_success (attempt : Stage -> str -> option Document)
    (stages : list Stage) (text : str) : list Stage * option Document :=
  match stages with
  | [] => ([], None)
  | stage :: rest =>
      match attempt stage text with
      | Some d => ([stage], Some d)
      | None =>
          let '(tried, r) := first_success attempt rest text in
          (stage :: tried, r)
      end
  end.

Module RetrySpec.

(** Step 1: the content of the first fenced block, or the text unchanged. *)
Definition fence_extraction (raw : str) : str :=
  match re_search fence_re raw with
  | Some g => strip (backref1 g)
  | None => raw
  end.

(** Steps 2 to 5 as strategies. *)
Definition attempt (stage : Stage) (text : str) : option Document :=
  match stage with
  | Fence => None
  | Direct => parse text
  | TrailingComma => parse (re_sub trailing_comma_re backref1 text)
  | BalancedBrace => Retry.outermost_braces text
  | TruncationRepair =>
      if startswith (u "{") (strip text) then Retry.repair_loop 10 (strip text) else None
  end.

Definition stages : list Stage := [Direct; TrailingComma; BalancedBrace; TruncationRepair].

Definition recover_by_stages (raw : str) : list Stage * option Document :=
  match raw with
  | [] => ([], None)
  | _ :: _ =>
      let '(tried, r) := first_success attempt stages (fence_extraction raw) in
      (Fence :: tried, r)
  end.

End RetrySpec.

Module ExtractSpec.

(** The strategies [extract_json_from_response] has. *)
Definition attempt (stage : Stage) (text : str) : option Document :=
  match stage with
  | Direct => parse text
  | TrailingComma =>
      if startswith (u "{") (strip text) || startswith (u "[") (strip text)
      then parse (re_sub comma_bracket_re (fun _ => u "]")
                    (re_sub comma_brace_re (fun _ => u "}") (strip text)))
      else None
  | _ => None
  end.

Definition stages : list Stage := [Direct; TrailingComma].

Definition recover_by_stages (raw : str) : list Stage * outcome (option Document) :=
  match raw with
  | [] => ([], Return None)
  | _ :: _ =>
      match Extract.strip_fence raw with
      | Raise e => ([Fence], Raise e)
      | Return text =>
          let '(tried, r) := first_success attempt stages text in
          (Fence :: tried, Return r)
      end
  end.

End ExtractSpec.

(** ** Vocabulary of the retry properties *)

(** The number of requests among the effects of a retry loop. *)
Definition posts (effects : list Effect) : nat :=
  length (List.filter (fun e => match e with Post _ => true | Sleep _ => false end) effects).


Definition is_answer (r : Response) : bool :=
  match r with Answer _ _ => true | _ => false end.

(** ** Valid documents *)

(** A run of one digit or more. *)
Definition digit_run (s : str) : bool := nonempty s && forallb is_digit s.

(** The integer part of a JSON number: a single 0, or digits that start with
    1 to 9. *)
Definition int_part (s : str) : bool :=
  match s with
  | [] => false
  | c :: l => if (c =? 48)%N then negb (nonempty l) else forallb is_digit s
  end.

(** The fraction of a JSON number: a point and digits. *)
Definition frac_part (s : str) : bool :=
  match s with
  | c :: ds => (c =? 46)%N && digit_run ds
  | [] => false
  end.

(** The exponent of a JSON number: e or E, an optional sign, digits. *)
Definition exp_part (s : str) : bool :=
  match s with
  | e :: s' =>
      ((e =? 101) || (e =? 69))%N
      && digit_run (match s' with
                    | c :: t => if ((c =? 43) || (c =? 45))%N then t else s'
                    | [] => s'
                    end)
  | [] => false
  end.

Definition is_e (c : char) : bool := ((c =? 101) || (c =? 69))%N.

(** A JSON number with a fraction, an exponent or both: what
    [float.__repr__] gives for a finite float ([1.5], [-0.0], [1e+16],
    [2.5e-07]). *)
Definition finite_float (x : str) : bool :=
  let '(digits, r) := span is_digit (scan_sign x).2 in
  let '(frac, expo) := span (fun c => negb (is_e c)) r in
  int_part digits && (nonempty frac || nonempty expo)
  && (negb (nonempty frac) || frac_part frac)
  && (negb (nonempty expo) || exp_part expo).

(** The texts [json.dumps] writes for a float: [NaN], [Infinity] and
    [-Infinity] for the three values that are no numbers of JSON, the
    [repr] of the float for any other. *)
Definition float_lexeme (x : str) : bool :=
  bool_decide (x = u "NaN") || bool_decide (x = u "Infinity")
  || bool_decide (x = u "-Infinity") || finite_float x.

(** A document the encoder and the decoder agree on: the keys of every
    mapping are distinct, as in any [dict], and every float leaf holds the
    text [json.dumps] writes for it. *)
Fixpoint valid_doc (d : Document) : bool :=
  match d with
  | DFloat x => float_lexeme x
  | DSeq items => forallb valid_doc items
  | DMap entries =>
      bool_decide (NoDup entries.*1) && forallb (fun kv => valid_doc kv.2) entries
  | _ => true
  end.

(** A document whose string leaves look like JSON punctuation: braces,
    brackets, commas before closing brackets, two backticks. *)
Definition doc_lookalikes : Document :=
  DMap [(u "text", DStr (u "a, ] `` {b,} [c,]"));
        (u "items", DSeq [DNum 1; DNum (-2); DNull; DBool true; DStr (u "},")])].

(** A document that is one string, with a fence in it. *)
Definition doc_fenced : Document := DStr (u "```1```").

(** A document with float leaves beside the others: finite floats as
    [repr] writes them and the three values that are no numbers of JSON. *)
Definition doc_floats : Document :=
  DMap [(u "text", DStr (u "a, ] `` {b,} [c,]"));
        (u "items", DSeq [DNum 1; DNum (-2); DNull; DBool true; DStr (u "},")]);
        (u "floats", DSeq [DFloat (u "1.5"); DFloat (u "-0.0"); DFloat (u "1e+16");
                           DFloat (u "2.5e-07"); DFloat (u "NaN");
                           DFloat (u "Infinity"); DFloat (u "-Infinity")])].

(** ** Vocabulary of the merge properties *)

(** Two documents have the same tree: the same constructor at every node, the
    same keys in the same order in every mapping, sequences of the same
    length, equal leaves except that two string leaves may hold any text. *)
Inductive same_shape : Document -> Document -> Prop :=
| shape_null : same_shape DNull DNull
| shape_bool b : same_shape (DBool b) (DBool b)
| shape_num z : same_shape (DNum z) (DNum z)
| shape_float x : same_shape (DFloat x) (DFloat x)
| shape_str s s' : same_shape (DStr s) (DStr s')
| shape_seq items items' :
    Forall2 same_shape items items' -> same_shape (DSeq items) (DSeq items')
| shape_map entries entries' :
    Forall2 (fun kv kv' => kv.1 = kv'.1 /\ same_shape kv.2 kv'.2) entries entries' ->
    same_shape (DMap entries) (DMap entries').

(** The [i]-th child of a node: an item of a sequence, the value of the
    [i]-th entry of a mapping. *)
Definition child (d : Document) (i : nat) : option Document :=
  match d with
  | DSeq items => items !! i
  | DMap entries => snd <$> entries !! i
  | _ => None
  end.

(** The node reached from the root by a list of child positions. *)
Fixpoint at_path (p : list nat) (d : Document) : option Document :=
  match p with
  | [] => Some d
  | i :: p' => child d i ≫= at_path p'
  end.

(** The keys of a mapping, in insertion order. *)
Definition keys (d : Document) : option (list str) :=
  match d with
  | DMap entries => Some (entries.*1)
  | _ => None
  end.

(** The key list of the mapping at a path ([None] when the path leads nowhere
    or to something else than a mapping). *)
Definition keys_at (p : list nat) (d : Document) : option (list str) :=
  at_path p d ≫= keys.

(** A directive the mergers pass over: a field is missing or empty, or the
    two fields are equal. *)
Definition degenerate (issue : Issue) : Prop :=
  truthy_field (original_text issue) = false
  \/ truthy_field (corrected_text issue) = false
  \/ original_text issue = corrected_text issue.

(** ** Sample data *)

(** A directive that turns "cat" into "dog". *)
Definition issue_cat_dog : Issue :=
  {| issue_type := Some (u "wrong_text"); severity := Some (u "minor");
     location := None;
     original_text := Some (u "cat"); corrected_text := Some (u "dog") |}.

(** A directive with no corrected text. *)
Definition issue_without_correction : Issue :=
  {| issue_type := Some (u "missing_text"); severity := None; location := None;
     original_text := Some (u "sat"); corrected_text := None |}.

(** A page with one text leaf. *)
Definition page_cat : Document := DMap [(u "text", DStr (u "the cat sat"))].

(** A full replacement for that page. *)
Definition replacement_dog : Document := DMap [(u "text", DStr (u "a dog sat"))].



(** The saved file of a page that succeeded, and of one that failed. *)
Definition page_ok : PageResult :=
  {| page := 1; book_page := 37; raw_response := q "{'a': 1}"; thinking := [];
     parsed_json := DMap [(u "a", DNum 1)]; error := None; status := u "success" |}.


(** ** Vocabulary of the recovery properties *)

(** A text of white space only. *)
Definition blank (s : str) : Prop := Forall (fun c => isspace c = true) s.

(** ** Vocabulary of the run properties *)


(** The order of [results.sort(key=lambda x: x["page"])]. *)
Definition page_le (a b : PageResult) : Prop := page a <= page b.

(** The pages whose file says success and holds a document: those [main]
    leaves alone. *)
Definition keeps (fs0 : gmap nat PageResult) (i : nat) : bool :=
  match fs0 !! i with
  | Some d => negb (Retry.needs_retry d)
  | None => false
  end.


(** ** Vocabulary of the round trip *)

(** What may follow a number without changing how it is read. *)
Definition stops (rest : list N) : bool :=
  match rest with
  | [] => true
  | c :: _ => negb (is_digit c || (c =? 46) || (c =? 101) || (c =? 69))%N
  end.

(** The fuel the decoder needs for a document: one unit for each value and
    one more for each item of a container. *)
Fixpoint size (d : Document) : nat :=
  match d with
  | DSeq items => S (sum_list_with (fun x => S (size x)) items)
  | DMap entries => S (sum_list_with (fun kv => S (size kv.2)) entries)
  | _ => 1
  end.

(** The first character of an encoded value: where a value may start. *)
Definition starts_value (c : N) : bool :=
  (is_digit c || (c =? 45) || (c =? 34) || (c =? 91) || (c =? 123)
   || (c =? 110) || (c =? 116) || (c =? 102) || (c =? 78) || (c =? 73))%N.

(** No digit comes next. *)
Definition no_digit_ahead (s : str) : Prop :=
  match s with [] => True | c :: _ => is_digit c = false end.

(** The characters of a float lexeme: digits, signs, the point, the
    exponent mark and the letters of [NaN] and [Infinity]. *)
Definition float_char (c : N) : bool :=
  (is_digit c || (c =? 43) || (c =? 45) || (c =? 46) || (c =? 69) || (c =? 101)
   || (c =? 78) || (c =? 97) || (c =? 73) || (c =? 110) || (c =? 102)
   || (c =? 105) || (c =? 116) || (c =? 121))%N.

(** The decoder reads [d] back from its encoding, whatever follows it. *)
Definition reads_back (indent : option nat) (d : Document) : Prop :=
  forall level fuel rest,
    size d <= fuel -> stops rest = true ->
    scan_once fuel (encode indent level d ++ rest) = Ok (Some (d, rest)).

(** ** Vocabulary of the correction logs *)

(** What a logged correction says: the two texts and the count. *)
Definition claude_entry (c : Claude.Correction) : option (str * str * nat) :=
  match c with
  | Claude.Marker _ => None
  | Claude.Applied _ _ _ original corrected n => Some (original, corrected, n)
  end.

Definition gemini_entry (c : Gemini.Correction) : option (str * str * nat) :=
  match c with
  | Gemini.Counted original corrected n => Some (original, corrected, n)
  | Gemini.Listed _ _ => None
  end.

(** A log entry that stands for a replacement that took place. *)
Definition effective (e : option (str * str * nat)) : Prop :=
  match e with
  | Some (original, corrected, n) =>
      original <> [] /\ corrected <> [] /\ original <> corrected /\ 0 < n
  | None => False
  end.

(** ** The JSON files of the mergers *)

(** The text files of the base directory, by path: what a file holds once
    decoded from UTF-8. *)
Abbreviation Files := (gmap (list N) (list N)) (only parsing).

(** A code point the UTF-8 codec can write: any but a surrogate. *)
Definition encodable (c : N) : bool :=
  ((c <? 55296) || (57343 <? c) && (c <=? 1114111))%N.

(** What reading in text mode does to line ends: [\r\n] and [\r] become
    [\n]. *)
Fixpoint universal_newlines (s : list N) : list N :=
  match s with
  | [] => []
  | 13%N :: rest =>
      10%N :: match rest with
              | 10%N :: rest' => universal_newlines rest'
              | _ => universal_newlines rest
              end
  | c :: rest => c :: universal_newlines rest
  end.

(** A document [json.dump] can write to a file opened as UTF-8, with
    [ensure_ascii=False]: its text holds no lone surrogate. *)
Definition storable (d : Document) : bool :=
  forallb encodable (json_dumps (Some 2) d).

(** [save_json(path, data)]: the files after the call.  A text the codec
    cannot write makes [f.write] raise; what the file then holds is not
    modelled. *)
Definition save_json (path : list N) (data : Document) (fs : Files) : outcome Files :=
  if storable data then Return (<[path := json_dumps (Some 2) data]> fs)
  else Raise (u "UnicodeEncodeError").

(** A response whose page dictionary [retry_failed.process_page] can
    write: an answer whose texts and document are storable.  The model of
    the page files writes every dictionary in full; what it says of the
    files holds of the code for such responses. *)
Definition writable (r : Response) : bool :=
  match r with
  | Answer content thinking_ =>
      storable (DStr content) && storable (DStr thinking_)
      && storable (py_value (Retry.extract_json_robust content).2)
  | _ => true
  end.

(** The longest decimal text [int] converts without a [ValueError]:
    [sys.int_max_str_digits], 4300 unless it was changed. *)
Definition MAX_STR_DIGITS : nat := 4300.

(** No run of digits of [s] is longer than [limit]; [run] digits came just
    before [s]. *)
Fixpoint digit_runs_within (limit run : nat) (s : str) : bool :=
  match s with
  | [] => true
  | c :: s' =>
      if is_digit c then (S run <=? limit) && digit_runs_within limit (S run) s'
      else digit_runs_within limit 0 s'
  end.

(** A text in which [json.loads] meets no integer too long to convert: on a
    longer one it raises a plain [ValueError], which is no
    [json.JSONDecodeError].  The parser of the model has no such limit; it
    stands for [json.loads] on these texts. *)
Definition within_int_limit (s : str) : bool := digit_runs_within MAX_STR_DIGITS 0 s.

(** A document [json.dumps] serializes: none of its integers has more
    digits than the limit, beyond which the conversion of an [int] to text
    raises a [ValueError] too. *)
Fixpoint dumpable (d : Document) : bool :=
  match d with
  | DNum z => length (int_repr (Z.abs z)) <=? MAX_STR_DIGITS
  | DSeq items => forallb dumpable items
  | DMap entries => forallb (fun kv => dumpable kv.2) entries
  | _ => true
  end.



(** [load_json(path)] *)
Definition load_json (path : list N) (fs : Files) : outcome Document :=
  match fs !! path with
  | None => Raise (u "FileNotFoundError")
  | Some text =>
      match json_loads (universal_newlines text) with
      | Ok d => Return d
      | Err _ => Raise (u "JSONDecodeError")
      end
  end.

(** ** Vocabulary of the recovery stages *)

(** [isinstance(d, dict)] *)
Definition is_dict (d : Document) : bool :=
  match d with DMap _ => true | _ => false end.

(** ** Vocabulary of the page dictionaries *)

(** A page dictionary as the two [process_page] leave it: numbered after
    the page, and a success exactly when its document is true as a Python
    value. *)
Definition well_formed_page (page_num : nat) (r : PageResult) : Prop :=
  page r = page_num + 1
  /\ book_page r = page_num + 37
  /\ str_eqb (status r) (u "success") = truthy (parsed_json r)
  /\ (status r = u "success" \/ status r = u "json_parse_failed"
      \/ status r = u "failed" /\ raw_response r = [] /\ error r <> None).

(** A page file that holds a success with a document, for the examples. *)
Definition page_done (i : nat) : PageResult :=
  {| page := i; book_page := i + 36; raw_response := q "{'a': 1}"; thinking := [];
     parsed_json := DMap [(u "a", DNum 1)]; error := None; status := u "success" |}.

(** An output directory in which every page is done. *)
Definition all_done : gmap nat PageResult :=
  list_to_map (List.map (fun i => (i, page_done i)) (seq 1 Retry.NUM_PAGES)).

(** ** The drivers of the two mergers *)

(** [sorted(...)] and [list.sort(key=...)] on a numeric key: a stable sort;
    insertion from the right keeps equal keys in their order. *)
Fixpoint insert_by {A} (key : A -> nat) (x : A) (sorted : list A) : list A :=
  match sorted with
  | [] => [x]
  | y :: rest => if key x <=? key y then x :: sorted else y :: insert_by key x rest
  end.

Fixpoint sort_by {A} (key : A -> nat) (l : list A) : list A :=
  match l with
  | [] => []
  | x :: rest => insert_by key x (sort_by key rest)
  end.

(** [d[k] = v] on a dictionary keyed by page number: the value of an
    existing key is replaced where it stands, a new key goes to the end. *)
Fixpoint set_item {V} (d : list (nat * V)) (k : nat) (v : V) : list (nat * V) :=
  match d with
  | [] => [(k, v)]
  | (k', v') :: rest => if k' =? k then (k, v) :: rest else (k', v') :: set_item rest k v
  end.

(** The page numbers both drivers go through: [range(1, NUM_PAGES + 1)]. *)
Definition NUM_PAGES : nat := 84.

(** [save_json(out_path, data)] as the last statement before [return
    result]: the write raises on a text UTF-8 cannot encode, and the
    exception leaves [process_page]. *)
Definition after_save {A} (data : Document) (result : A) : outcome A :=
  if storable data then Return result else Raise (u "UnicodeEncodeError").

Module ClaudeBatch.

(** What [results[page_num]] holds: the metadata [process_page] returned,
    or the dictionary built from the exception it raised. *)
Inductive Entry :=
| Processed (r : Claude.Result)
| Errored (page : nat) (error : str).

(** [r.get("had_corrections", False)] *)
Definition had_corrections (e : Entry) : bool :=
  match e with
  | Processed r => Claude.had_corrections r
  | Errored _ _ => false
  end.

(** [r.get("corrections_applied", [])] *)
Definition corrections_applied (e : Entry) : list Claude.Correction :=
  match e with
  | Processed r => Claude.corrections_applied r
  | Errored _ _ => []
  end.

(** [process_page(page_num)] from what reading its files gives: the data of
    the two files, or the exception raised on the way (a missing OCR file, a
    file that is not JSON or not of the expected shape). *)
Definition process_page (inputs : nat -> outcome (Claude.OcrData * option Claude.QaData))
    (page_num : nat) : outcome Claude.Result :=
  match inputs page_num with
  | Return (ocr_data, qa) =>
      let r := Claude.process_page page_num ocr_data qa in
      after_save r.1 r.2
  | Raise e => Raise e
  end.

(** The body of the loop over [as_completed(futures)]. *)
Definition entry_of (run : nat -> outcome Claude.Result) (page_num : nat) : Entry :=
  match run page_num with
  | Return r => Processed r
  | Raise e => Errored page_num e
  end.

(** [apply_all_corrections()]: [completed] lists the pages in the order
    [as_completed] yields them. *)
Definition apply_all_corrections (run : nat -> outcome Claude.Result)
    (completed : list nat) : list (nat * Entry) :=
  foldl (fun results page_num => set_item results page_num (entry_of run page_num))
        [] completed.

(** The figures [main] prints before it builds the viewer. *)
Definition pages_modified (correction_results : list (nat * Entry)) : list nat :=
  List.map fst (List.filter (fun pr => had_corrections pr.2)
                            (sort_by fst correction_results)).

Definition total_corrections (correction_results : list (nat * Entry)) : nat :=
  sum_list_with (fun pr => length (corrections_applied pr.2)) correction_results.

(** The figure [build_viewer] shows beside it. *)
Definition pages_with_corrections (correction_results : list (nat * Entry)) : nat :=
  sum_list_with (fun pr => if had_corrections pr.2 then 1 else 0) correction_results.

End ClaudeBatch.

Module GeminiBatch.

(** [process_page(page_num)] from what reading its files gives. *)
Definition process_page (inputs : nat -> outcome (Document * option Gemini.ParsedQa))
    (page_num : nat) : outcome Gemini.Result :=
  match inputs page_num with
  | Return (parsed_json, parsed_qa) =>
      let r := Gemini.process_page page_num parsed_json parsed_qa in
      after_save r.1 r.2
  | Raise e => Raise e
  end.

(** The loop over [as_completed(futures)] of [main]: [f.result()] raises
    again what the page raised, and nothing catches it. *)
Fixpoint gather (run : nat -> outcome Gemini.Result) (completed : list nat)
    (page_results : list Gemini.Result) : outcome (list Gemini.Result) :=
  match completed with
  | [] => Return page_results
  | page_num :: rest =>
      match run page_num with
      | Return result => gather run rest (page_results ++ [result])
      | Raise e => Raise e
      end
  end.

(** One iteration of the summary loop of [main]: [modified_count] and
    [total_corrections]. *)
Definition count_page (acc : nat * nat) (r : Gemini.Result) : nat * nat :=
  if Gemini.modified r
  then (acc.1 + 1, acc.2 + length (Gemini.corrections r))
  else acc.

(** The figures at the head of [build_viewer]: [total], [modified] and
    [total_corrections].  The images and the page it writes are not
    modelled. *)
Record ViewerStats := {
  total : nat;
  modified : nat;
  viewer_corrections : nat
}.

Definition build_viewer (page_results : list Gemini.Result) : ViewerStats :=
  {| total := length page_results;
     modified := sum_list_with (fun r => if Gemini.modified r then 1 else 0) page_results;
     viewer_corrections :=
       sum_list_with (fun r => length (Gemini.corrections r)) page_results |}.

(** [_correction_report.json] *)
Record Report := {
  total_pages : nat;
  modified_pages : nat;
  total_corrections : nat;
  pages : list Gemini.Result
}.

(** [main()]: the figures of the viewer and the report it hands to
    [save_json], or the exception of the first page that raised. *)
Definition main (run : nat -> outcome Gemini.Result) (completed : list nat)
    : outcome (ViewerStats * Report) :=
  match gather run completed [] with
  | Raise e => Raise e
  | Return page_results =>
      let page_results := sort_by Gemini.page page_results in
      let '(modified_count, total_corrections_) := foldl count_page (0, 0) page_results in
      Return (build_viewer page_results,
              {| total_pages := NUM_PAGES; modified_pages := modified_count;
                 total_corrections := total_corrections_; pages := page_results |})
  end.

End GeminiBatch.

(** What loading gives in the examples: page 2 has no OCR file. *)
Definition claude_inputs (page_num : nat)
    : outcome (Claude.OcrData * option Claude.QaData) :=
  if page_num =? 2 then Raise (u "FileNotFoundError")
  else Return ({| Claude.parsed_json := Some page_cat; Claude.book_page := DNum 37 |},
               Some {| Claude.overall_quality := None; Claude.summary := None;
                       Claude.issues := [issue_cat_dog];
                       Claude.corrected_json := DNull |}).

Definition gemini_inputs (page_num : nat) : outcome (Document * option Gemini.ParsedQa) :=
  Return (page_cat,
          Some {| Gemini.overall_quality := None; Gemini.summary := None;
                  Gemini.issues := [issue_cat_dog];
                  Gemini.corrected_json := DNull |}).

(** ** Text in the HTML viewers *)

(** [html.escape(s)], with its default [quote=True]: five replacements in a
    row, the ampersand first. *)
Definition html_escape (s : str) : str :=
  let s := py_replace s (u "&") (u "&amp;") in
  let s := py_replace s (u "<") (u "&lt;") in
  let s := py_replace s (u ">") (u "&gt;") in
  let s := py_replace s [34%N] (u "&quot;") in
  py_replace s (u "'") (u "&#x27;").

Section Escape.

(** [str(text)]: the text itself when [text] is a string, the text Python
    prints for any other value, which is left open here. *)
Variable py_str : Document -> str.

(** [h(text)] of [apply_claude_corrections.py] *)
Definition h (text : Document) : str :=
  if is_none text then [] else html_escape (py_str text).

(** [escape(text)] of [apply_gemini_corrections.py] *)
Definition escape (text : Document) : str :=
  if is_none text then [] else html_escape (py_str text).

End Escape.

(** The entity that stands for a character in HTML text and attribute
    values, the character itself when it needs none. *)
Definition entity (c : char) : str :=
  if (c =? 38)%N then u "&amp;"
  else if (c =? 60)%N then u "&lt;"
  else if (c =? 62)%N then u "&gt;"
  else if (c =? 34)%N then u "&quot;"
  else if (c =? 39)%N then u "&#x27;"
  else [c].

(** A character that cannot open or close a tag or an attribute value. *)
Definition harmless (c : char) : bool :=
  negb ((c =? 60) || (c =? 62) || (c =? 34) || (c =? 39))%N.

(** ** Vocabulary of the retry loops *)

(** What ends the retry loop of [retry_failed.process_page]: an answer in
    which the robust parser finds a document that is true as a Python
    value. *)
Definition settles (r : Response) : bool :=
  match r with
  | Answer content _ => truthy (py_value (Retry.extract_json_robust content).2)
  | _ => false
  end.








(** A service that limits the first request and answers the second. *)
Definition answers_second (attempt : nat) : Response :=
  match attempt with
  | 0 => RateLimited
  | _ => Answer (q "{'a': 1}") []
  end.

(** ** Vocabulary of the re-parse pass and of the brace counter *)

(** What the re-parse loop of [retry_failed.main] makes of the dictionary
    of a page file: a page without a document whose raw response the
    robust parser can read becomes a success with that document. *)
Definition reparsed (d : PageResult) : PageResult :=
  if negb (truthy (parsed_json d)) && nonempty (raw_response d)
  then
    let parsed := py_value (Retry.extract_json_robust (raw_response d)).2 in
    if truthy parsed
    then {| page := page d; book_page := book_page d;
            raw_response := raw_response d; thinking := thinking d;
            parsed_json := parsed; error := error d;
            status := u "success" |}
    else d
  else d.

(** A page file left without a document though its response holds one. *)
Definition page_lost (i : nat) : PageResult :=
  {| page := i; book_page := i + 36; raw_response := q "{'a': 1}"; thinking := [];
     parsed_json := DNull; error := None; status := u "json_parse_failed" |}.

(** A text without braces. *)
Definition brace_free (s : str) : bool :=
  forallb (fun c => negb ((c =? 123) || (c =? 125))%N) s.

(** A document whose strings and keys hold no brace. *)
Fixpoint braces_only_in_structure (d : Document) : bool :=
  match d with
  | DStr s => brace_free s
  | DFloat x => brace_free x
  | DSeq items => forallb braces_only_in_structure items
  | DMap entries =>
      forallb (fun kv => brace_free kv.1 && braces_only_in_structure kv.2) entries
  | _ => true
  end.

(** A text the brace counter goes through without stopping, and leaves at
    the depth it entered it with. *)
Definition balanced (s : str) : Prop :=
  forall depth seen rest,
    (0 < depth)%Z ->
    Retry.scan_depth depth seen (s ++ rest) = Retry.scan_depth depth (seen ++ s) rest.

(** ** The answer of the QA model, in [gemini_qa.py] *)

Module GeminiQa.

(** The recovery written out in [verify_page], under [# Parse JSON]: the
    value [parsed_qa] has when the block is left, [DNull] being the [None]
    it starts with.  Its fourth step is the block of [extract_json_robust]
    that looks for the outermost braces, with [pass] and [break] where
    that one has [break]. *)
Definition parsed_qa (content : str) : Document :=
  let text_to_parse :=
    match re_search fence_re content with
    | Some g => strip (backref1 g)
    | None => content
    end in
  match json_loads text_to_parse with
  | Ok d => d
  | Err _ =>
      let fixed := re_sub trailing_comma_re backref1 text_to_parse in
      match json_loads fixed with
      | Ok d => d
      | Err _ => py_value (Retry.outermost_braces text_to_parse)
      end
  end.

End GeminiQa.

(** What [extract_json_robust] gives when its last resort is taken out:
    [DNull], the [None] of Python, for a text only the truncation repair
    can read. *)
Definition without_last_resort (r : list Stage * option Document) : Document :=
  if existsb (fun stage => match stage with TruncationRepair => true | _ => false end) r.1
  then DNull
  else py_value r.2.

(** ** Vocabulary of the trailing-comma repair *)

(** A text without commas. *)
Definition comma_free (s : str) : bool := forallb (fun c => negb (c =? 44)%N) s.

(** A document whose strings and keys hold no comma. *)
Fixpoint commas_only_in_structure (d : Document) : bool :=
  match d with
  | DStr s => comma_free s
  | DFloat x => comma_free x
  | DSeq items => forallb commas_only_in_structure items
  | DMap entries =>
      forallb (fun kv => comma_free kv.1 && commas_only_in_structure kv.2) entries
  | _ => true
  end.

(** The serialization of a list or dictionary that is not empty, with a
    comma after its last item; the serialization itself for any other
    document. *)
Definition with_trailing_comma (indent : option nat) (d : Document) : str :=
  match d with
  | DSeq ((_ :: _) as items) =>
      u "[" ++ newline_indent indent 1
        ++ join (item_separator indent ++ newline_indent indent 1)
                (List.map (encode indent 1) items)
        ++ u "," ++ newline_indent indent 0 ++ u "]"
  | DMap ((_ :: _) as entries) =>
      u "{" ++ newline_indent indent 1
        ++ join (item_separator indent ++ newline_indent indent 1)
                (List.map (fun kv => encode_basestring kv.1 ++ u ": "
                                       ++ encode indent 1 kv.2) entries)
        ++ u "," ++ newline_indent indent 0 ++ u "}"
  | _ => json_dumps indent d
  end.

(** A text in which the trailing-comma pattern finds nothing, whatever
    follows it. *)
Definition comma_safe (s : str) : Prop :=
  forall t, sub_from trailing_comma_re backref1 0 (s ++ t)
            = s ++ sub_from trailing_comma_re backref1 0 t.

(** A character a value or a key can start with: neither white space nor a
    closing bracket. *)
Definition opens_item (s : str) : Prop :=
  match s with
  | c :: _ => isspace c = false /\ is_closer c = false
  | [] => False
  end.

(** A dictionary with two entries, for the examples. *)
Definition doc_two_items : Document :=
  DMap [(u "a", DSeq [DNum 1; DNum 2]); (u "b", DStr (u "x"))].

(** A list or a dictionary that is not empty. *)
Definition has_items (d : Document) : bool :=
  match d with
  | DSeq (_ :: _) | DMap (_ :: _) => true
  | _ => false
  end.

(** A model that never answers with JSON. *)
Definition answers_prose (page_num attempt : nat) : Response :=
  Answer (u "no JSON here") [].

(** ** The text of a model response *)

(** The value of a key among the entries of a dictionary (its keys are
    distinct). *)
Fixpoint dict_get (entries : list (str * Document)) (key : str) : option Document :=
  match entries with
  | [] => None
  | (k, v) :: rest => if str_eqb k key then Some v else dict_get rest key
  end.

(** [d.get(key, default)]: only a dictionary has the method. *)
Definition py_get (d : Document) (key : str) (default_ : Document) : outcome Document :=
  match d with
  | DMap entries => Return (default default_ (dict_get entries key))
  | _ => Raise (u "AttributeError")
  end.

(** [choices[0]]: the first item of a list, the first character of a
    string; a dictionary has no key [0], and nothing else has items. *)
Definition first_item (choices : Document) : outcome Document :=
  match choices with
  | DSeq (x :: _) => Return x
  | DStr (c :: _) => Return (DStr [c])
  | DSeq [] | DStr [] => Raise (u "IndexError")
  | DMap _ => Raise (u "KeyError")
  | _ => Raise (u "TypeError")
  end.

(** [content += v], [content] being a string: only a string can be added. *)
Definition add_text (content : str) (v : Document) : outcome str :=
  match v with
  | DStr s => Return (content ++ s)
  | _ => Raise (u "TypeError")
  end.

(** A [for] loop over the blocks of a message, left at the first
    exception. *)
Fixpoint for_blocks {S} (body : S -> Document -> outcome S) (st : S)
    (blocks : list Document) : outcome S :=
  match blocks with
  | [] => Return st
  | block :: rest =>
      match body st block with
      | Return st' => for_blocks body st' rest
      | Raise e => Raise e
      end
  end.

(** The lines the three scripts share, from [choices = data.get("choices",
    [])] to [msg.get("content", "")]: the content of the message of the
    first choice, [None] when [choices] is false. *)
Definition find_content (data : Document) : outcome (option Document) :=
  match py_get data (u "choices") (DSeq []) with
  | Raise e => Raise e
  | Return choices =>
      if truthy choices then
        match first_item choices with
        | Raise e => Raise e
        | Return choice =>
            match py_get choice (u "message") (DMap []) with
            | Raise e => Raise e
            | Return msg_ =>
                match py_get msg_ (u "content") (DStr []) with
                | Raise e => Raise e
                | Return msg_content => Return (Some msg_content)
                end
            end
        end
      else Return None
  end.

(** The two branches on the type of the content: [start] is the state
    before them, [whole] what a content that is a string makes of it,
    [body] the body of the loop over a content that is a list. *)
Definition read_message {S} (start : S) (whole : str -> S)
    (body : S -> Document -> outcome S) (data : Document) : outcome S :=
  match find_content data with
  | Raise e => Raise e
  | Return None => Return start
  | Return (Some (DStr s)) => Return (whole s)
  | Return (Some (DSeq blocks)) => for_blocks body start blocks
  | Return (Some _) => Return start
  end.

Module Message.

(** The body of the loop in [call_gemini] of [extract.py], on the state
    [(content, thinking)]. *)
Definition extract_block (st : str * Document) (block : Document)
    : outcome (str * Document) :=
  let '(content, thinking_) := st in
  match block with
  | DMap entries =>
      let type_ := default DNull (dict_get entries (u "type")) in
      if eq_str type_ (u "thinking")
      then Return (content, default (DStr []) (dict_get entries (u "thinking")))
      else if eq_str type_ (u "text")
      then
        match add_text content (default (DStr []) (dict_get entries (u "text"))) with
        | Return content' => Return (content', thinking_)
        | Raise e => Raise e
        end
      else Return st
  | DStr s => Return (content ++ s, thinking_)
  | _ => Return st
  end.

(** The body of the loop in [process_page] of [retry_failed.py]. *)
Definition retry_block (st : str * Document) (block : Document)
    : outcome (str * Document) :=
  let '(content, thinking_) := st in
  match block with
  | DMap entries =>
      let type_ := default DNull (dict_get entries (u "type")) in
      if eq_str type_ (u "thinking")
      then Return (content, default (DStr []) (dict_get entries (u "thinking")))
      else if eq_str type_ (u "text")
      then
        match add_text content (default (DStr []) (dict_get entries (u "text"))) with
        | Return content' => Return (content', thinking_)
        | Raise e => Raise e
        end
      else Return st
  | _ => Return st
  end.

(** The body of the loop in [verify_page] of [gemini_qa.py], on the state
    [content]. *)
Definition qa_block (content : str) (block : Document) : outcome str :=
  match block with
  | DMap entries =>
      if eq_str (default DNull (dict_get entries (u "type"))) (u "text")
      then add_text content (default (DStr []) (dict_get entries (u "text")))
      else Return content
  | _ => Return content
  end.

(** What the three scripts read from the body [data] of a response:
    [(content, thinking)] in [extract.py] and [retry_failed.py], [content]
    in [gemini_qa.py], or the exception the [try] block catches. *)
Definition extract (data : Document) : outcome (str * Document) :=
  read_message ([], DStr []) (fun s => (s, DStr [])) extract_block data.

Definition retry (data : Document) : outcome (str * Document) :=
  read_message ([], DStr []) (fun s => (s, DStr [])) retry_block data.

Definition qa (data : Document) : outcome str :=
  read_message [] (fun s => s) qa_block data.

End Message.

(** The blocks of a response whose message content is a list. *)
Definition blocks_of (data : Document) : list Document :=
  match find_content data with
  | Return (Some (DSeq blocks)) => blocks
  | _ => []
  end.

(** A block that is a string by itself. *)
Definition is_bare (block : Document) : bool :=
  match block with DStr _ => true | _ => false end.

(** What a block gives to the content: the text of a block of type "text",
    and the block itself when it is a bare string and [bare] is set. *)
Definition block_text (bare : bool) (block : Document) : str :=
  match block with
  | DMap entries =>
      if eq_str (default DNull (dict_get entries (u "type"))) (u "text")
      then match dict_get entries (u "text") with
           | Some (DStr s) => s
           | _ => []
           end
      else []
  | DStr s => if bare then s else []
  | _ => []
  end.

(** The content a response denotes. *)
Definition content_of (bare : bool) (data : Document) : str :=
  match find_content data with
  | Return (Some (DStr s)) => s
  | Return (Some (DSeq blocks)) => List.concat (List.map (block_text bare) blocks)
  | _ => []
  end.

(** The body of a response with a thinking block, a text block, a bare
    string and a second text block. *)
Definition response_blocks : Document :=
  DMap [(u "id", DStr (u "gen-1"));
        (u "choices",
         DSeq [DMap [(u "message",
                      DMap [(u "role", DStr (u "assistant"));
                            (u "content",
                             DSeq [DMap [(u "type", DStr (u "thinking"));
                                         (u "thinking", DStr (u "hmm"))];
                                   DMap [(u "type", DStr (u "text"));
                                         (u "text", DStr (q "{'a': "))];
                                   DStr (u "?");
                                   DMap [(u "type", DStr (u "text"));
                                         (u "text", DStr (u "1}"))]])])]])].

(** ** The QA pass of [gemini_qa.py] *)

Module Verify.

(** The dictionary [verify_page] returns for a page, without the text of
    the error.  The dictionary of a failure has no [raw_response] and no
    [parsed_qa]: they are empty and [DNull] here. *)
Record Result := {
  page : nat;
  book_page : nat;
  raw_response : str;
  parsed_qa : Document;
  status : str
}.

(** [len(v)]: a string, a list and a dictionary have a length. *)
Definition sized (v : Document) : bool :=
  match v with
  | DStr _ | DSeq _ | DMap _ => true
  | _ => false
  end.

(** The two lines that compute [quality] and [issues] for the progress
    message: what they raise. *)
Definition report (parsed : Document) : outcome unit :=
  if truthy parsed then
    match parsed with
    | DMap entries =>
        if sized (default (DSeq []) (dict_get entries (u "issues")))
        then Return ()
        else Raise (u "TypeError")
    | _ => Raise (u "AttributeError")
    end
  else Return ().

(** The [try] block once the content of the answer is known: the
    dictionary returned, or the exception raised on the way, by the write
    of the page file or by the progress message.  What the page file holds
    is not modelled. *)
Definition answered (page_num : nat) (content : str) : outcome Result :=
  let parsed := GeminiQa.parsed_qa content in
  let result :=
    {| page := page_num; book_page := page_num + 36; raw_response := content;
       parsed_qa := parsed;
       status := if truthy parsed then u "success" else u "parse_failed" |} in
  if storable (DStr content) && storable parsed
  then
    match report parsed with
    | Return _ => Return result
    | Raise e => Raise e
    end
  else Raise (u "UnicodeEncodeError").

(** The dictionary of the [except] branch on the last attempt. *)
Definition failed (page_num : nat) : Result :=
  {| page := page_num; book_page := page_num + 36; raw_response := [];
     parsed_qa := DNull; status := u "failed" |}.

(** The loop [for attempt in range(3)] of [verify_page], [attempts] being
    the attempts left: what the function returns ([None] when control falls
    off the end of the loop) and the requests and sleeps made. *)
Fixpoint verify_loop (page_num : nat) (respond : nat -> Response) (attempts : list nat)
    : option Result * list Effect :=
  match attempts with
  | [] => (None, [])
  | attempt :: rest =>
      let on_exception :=
        if attempt <? 2
        then
          let '(r, effects) := verify_loop page_num respond rest in
          (r, Post attempt :: Sleep 3 :: effects)
        else (Some (failed page_num), [Post attempt]) in
      match respond attempt with
      | RateLimited =>
          let '(r, effects) := verify_loop page_num respond rest in
          (r, Post attempt :: Sleep (5 * (attempt + 1)) :: effects)
      | Failure _ => on_exception
      | Answer content _ =>
          match answered page_num content with
          | Return result => (Some result, [Post attempt])
          | Raise _ => on_exception
          end
      end
  end.

(** [verify_page(page_num)]: [loaded] tells whether reading the image and
    the OCR file of the page raises. *)
Definition verify_page (loaded : nat -> outcome unit) (respond : nat -> nat -> Response)
    (page_num : nat) : outcome (option Result) :=
  match loaded page_num with
  | Raise e => Raise e
  | Return _ => Return (verify_loop page_num (respond page_num) (seq 0 3)).1
  end.

(** The loop over [as_completed(futures)] of [main]: [future.result()]
    raises again what the page raised. *)
Fixpoint gather (run : nat -> outcome (option Result)) (completed : list nat)
    (results : list (option Result)) : outcome (list (option Result)) :=
  match completed with
  | [] => Return results
  | page_num :: rest =>
      match run page_num with
      | Return result => gather run rest (results ++ [result])
      | Raise e => Raise e
      end
  end.

(** The keys [results.sort(key=lambda x: x["page"])] computes: [None] has
    no item. *)
Fixpoint subscripted (results : list (option Result)) : option (list Result) :=
  match results with
  | [] => Some []
  | None :: _ => None
  | Some r :: rest =>
      match subscripted rest with
      | Some l => Some (r :: l)
      | None => None
      end
  end.

(** [main()]: the list it writes to [gemini_qa_all.json] and the number of
    pages it reports as verified, or the exception it raises;
    [completed] lists the pages in the order [as_completed] yields them. *)
Definition main (loaded : nat -> outcome unit) (respond : nat -> nat -> Response)
    (completed : list nat) : outcome (list Result * nat) :=
  match gather (verify_page loaded respond) completed [] with
  | Raise e => Raise e
  | Return results =>
      match subscripted results with
      | None => Raise (u "TypeError")
      | Some results =>
          let results := sort_by page results in
          Return (results,
                  sum_list_with (fun r => if truthy (parsed_qa r) then 1 else 0) results)
      end
  end.

End Verify.

(** An attempt after which [verify_page] returns. *)
Definition verified (page_num : nat) (r : Response) : bool :=
  match r with
  | Answer content _ =>
      match Verify.answered page_num content with
      | Return _ => true
      | Raise _ => false
      end
  | _ => false
  end.

(** A model that answers with a list, and one that answers the first two
    requests with prose and limits the third. *)
Definition answers_list (attempt : nat) : Response := Answer (u "[1, 2]") [].

Definition limits_third (page_num attempt : nat) : Response :=
  match attempt with
  | 2 => RateLimited
  | _ => Failure (u "timeout")
  end.

(** * Properties *)

(** ** Strings *)

Lemma truthy_field_default f : truthy_field f = nonempty (get_default f []).
Proof. by destruct f as [ [ | ] | ]. Qed.

(** ** The mergers keep the tree *)

Lemma same_shape_refl d : same_shape d d.
Proof.
  induction d using Document_induction; constructor.
  - induction H; constructor; auto.
  - induction H; constructor; auto.
Qed.

Lemma same_shape_trans d1 d2 d3 :
  same_shape d1 d2 -> same_shape d2 d3 -> same_shape d1 d3.
Proof.
  revert d2 d3. induction d1 as [ | | | | | items IH | entries IH ] using Document_induction;
    intros d2 d3 Hab Hbc; inversion Hab; subst; inversion Hbc; subst; constructor.
  - clear Hab Hbc.
    match goal with
    | H1 : Forall2 _ items ?l1, H2 : Forall2 _ ?l1 ?l2 |- _ =>
        revert l2 H2; induction H1 as [ | x y l l' Hxy Hl IHl ]; intros l2 H2;
        inversion H2; subst; constructor
    end.
    + inversion IH; subst. eauto.
    + inversion IH; subst. eauto.
  - clear Hab Hbc.
    match goal with
    | H1 : Forall2 _ entries ?l1, H2 : Forall2 _ ?l1 ?l2 |- _ =>
        revert l2 H2; induction H1 as [ | x y l l' [Hk Hxy] Hl IHl ]; intros l2 H2;
        inversion H2 as [ | ? z ? ? [Hk' Hyz] ]; subst; constructor
    end.
    + inversion IH; subst. split; [ congruence | eauto ].
    + inversion IH; subst. eauto.
Qed.

Section Loops.
Variable body : Document -> Document * nat.

Lemma for_item_shape items :
  Forall (fun v => same_shape v (body v).1) items ->
  Forall2 same_shape items (for_item body items).1.
Proof.
  induction 1 as [ | v l Hv _ IH ]; simpl; [ constructor | ].
  destruct (body v) as [v' n]. destruct (for_item body l) as [l' m].
  simpl in *. constructor; assumption.
Qed.

Lemma for_key_shape entries :
  Forall (fun kv => same_shape kv.2 (body kv.2).1) entries ->
  Forall2 (fun kv kv' => kv.1 = kv'.1 /\ same_shape kv.2 kv'.2)
          entries (for_key body entries).1.
Proof.
  induction 1 as [ | [k v] l Hv _ IH ]; simpl in *; [ constructor | ].
  destruct (body v) as [v' n]. destruct (for_key body l) as [l' m].
  simpl in *. constructor; [ split; [ reflexivity | assumption ] | assumption ].
Qed.

End Loops.

Lemma claude_visit_shape walk o c v :
  same_shape v (walk v).1 -> same_shape v (Claude.visit walk o c v).1.
Proof.
  intros Hw. destruct v; simpl; try apply same_shape_refl; try exact Hw.
  destruct (py_in o s); constructor.
Qed.

Lemma gemini_visit_shape walk o c v :
  same_shape v (walk v).1 -> same_shape v (Gemini.visit walk o c v).1.
Proof.
  intros Hw. destruct v; simpl; try apply same_shape_refl; try exact Hw.
  destruct (py_in o s); constructor.
Qed.

Lemma claude_walk_shape obj o c :
  same_shape obj (Claude.apply_text_replacement_recursive obj o c).1.
Proof.
  induction obj as [ | | | | | items IH | entries IH ] using Document_induction;
    try apply same_shape_refl.
  - simpl.
    pose proof (for_item_shape
      (Claude.visit (fun w => Claude.apply_text_replacement_recursive w o c) o c) items) as H.
    destruct (for_item _ items) as [items' n]. constructor. apply H.
    eapply Forall_impl; [ exact IH | ]. intros v Hv. by apply claude_visit_shape.
  - simpl.
    pose proof (for_key_shape
      (Claude.visit (fun w => Claude.apply_text_replacement_recursive w o c) o c) entries) as H.
    destruct (for_key _ entries) as [entries' n]. constructor. apply H.
    eapply Forall_impl; [ exact IH | ]. intros v Hv. by apply claude_visit_shape.
Qed.

Lemma gemini_walk_shape obj o c :
  same_shape obj (Gemini._replace_in_obj obj o c).1.
Proof.
  induction obj as [ | | | | | items IH | entries IH ] using Document_induction;
    try apply same_shape_refl.
  - simpl.
    pose proof (for_item_shape
      (Gemini.visit (fun w => Gemini._replace_in_obj w o c) o c) items) as H.
    destruct (for_item _ items) as [items' n]. constructor. apply H.
    eapply Forall_impl; [ exact IH | ]. intros v Hv. by apply gemini_visit_shape.
  - simpl.
    pose proof (for_key_shape
      (Gemini.visit (fun w => Gemini._replace_in_obj w o c) o c) entries) as H.
    destruct (for_key _ entries) as [entries' n]. constructor. apply H.
    eapply Forall_impl; [ exact IH | ]. intros v Hv. by apply gemini_visit_shape.
Qed.

Lemma claude_issue_shape st issue :
  same_shape st.1.1 (Claude.apply_issue st issue).1.1.
Proof.
  destruct st as [[parsed had] applied]. unfold Claude.apply_issue.
  destruct (_ && _); [ | apply same_shape_refl ].
  pose proof (claude_walk_shape parsed (get_default (original_text issue) [])
                (get_default (corrected_text issue) [])) as H.
  destruct (Claude.apply_text_replacement_recursive _ _ _) as [parsed' count].
  by destruct (0 <? count).
Qed.

Lemma claude_issues_shape l st :
  same_shape st.1.1 (Claude.apply_issues st l).1.1.
Proof.
  revert st. induction l as [ | issue l IH ]; intros st; [ apply same_shape_refl | ].
  eapply same_shape_trans; [ apply (claude_issue_shape st issue) | apply IH ].
Qed.

Lemma gemini_issue_shape st issue :
  same_shape st.1 (Gemini.apply_issue st issue).1.
Proof.
  destruct st as [result applied]. unfold Gemini.apply_issue.
  destruct (_ || _); [ apply same_shape_refl | ].
  pose proof (gemini_walk_shape result (get_default (original_text issue) [])
                (get_default (corrected_text issue) [])) as H.
  destruct (Gemini._replace_in_obj _ _ _) as [result' count].
  by destruct (0 <? count).
Qed.

Lemma gemini_issues_shape l st :
  same_shape st.1 (fold_left Gemini.apply_issue l st).1.
Proof.
  revert st. induction l as [ | issue l IH ]; intros st; [ apply same_shape_refl | ].
  eapply same_shape_trans; [ apply (gemini_issue_shape st issue) | apply IH ].
Qed.

(** C1. Fragment-mode merge keeps the tree of the base document at every
    depth, for every base document and every list of directives: each of the
    two recursive walkers, and each of the two issue loops built on them,
    returns a document with the same keys in every mapping, the same length
    of every sequence and the same non-string leaves; only the text of
    string leaves can differ. *)
Theorem fragment_merge_keeps_tree (base : Document) (issues : list Issue) :
  (forall original corrected,
     same_shape base (Claude.apply_text_replacement_recursive base original corrected).1
     /\ same_shape base (Gemini._replace_in_obj base original corrected).1)
  /\ (forall had applied,
        same_shape base (Claude.apply_issues (base, had, applied) issues).1.1)
  /\ same_shape base (Gemini.apply_text_corrections base issues).1.
Proof.
  split; [ | split ].
  - intros o c. split; [ apply claude_walk_shape | apply gemini_walk_shape ].
  - intros had applied. apply (claude_issues_shape issues (base, had, applied)).
  - apply (gemini_issues_shape issues (base, [])).
Qed.

(** ** Keys are out of reach of a replacement *)

Lemma same_shape_keys d d' : same_shape d d' -> keys d = keys d'.
Proof.
  destruct 1 as [ | | | | | | entries entries' H ]; try reflexivity.
  simpl. f_equal. induction H as [ | kv kv' l l' [Hk _] _ IH ]; [ reflexivity | ].
  rewrite !fmap_cons. by f_equal.
Qed.

Lemma same_shape_child d d' i :
  same_shape d d' -> option_Forall2 same_shape (child d i) (child d' i).
Proof.
  destruct 1 as [ | | | | | items items' H | entries entries' H ];
    simpl; try constructor.
  - by apply Forall2_lookup.
  - pose proof (proj1 (Forall2_lookup _ _ _) H i) as Hi.
    destruct Hi as [ kv kv' [_ Hs] | ]; simpl; constructor. exact Hs.
Qed.

Lemma same_shape_keys_at p : forall d d', same_shape d d' -> keys_at p d = keys_at p d'.
Proof.
  unfold keys_at. induction p as [ | i p IH ]; intros d d' H; simpl.
  - by apply same_shape_keys.
  - destruct (same_shape_child d d' i H) as [ c c' Hc | ]; simpl; [ | reflexivity ].
    by apply IH.
Qed.

(** C10. A replacement never reaches a mapping key: at every path of the
    base document, the mapping found there has, after either walker and
    after either issue loop, the very same list of keys, whatever the
    directive's text is (also when a key contains it). *)
Theorem keys_untouched (base : Document) (issues : list Issue) (p : list nat) :
  (forall original corrected,
     keys_at p (Claude.apply_text_replacement_recursive base original corrected).1
       = keys_at p base
     /\ keys_at p (Gemini._replace_in_obj base original corrected).1 = keys_at p base)
  /\ (forall had applied,
        keys_at p (Claude.apply_issues (base, had, applied) issues).1.1 = keys_at p base)
  /\ keys_at p (Gemini.apply_text_corrections base issues).1 = keys_at p base.
Proof.
  split; [ | split ].
  - intros o c. split; symmetry; apply same_shape_keys_at;
      [ apply claude_walk_shape | apply gemini_walk_shape ].
  - intros had applied. symmetry. apply same_shape_keys_at.
    apply (claude_issues_shape issues (base, had, applied)).
  - symmetry. apply same_shape_keys_at. apply (gemini_issues_shape issues (base, [])).
Qed.

(** A key that contains the directive's text stays as it is, while the value
    under it is rewritten. *)
Example key_with_original_text :
  Claude.apply_text_replacement_recursive
    (DMap [(u "cat", DStr (u "the cat sat"))]) (u "cat") (u "dog")
  = (DMap [(u "cat", DStr (u "the dog sat"))], 1)
  /\ Gemini._replace_in_obj
       (DMap [(u "cat", DSeq [DStr (u "cat"); DNum 7])]) (u "cat") (u "dog")
     = (DMap [(u "cat", DSeq [DStr (u "dog"); DNum 7])], 1).
Proof. split; reflexivity. Qed.

(** ** Degenerate directives *)

Lemma claude_degenerate_step st issue :
  degenerate issue -> Claude.apply_issue st issue = st.
Proof.
  intros Hd. destruct st as [[parsed had] applied]. unfold Claude.apply_issue.
  rewrite <- !truthy_field_default.
  destruct Hd as [ -> | [ -> | He ] ]; [ reflexivity | by rewrite andb_false_r | ].
  rewrite He. unfold str_eqb. rewrite bool_decide_eq_true_2 by reflexivity.
  by rewrite andb_false_r.
Qed.

Lemma gemini_degenerate_step st issue :
  degenerate issue -> Gemini.apply_issue st issue = st.
Proof.
  intros Hd. destruct st as [result applied]. unfold Gemini.apply_issue.
  destruct Hd as [ -> | [ -> | He ] ]; [ reflexivity | by rewrite orb_true_r | ].
  rewrite bool_decide_eq_true_2 by exact He. by rewrite orb_true_r.
Qed.

(** C8. A directive whose original or corrected text is missing or empty, or
    whose two texts are equal, is passed over by both mergers: the iteration
    that meets it leaves the working document, the flag and the change log
    exactly as they were, and the whole merge gives the result it gives
    without that directive, wherever it stands in the list.  The loops are
    total functions: there is no error to raise. *)
Theorem degenerate_directive_is_skipped
    (issue : Issue) (before after : list Issue) (base : Document) :
  degenerate issue ->
  (forall st, Claude.apply_issue st issue = st)
  /\ (forall st, Gemini.apply_issue st issue = st)
  /\ (forall had applied,
        Claude.apply_issues (base, had, applied) (before ++ issue :: after)
        = Claude.apply_issues (base, had, applied) (before ++ after))
  /\ Gemini.apply_text_corrections base (before ++ issue :: after)
     = Gemini.apply_text_corrections base (before ++ after).
Proof.
  intros Hd. split; [ | split; [ | split ] ].
  - intros st. by apply claude_degenerate_step.
  - intros st. by apply gemini_degenerate_step.
  - intros had applied. unfold Claude.apply_issues.
    rewrite !fold_left_app. simpl. by rewrite claude_degenerate_step.
  - unfold Gemini.apply_text_corrections.
    rewrite !fold_left_app. simpl. by rewrite gemini_degenerate_step.
Qed.

Lemma degenerate_directive_is_skipped_witness :
  degenerate issue_without_correction
  /\ Gemini.apply_text_corrections page_cat ([] ++ issue_without_correction :: [issue_cat_dog])
     = Gemini.apply_text_corrections page_cat ([] ++ [issue_cat_dog]).
Proof.
  assert (Hd : degenerate issue_without_correction) by (right; left; reflexivity).
  split; [ exact Hd | ].
  exact (proj2 (proj2 (proj2
           (degenerate_directive_is_skipped
              issue_without_correction [] [issue_cat_dog] page_cat Hd)))).
Defined.

(** The fragment example of the specification: one change record, one
    replacement. *)
Example fragment_substitution :
  Gemini.apply_text_corrections page_cat [issue_cat_dog]
  = (DMap [(u "text", DStr (u "the dog sat"))], [Gemini.Counted (u "cat") (u "dog") 1])
  /\ Claude.apply_issues (page_cat, false, []) [issue_cat_dog]
     = (DMap [(u "text", DStr (u "the dog sat"))], true,
        [Claude.Applied (u "wrong_text") (u "minor") [] (u "cat") (u "dog") 1]).
Proof. split; reflexivity. Qed.

(** ** Full replacement *)

(** C5, as the code has it.  When the QA input carries a replacement document
    that passes the merger's own test (Claude: it is not [None] and not the
    string "null"; Gemini: it is true as a Python value, and the page has a
    parsed document), the saved document is that replacement exactly and no
    directive is applied to it, whatever the directives are.  Claude logs the
    single marker "Full corrected_json replacement"; Gemini reports the method
    "corrected_json" and lists one original/corrected pair for every directive
    that has both texts. *)
Theorem full_replacement_past_the_gate
    (page_num : nat) (ocr_data : Claude.OcrData) (qa_data : Claude.QaData)
    (parsed_json : Document) (parsed_qa : Gemini.ParsedQa) :
  (is_none (Claude.corrected_json qa_data) = false ->
   eq_str (Claude.corrected_json qa_data) (u "null") = false ->
   let out := Claude.process_page page_num ocr_data (Some qa_data) in
   out.1 = Claude.corrected_json qa_data
   /\ Claude.had_corrections out.2 = true
   /\ Claude.corrections_applied out.2
      = [Claude.Marker (u "Full corrected_json replacement")])
  /\ (is_none parsed_json = false ->
      truthy (Gemini.corrected_json parsed_qa) = true ->
      let out := Gemini.process_page page_num parsed_json (Some parsed_qa) in
      out.1 = Gemini.corrected_json parsed_qa
      /\ Gemini.modified out.2 = true
      /\ Gemini.method out.2 = u "corrected_json"
      /\ Gemini.corrections out.2
         = List.map (fun iss => Gemini.Listed (get_default (original_text iss) [])
                                              (get_default (corrected_text iss) []))
             (List.filter (fun iss => truthy_field (original_text iss)
                                      && truthy_field (corrected_text iss))
                          (Gemini.issues parsed_qa))).
Proof.
  split.
  - intros Hnone Hnull. unfold Claude.process_page. rewrite Hnone, Hnull. simpl. auto.
  - intros Hnone Htrue. unfold Gemini.process_page. rewrite Hnone, Htrue. simpl. auto.
Qed.

Lemma full_replacement_past_the_gate_witness :
  (Claude.process_page 1 {| Claude.parsed_json := Some page_cat; Claude.book_page := DNum 37 |}
     (Some {| Claude.overall_quality := None; Claude.summary := None;
              Claude.issues := [issue_cat_dog];
              Claude.corrected_json := replacement_dog |})).1 = replacement_dog
  /\ (Gemini.process_page 1 page_cat
        (Some {| Gemini.overall_quality := None; Gemini.summary := None;
                 Gemini.issues := [issue_cat_dog];
                 Gemini.corrected_json := replacement_dog |})).1 = replacement_dog.
Proof.
  pose proof (full_replacement_past_the_gate 1
    {| Claude.parsed_json := Some page_cat; Claude.book_page := DNum 37 |}
    {| Claude.overall_quality := None; Claude.summary := None;
       Claude.issues := [issue_cat_dog]; Claude.corrected_json := replacement_dog |}
    page_cat
    {| Gemini.overall_quality := None; Gemini.summary := None;
       Gemini.issues := [issue_cat_dog]; Gemini.corrected_json := replacement_dog |})
    as [Hc Hg].
  split.
  - exact (proj1 (Hc eq_refl eq_refl)).
  - exact (proj1 (Hg eq_refl eq_refl)).
Defined.

(** C5 as stated fails in three ways: with a replacement document and one
    directive, Gemini's log is the directive's pair and not a full-replacement
    record; an empty replacement document does not pass Gemini's test, so the
    directives are applied to the base instead; and Claude takes the string
    "null" for no replacement at all. *)
Lemma full_replacement_counterexample :
  Gemini.corrections
    (Gemini.process_page 1 page_cat
       (Some {| Gemini.overall_quality := None; Gemini.summary := None;
                Gemini.issues := [issue_cat_dog];
                Gemini.corrected_json := replacement_dog |})).2
  = [Gemini.Listed (u "cat") (u "dog")]
  /\ (Gemini.process_page 1 page_cat
        (Some {| Gemini.overall_quality := None; Gemini.summary := None;
                 Gemini.issues := [issue_cat_dog];
                 Gemini.corrected_json := DMap [] |})).1
     = DMap [(u "text", DStr (u "the dog sat"))]
  /\ (Claude.process_page 1 {| Claude.parsed_json := Some page_cat; Claude.book_page := DNum 37 |}
        (Some {| Claude.overall_quality := None; Claude.summary := None;
                 Claude.issues := [issue_cat_dog];
                 Claude.corrected_json := DStr (u "null") |})).1
     = DMap [(u "text", DStr (u "the dog sat"))].
Proof. repeat split; reflexivity. Qed.

(** ** The order of the recovery stages *)

(** What [first_success] does: the stages tried are an initial segment of the
    list; all of them but the last failed; the result is what the last one
    tried gave; and if the list was not exhausted, the last one succeeded. *)
Lemma first_success_stops_at_first attempt stages text :
  stages = [] /\ first_success attempt stages text = ([], None)
  \/ exists n stage,
       stages !! n = Some stage
       /\ (first_success attempt stages text).1 = take (S n) stages
       /\ (forall i earlier, i < n -> stages !! i = Some earlier ->
             attempt earlier text = None)
       /\ (first_success attempt stages text).2 = attempt stage text
       /\ (S n < length stages -> is_Some (attempt stage text)).
Proof.
  induction stages as [ | stage rest IH ]; [ by left | right ].
  simpl. destruct (attempt stage text) as [ d | ] eqn:Hs.
  - exists 0, stage. simpl. rewrite Hs. repeat split; eauto; intros; lia.
  - destruct IH as [ [-> Hnil] | (n & st & Hn & Htr & Hfail & Hres & Hlast) ].
    + exists 0, stage. simpl. rewrite Hs. repeat split; eauto; simpl; intros; lia.
    + exists (S n), st. destruct (first_success attempt rest text) as [tried r].
      simpl in *. repeat split; eauto.
      * by rewrite Htr.
      * intros [ | i ] earlier Hi Hlook; simpl in Hlook.
        -- by inversion Hlook; subst.
        -- eapply Hfail; [ | exact Hlook ]. lia.
      * intros Hlen. apply Hlast. lia.
Qed.

Lemma robust_refines_stages raw :
  Retry.extract_json_robust raw = RetrySpec.recover_by_stages raw.
Proof.
  unfold Retry.extract_json_robust, RetrySpec.recover_by_stages.
  destruct raw as [ | c raw ]; [ reflexivity | ].
  cbn [nonempty negb]. fold (RetrySpec.fence_extraction (c :: raw)).
  generalize (RetrySpec.fence_extraction (c :: raw)). intros text.
  unfold RetrySpec.stages. cbn [first_success RetrySpec.attempt]. unfold parse.
  destruct (json_loads text); [ reflexivity | ].
  destruct (json_loads (re_sub trailing_comma_re backref1 text)); [ reflexivity | ].
  destruct (Retry.outermost_braces text); [ reflexivity | ].
  destruct (startswith (u "{") (strip text)); [ | reflexivity ].
  by destruct (Retry.repair_loop 10 (strip text)).
Qed.

Lemma simple_refines_stages raw :
  Extract.extract_json_from_response raw = ExtractSpec.recover_by_stages raw.
Proof.
  unfold Extract.extract_json_from_response, ExtractSpec.recover_by_stages.
  destruct raw as [ | c raw ]; [ reflexivity | ].
  cbn [nonempty negb]. destruct (Extract.strip_fence (c :: raw)) as [ text | e ];
    [ | reflexivity ].
  unfold ExtractSpec.stages. cbn [first_success ExtractSpec.attempt]. unfold parse.
  destruct (json_loads text); [ reflexivity | ].
  destruct (startswith (u "{") (strip text) || startswith (u "[") (strip text));
    [ | reflexivity ].
  by destruct (json_loads _).
Qed.

(** C2, as the code has it.  [extract_json_robust] is the five-stage recovery:
    after the guard on the empty text it extracts the first fenced block,
    then tries direct parse, trailing-comma repair, balanced-brace
    extraction and truncation repair in this order.
    [extract_json_from_response] has the first three stages only: fence,
    direct parse and its own trailing-comma repair.  In both, a stage is
    tried only if all those before it failed, and the first one to succeed
    gives the result: this is what trying a list of stages in order means. *)
Theorem recovery_stage_order (raw : str) :
  (Retry.extract_json_robust raw = RetrySpec.recover_by_stages raw
   /\ RetrySpec.stages = [Direct; TrailingComma; BalancedBrace; TruncationRepair])
  /\ (Extract.extract_json_from_response raw = ExtractSpec.recover_by_stages raw
      /\ ExtractSpec.stages = [Direct; TrailingComma])
  /\ (forall attempt stages text,
        stages = [] /\ first_success attempt stages text = ([], None)
        \/ exists n stage,
             stages !! n = Some stage
             /\ (first_success attempt stages text).1 = take (S n) stages
             /\ (forall i earlier, i < n -> stages !! i = Some earlier ->
                   attempt earlier text = None)
             /\ (first_success attempt stages text).2 = attempt stage text
             /\ (S n < length stages -> is_Some (attempt stage text))).
Proof.
  split; [ split; [ apply robust_refines_stages | reflexivity ] | ].
  split; [ split; [ apply simple_refines_stages | reflexivity ] | ].
  apply first_success_stops_at_first.
Qed.

(** C2 as stated fails for [extract_json_from_response]: a document followed
    by other text is recovered by the fourth stage of [extract_json_robust],
    a stage the other function does not have. *)
Lemma recovery_stage_order_counterexample :
  Extract.extract_json_from_response (q "{'a': 1} some extra non-json text")
  = ([Fence; Direct; TrailingComma], Return None)
  /\ Retry.extract_json_robust (q "{'a': 1} some extra non-json text")
     = ([Fence; Direct; TrailingComma; BalancedBrace], Some (DMap [(u "a", DNum 1)])).
Proof. split; vm_compute; reflexivity. Qed.

(** ** Text without the characters a stage looks for *)

(** Replace the literals of the goal by the lists they denote. *)
Ltac eval_literals :=
  repeat match goal with
         | |- context [u ?lit] =>
             let v := eval vm_compute in (u lit) in change (u lit) with v
         end.

Lemma startswith_absent c p s :
  Forall (fun x => x <> c) s -> startswith (c :: p) s = false.
Proof.
  destruct 1 as [ | x s Hx _ ]; [ reflexivity | ]. simpl.
  by rewrite (proj2 (N.eqb_neq c x)).
Qed.

Lemma py_find_absent c p s :
  Forall (fun x => x <> c) s -> py_find (c :: p) s = None.
Proof.
  induction 1 as [ | x s Hx Hs IH ].
  - reflexivity.
  - cbn [py_find]. rewrite startswith_absent by (constructor; assumption).
    by rewrite IH.
Qed.

Lemma py_in_absent c p s :
  Forall (fun x => x <> c) s -> py_in (c :: p) s = false.
Proof. intros H. unfold py_in. by rewrite py_find_absent. Qed.

Lemma match_here_absent c p r s :
  Forall (fun x => x <> c) s -> match_here (Seq (Lit (c :: p)) r) s = None.
Proof.
  intros H. unfold match_here. cbn [rmatch]. by rewrite startswith_absent.
Qed.

Lemma re_search_absent c p r s :
  Forall (fun x => x <> c) s -> re_search (Seq (Lit (c :: p)) r) s = None.
Proof.
  induction 1 as [ | x s Hx Hs IH ].
  - cbn [re_search]. by rewrite match_here_absent.
  - cbn [re_search]. rewrite match_here_absent by (constructor; assumption).
    exact IH.
Qed.

Lemma re_sub_absent c p r repl s :
  Forall (fun x => x <> c) s -> re_sub (Seq (Lit (c :: p)) r) repl s = s.
Proof.
  unfold re_sub. induction 1 as [ | x s Hx Hs IH ]; [ reflexivity | ].
  cbn [sub_from]. rewrite match_here_absent by (constructor; assumption).
  by rewrite IH.
Qed.

(** ** Blank input *)

Lemma isspace_enum c :
  isspace c = true ->
  c ∈ [9; 10; 11; 12; 13; 28; 29; 30; 31; 32; 133; 160; 5760;
       8192; 8193; 8194; 8195; 8196; 8197; 8198; 8199; 8200; 8201; 8202;
       8232; 8233; 8239; 8287; 12288]%N.
Proof.
  unfold isspace.
  rewrite !orb_true_iff, !andb_true_iff, !N.leb_le, !N.eqb_eq.
  intros H. rewrite !elem_of_cons. lia.
Qed.

Lemma blank_absent c s :
  isspace c = false -> blank s -> Forall (fun x => x <> c) s.
Proof.
  intros Hc Hs. eapply Forall_impl; [ exact Hs | ].
  intros x Hx ->. simpl in Hx. congruence.
Qed.

Lemma blank_lstrip s : blank s -> lstrip s = [].
Proof. induction 1 as [ | c s Hc _ IH ]; simpl; [ | rewrite Hc ]; auto. Qed.

Lemma blank_strip s : blank s -> strip s = [].
Proof. intros H. unfold strip. by rewrite (blank_lstrip s H). Qed.

Lemma blank_skip_ws s : blank s -> blank (skip_ws s).
Proof.
  induction 1 as [ | c s Hc Hs IH ]; simpl; [ constructor | ].
  destruct (is_ws c); [ exact IH | by constructor ].
Qed.

Lemma skip_ws_stops s c rest : skip_ws s = c :: rest -> is_ws c = false.
Proof.
  induction s as [ | x s IH ]; simpl; [ discriminate | ].
  destruct (is_ws x) eqn:Hx; [ exact IH | ].
  intros [= -> _]. exact Hx.
Qed.

(** No value starts at a whitespace character that the decoder does not
    skip. *)
Lemma no_value_at_space c rest fuel :
  isspace c = true -> is_ws c = false -> scan_once (S fuel) (c :: rest) = Ok None.
Proof.
  intros Hc Hw. apply isspace_enum in Hc.
  repeat (apply elem_of_cons in Hc as [ -> | Hc ];
          [ first [ discriminate Hw | reflexivity ] | ]).
  by apply elem_of_nil in Hc.
Qed.

Lemma json_loads_blank s : blank s -> json_loads s = Err Expecting_value.
Proof.
  intros H. unfold json_loads.
  rewrite (startswith_absent 65279%N [] s) by (by apply blank_absent).
  pose proof (blank_skip_ws s H) as Hb.
  destruct (skip_ws s) as [ | c rest ] eqn:Hs; [ reflexivity | ].
  inversion Hb; subst.
  rewrite no_value_at_space; [ reflexivity | assumption | ].
  by eapply skip_ws_stops.
Qed.

(** C9, as the code has it.  On the empty string both recovery functions
    return at once, before any stage.  On any other string made of
    whitespace only they also end in a failure and never in a document, but
    after every stage they have has been entered and has failed: nothing is
    skipped. *)
Theorem blank_input_fails (s : str) :
  blank s ->
  Retry.extract_json_robust s
  = (match s with
     | [] => []
     | _ :: _ => [Fence; Direct; TrailingComma; BalancedBrace; TruncationRepair]
     end, None)
  /\ Extract.extract_json_from_response s
     = (match s with
        | [] => []
        | _ :: _ => [Fence; Direct; TrailingComma]
        end, Return None).
Proof.
  intros Hs. destruct s as [ | c s ]; [ split; reflexivity | ].
  assert (Hfence : re_search fence_re (c :: s) = None)
    by (by apply re_search_absent, blank_absent).
  assert (Hcomma : re_sub trailing_comma_re backref1 (c :: s) = c :: s)
    by (by apply re_sub_absent, blank_absent).
  split.
  - unfold Retry.extract_json_robust. cbn [nonempty negb].
    rewrite Hfence, Hcomma, (json_loads_blank _ Hs).
    unfold Retry.outermost_braces. eval_literals.
    rewrite py_find_absent by (by apply blank_absent).
    by rewrite (blank_strip _ Hs).
  - unfold Extract.extract_json_from_response, Extract.strip_fence.
    cbn [nonempty negb]. eval_literals.
    rewrite !py_in_absent by (by apply blank_absent).
    rewrite (json_loads_blank _ Hs).
    by rewrite (blank_strip _ Hs).
Qed.

Lemma blank_input_fails_witness :
  blank (u "   ")
  /\ Retry.extract_json_robust (u "   ")
     = ([Fence; Direct; TrailingComma; BalancedBrace; TruncationRepair], None).
Proof.
  assert (Hb : blank (u "   ")) by (repeat constructor).
  split; [ exact Hb | ]. exact (proj1 (blank_input_fails (u "   ") Hb)).
Defined.

(** C9 as stated fails on its second half: for three spaces the stages after
    the fence step are entered, in both functions. *)
Lemma blank_input_counterexample :
  (Retry.extract_json_robust (u "   ")).1
  = [Fence; Direct; TrailingComma; BalancedBrace; TruncationRepair]
  /\ (Extract.extract_json_from_response (u "   ")).1 = [Fence; Direct; TrailingComma].
Proof. split; vm_compute; reflexivity. Qed.

(** ** An opening fence that is never closed *)

(** C4.  [extract_json_from_response] raises on a response that opens a fence
    and is cut before the closing one: [raw.index] finds nothing and its
    [ValueError] is not caught.  [extract_json_robust] returns a failure on
    the same text. *)
Theorem unclosed_fence_raises :
  Extract.extract_json_from_response (q "```json
{'a': 1")
  = ([Fence], Raise (u "ValueError"))
  /\ Extract.extract_json_from_response (u "```") = ([Fence], Raise (u "ValueError"))
  /\ (Retry.extract_json_robust (q "```json
{'a': 1")).2 = None.
Proof. repeat split; vm_compute; reflexivity. Qed.

(** ** The retry loops of the model call *)












(** ** The run summary *)

Section Summary.
Variable respond : nat -> nat -> Response.




End Summary.

Lemma insert_by_page_perm r l : Extract.insert_by_page r l ≡ₚ r :: l.
Proof.
  induction l as [ | x l IH ]; simpl; [ reflexivity | ].
  destruct (page r <=? page x); [ reflexivity | ].
  rewrite IH. apply Permutation_swap.
Qed.

Lemma sort_by_page_perm l : Extract.sort_by_page l ≡ₚ l.
Proof.
  induction l as [ | r l IH ]; simpl; [ reflexivity | ].
  by rewrite insert_by_page_perm, IH.
Qed.

Lemma insert_by_page_sorted r l :
  StronglySorted page_le l -> StronglySorted page_le (Extract.insert_by_page r l).
Proof.
  induction 1 as [ | x l Hl IH Hx ]; simpl.
  - repeat constructor.
  - destruct (page r <=? page x) eqn:Hle.
    + apply Nat.leb_le in Hle. constructor; [ by constructor | ].
      constructor; [ exact Hle | ].
      eapply Forall_impl; [ exact Hx | ]. unfold page_le. intros; lia.
    + apply Nat.leb_gt in Hle. constructor; [ exact IH | ].
      rewrite insert_by_page_perm. constructor; [ unfold page_le; lia | exact Hx ].
Qed.

Lemma sort_by_page_sorted l : StronglySorted page_le (Extract.sort_by_page l).
Proof.
  induction l as [ | r l IH ]; simpl; [ constructor | by apply insert_by_page_sorted ].
Qed.






(** ** The retry pass *)











(** ** A retry pass after a run *)



(** ** The decoder reads back what the encoder writes *)

(** [bool] of the floats [json.loads] makes of these texts. *)
Example float_truth :
  List.map (fun x => truthy (DFloat (u x)))
    ["1.5"; "-0.0"; "0.0"; "0e5"; "0.000"; "1e-400"; "2e-324"; "2.5e-324"; "5e-324";
     "1E400"; "NaN"; "Infinity"; "-Infinity"]%string
  = [true; false; false; false; false; false; false; true; true;
     true; true; true; true].
Proof. vm_compute. reflexivity. Qed.

Example float_lexemes :
  List.map float_lexeme
    [u "1.5"; u "-0.0"; u "1e+16"; u "1.5e-07"; u "2E5"; u "NaN"; u "-Infinity";
     u "1"; u "01.5"; u "1."; u ".5"; u "1e"; u "1e+"; u "-"; u "1.5x"; u "nan";
     u "1.5e5.5"; []]
  = [true; true; true; true; true; true; true;
     false; false; false; false; false; false; false; false; false; false; false].
Proof. vm_compute. reflexivity. Qed.

Lemma span_all p (l rest : list N) :
  Forall (fun c => p c = true) l ->
  match rest with [] => True | c :: _ => p c = false end ->
  span p (l ++ rest) = (l, rest).
Proof.
  intros Hl Hrest. induction Hl as [ | c l Hc _ IH ]; simpl.
  - destruct rest as [ | c rest ]; [ reflexivity | ]. simpl. by rewrite Hrest.
  - by rewrite Hc, IH.
Qed.

Lemma digits_of_uint_digits d : Forall (fun c => is_digit c = true) (digits_of_uint d).
Proof. induction d; simpl; constructor; auto. Qed.

Lemma uint_of_digits_of_uint d : uint_of_digits (digits_of_uint d) = d.
Proof. induction d; simpl; unfold digit_cons; simpl; congruence. Qed.

Lemma stops_digit rest :
  stops rest = true -> match rest with [] => True | c :: _ => is_digit c = false end.
Proof.
  destruct rest as [ | c rest ]; [ done | ]. simpl.
  rewrite negb_true_iff, !orb_false_iff. tauto.
Qed.

Lemma scan_frac_stops rest : stops rest = true -> scan_frac rest = ([], rest).
Proof.
  destruct rest as [ | c rest ]; [ done | ]. simpl.
  rewrite negb_true_iff, !orb_false_iff. intros [[[_ ->] _] _]. reflexivity.
Qed.

Lemma scan_exp_stops rest : stops rest = true -> scan_exp rest = ([], rest).
Proof.
  destruct rest as [ | c rest ]; [ done | ]. simpl.
  rewrite negb_true_iff, !orb_false_iff. intros [[[_ _] ->] ->]. reflexivity.
Qed.

(** A decimal numeral in normal form: a single zero, or digits that do not
    start with a zero. *)
Lemma unorm_shape d :
  Decimal.unorm d = d ->
  d = Decimal.D0 Decimal.Nil
  \/ exists c l, digits_of_uint d = c :: l /\ is_digit c = true /\ (c =? 48)%N = false.
Proof.
  unfold Decimal.unorm. destruct d; simpl;
    try (intros _; right; eexists _, _; repeat split; reflexivity).
  - discriminate.
  - destruct (Decimal.nzhead d) eqn:Hn; intros H; try (left; exact (eq_sym H));
      exfalso; pose proof (DecimalFacts.nzhead_revapp_0 Decimal.Nil) as _;
      assert (Hlen : Decimal.nb_digits (Decimal.nzhead d) <= Decimal.nb_digits d)
        by apply DecimalFacts.nb_digits_nzhead;
      rewrite Hn, H in Hlen; simpl in Hlen; lia.
Qed.

Lemma to_int_norm z : Decimal.norm (Z.to_int z) = Z.to_int z.
Proof. rewrite <- (DecimalZ.to_of (Z.to_int z)). by rewrite DecimalZ.of_to. Qed.

Lemma nzhead_shape d :
  Decimal.nzhead d = d -> d <> Decimal.Nil ->
  exists c l, digits_of_uint d = c :: l /\ is_digit c = true /\ (c =? 48)%N = false.
Proof.
  destruct d; simpl; intros H Hne; try (eexists _, _; repeat split; reflexivity).
  - contradiction.
  - exfalso. pose proof (DecimalFacts.nb_digits_nzhead d) as Hlen.
    rewrite H in Hlen. simpl in Hlen. lia.
Qed.

Lemma is_digit_not_minus c : is_digit c = true -> (c =? 45)%N = false.
Proof.
  unfold is_digit. rewrite andb_true_iff, !N.leb_le, N.eqb_neq. lia.
Qed.

Lemma scan_digits c l rest :
  digits_of_uint (uint_of_digits (c :: l)) = c :: l ->
  Forall (fun x => is_digit x = true) (c :: l) -> (c =? 48)%N = false ->
  stops rest = true ->
  scan_int_part ((c :: l) ++ rest) = Some (c :: l, rest).
Proof.
  intros _ Hd Hc Hrest. unfold scan_int_part. cbn [app]. rewrite Hc.
  inversion Hd as [ | ? ? Hcd Hl ]; subst. rewrite Hcd.
  change (c :: l ++ rest) with ((c :: l) ++ rest).
  rewrite (span_all is_digit (c :: l) rest Hd); [ reflexivity | ].
  by apply stops_digit.
Qed.

Lemma scan_number_lexeme (negative : bool) c l rest :
  is_digit c = true ->
  scan_int_part ((c :: l) ++ rest) = Some (c :: l, rest) ->
  stops rest = true ->
  scan_number ((if negative then [45%N] else []) ++ (c :: l) ++ rest)
  = Some (DNum (int_of_lexeme negative (c :: l)), rest).
Proof.
  intros Hc Hint Hrest. unfold scan_number.
  assert (Hs : scan_sign ((if negative then [45%N] else []) ++ (c :: l) ++ rest)
               = (negative, (c :: l) ++ rest)).
  { destruct negative; [ reflexivity | ]. cbn [app scan_sign].
    by rewrite (is_digit_not_minus c Hc). }
  rewrite Hs, Hint. by rewrite scan_frac_stops, scan_exp_stops by exact Hrest.
Qed.

(** The decoder reads back the decimal form of an integer. *)
Lemma scan_number_int z rest :
  stops rest = true -> scan_number (int_repr z ++ rest) = Some (DNum z, rest).
Proof.
  intros Hrest. pose proof (to_int_norm z) as Hnorm.
  pose proof (DecimalZ.of_to z) as Hz. unfold int_repr.
  destruct (Z.to_int z) as [ d | d ] eqn:Hd.
  - simpl in Hnorm. injection Hnorm as Hu.
    destruct (unorm_shape d Hu) as [ -> | (c & l & Hl & Hc & Hc0) ].
    + rewrite <- Hz. by apply (scan_number_lexeme false 48%N [] rest).
    + pose proof (digits_of_uint_digits d) as Hds. rewrite Hl in *.
      transitivity (Some (DNum (int_of_lexeme false (c :: l)), rest)).
      * apply (scan_number_lexeme false c l rest Hc); [ | exact Hrest ].
        apply scan_digits; try assumption. by rewrite <- Hl, uint_of_digits_of_uint.
      * unfold int_of_lexeme. by rewrite <- Hl, uint_of_digits_of_uint, Hz.
  - simpl in Hnorm.
    assert (Hshape : exists c l, digits_of_uint d = c :: l /\ is_digit c = true
                                 /\ (c =? 48)%N = false).
    { destruct (Decimal.nzhead d) eqn:Hn; try discriminate Hnorm;
        injection Hnorm as Hu; rewrite <- Hn in Hu;
        (assert (Hne : d <> Decimal.Nil) by (intros ->; discriminate Hn));
        exact (nzhead_shape d Hu Hne). }
    destruct Hshape as (c & l & Hl & Hc & Hc0).
    pose proof (digits_of_uint_digits d) as Hds. rewrite Hl in *.
    transitivity (Some (DNum (int_of_lexeme true (c :: l)), rest)).
    + apply (scan_number_lexeme true c l rest Hc); [ | exact Hrest ].
      apply scan_digits; try assumption. by rewrite <- Hl, uint_of_digits_of_uint.
    + unfold int_of_lexeme. by rewrite <- Hl, uint_of_digits_of_uint, Hz.
Qed.

Lemma int_repr_head z :
  exists c l, int_repr z = c :: l
              /\ (is_digit c = true \/ c = 45%N /\ exists c' l', l = c' :: l' /\ is_digit c' = true).
Proof.
  pose proof (to_int_norm z) as Hnorm. unfold int_repr.
  destruct (Z.to_int z) as [ d | d ].
  - simpl in Hnorm. injection Hnorm as Hu.
    destruct (unorm_shape d Hu) as [ -> | (c & l & Hl & Hc & _) ].
    + eexists _, _. split; [ reflexivity | by left ].
    + exists c, l. split; [ exact Hl | by left ].
  - simpl in Hnorm. exists 45%N, (digits_of_uint d). split; [ reflexivity | right ].
    split; [ reflexivity | ].
    destruct (Decimal.nzhead d) eqn:Hn; try discriminate Hnorm;
      injection Hnorm as Hu; rewrite <- Hn in Hu;
      (assert (Hne : d <> Decimal.Nil) by (intros ->; discriminate Hn));
      destruct (nzhead_shape d Hu Hne) as (c & l & Hl & Hc & _); eauto.
Qed.

Lemma small_char (c : N) :
  (c <? 32)%N = true -> exists n, n < 32 /\ c = N.of_nat n.
Proof. intros H. apply N.ltb_lt in H. exists (N.to_nat c). split; lia. Qed.

(** One character written by the encoder is read back by the decoder. *)
Lemma scanstring_escape_char c t r :
  scanstring_from 0 t = Ok r ->
  scanstring_from 0 (escape_char c ++ t) = Ok (c :: r.1, r.2).
Proof.
  intros Ht. destruct (c <? 32)%N eqn:Hsmall.
  - destruct (small_char c Hsmall) as (n & Hn & ->).
    do 32 (destruct n as [ | n ];
           [ match goal with
             | |- context [N.of_nat ?k] =>
                 let v := eval vm_compute in (N.of_nat k) in
                 change (N.of_nat k) with v;
                 transitivity ((fun r => (v :: r.1, r.2)) <$> scanstring_from 0 t);
                 [ reflexivity | rewrite Ht; reflexivity ]
             end | ]).
    lia.
  - unfold escape_char. rewrite Hsmall.
    assert (H8 : (c =? 8)%N = false) by (apply N.ltb_ge in Hsmall; apply N.eqb_neq; lia).
    assert (H9 : (c =? 9)%N = false) by (apply N.ltb_ge in Hsmall; apply N.eqb_neq; lia).
    assert (H10 : (c =? 10)%N = false) by (apply N.ltb_ge in Hsmall; apply N.eqb_neq; lia).
    assert (H12 : (c =? 12)%N = false) by (apply N.ltb_ge in Hsmall; apply N.eqb_neq; lia).
    assert (H13 : (c =? 13)%N = false) by (apply N.ltb_ge in Hsmall; apply N.eqb_neq; lia).
    rewrite H8, H9, H10, H12, H13.
    destruct (c =? 34)%N eqn:H34.
    { apply N.eqb_eq in H34 as ->.
      transitivity ((fun r => (34%N :: r.1, r.2)) <$> scanstring_from 0 t);
        [ reflexivity | rewrite Ht; reflexivity ]. }
    destruct (c =? 92)%N eqn:H92.
    { apply N.eqb_eq in H92 as ->.
      transitivity ((fun r => (92%N :: r.1, r.2)) <$> scanstring_from 0 t);
        [ reflexivity | rewrite Ht; reflexivity ]. }
    cbn [app scanstring_from]. rewrite H34, H92, Hsmall, Ht. reflexivity.
Qed.

(** The decoder reads back the body of a string written by the encoder. *)
Lemma scanstring_encoded s rest :
  scanstring (List.concat (List.map escape_char s) ++ 34%N :: rest) = Ok (s, rest).
Proof.
  unfold scanstring. induction s as [ | c s IH ]; [ reflexivity | ].
  cbn [List.map List.concat]. rewrite <- app_assoc.
  by rewrite (scanstring_escape_char c _ _ IH).
Qed.

Lemma skip_ws_spaces n t : skip_ws (List.repeat 32%N n ++ t) = skip_ws t.
Proof. induction n as [ | n IH ]; [ reflexivity | exact IH ]. Qed.

Lemma skip_ws_newline_indent indent level t :
  skip_ws (newline_indent indent level ++ t) = skip_ws t.
Proof.
  destruct indent as [ n | ]; [ | reflexivity ].
  unfold newline_indent. cbn [app skip_ws is_ws N.eqb Pos.eqb orb].
  apply skip_ws_spaces.
Qed.

Lemma skip_ws_item_separator indent level t :
  exists t', item_separator indent ++ newline_indent indent level ++ t = 44%N :: t'
             /\ skip_ws t' = skip_ws t.
Proof.
  destruct indent as [ n | ].
  - eexists. split; [ reflexivity | ]. apply (skip_ws_newline_indent (Some n)).
  - eexists. split; reflexivity.
Qed.

Lemma span_eq p (s a b : str) : span p s = (a, b) -> s = a ++ b.
Proof.
  revert a b. induction s as [ | c s IH ]; intros a b; simpl.
  - by intros [= <- <-].
  - destruct (p c); [ | by intros [= <- <-] ].
    destruct (span p s) as [a' b']. intros [= <- <-]. simpl. f_equal. by apply IH.
Qed.

Lemma digit_run_shape s :
  digit_run s = true -> exists c l, s = c :: l /\ Forall (fun x => is_digit x = true) (c :: l).
Proof.
  unfold digit_run. destruct s as [ | c l ]; [ done | ]. cbn [nonempty andb].
  intros H. exists c, l. split; [ done | ].
  apply Forall_forall. intros y Hy. rewrite forallb_forall in H. apply H.
  by apply list_elem_of_In.
Qed.


Lemma digit_run_span ds tail :
  digit_run ds = true -> no_digit_ahead tail ->
  exists c l, ds = c :: l /\ span is_digit (ds ++ tail) = (ds, tail).
Proof.
  intros Hds Htail. destruct (digit_run_shape ds Hds) as (c & l & -> & Hall).
  exists c, l. split; [ done | ]. by apply span_all.
Qed.

Lemma int_part_scan digits tail :
  int_part digits = true -> no_digit_ahead tail ->
  exists c l, digits = c :: l /\ is_digit c = true
              /\ scan_int_part (digits ++ tail) = Some (digits, tail).
Proof.
  destruct digits as [ | c l ]; [ done | ]. cbn [int_part]. intros H Htail.
  exists c, l. split; [ done | ]. unfold scan_int_part. cbn [app].
  destruct (c =? 48)%N eqn:Hc.
  - apply N.eqb_eq in Hc as ->. destruct l; [ done | discriminate H ].
  - assert (Hall : Forall (fun x => is_digit x = true) (c :: l)).
    { apply Forall_forall. intros y Hy. rewrite forallb_forall in H. apply H.
      by apply list_elem_of_In. }
    inversion Hall as [ | ? ? Hcd _ ]; subst. rewrite Hcd. split; [ done | ].
    change (c :: l ++ tail) with ((c :: l) ++ tail). by rewrite (span_all is_digit).
Qed.

Lemma frac_part_head frac tail :
  frac_part frac = true -> exists ds, frac = 46%N :: ds /\ no_digit_ahead (frac ++ tail).
Proof.
  destruct frac as [ | c ds ]; [ done | ]. cbn [frac_part].
  intros [Hc _]%andb_true_iff. apply N.eqb_eq in Hc as ->. by exists ds.
Qed.

Lemma frac_part_scan frac tail :
  frac_part frac = true -> no_digit_ahead tail -> scan_frac (frac ++ tail) = (frac, tail).
Proof.
  destruct frac as [ | c ds ]; [ done | ]. cbn [frac_part].
  intros [Hc Hds]%andb_true_iff Htail. cbn [app scan_frac]. rewrite Hc.
  destruct (digit_run_span ds tail Hds Htail) as (c' & l' & -> & ->). reflexivity.
Qed.

Lemma exp_part_head expo tail :
  exp_part expo = true ->
  exists e s', expo = e :: s' /\ is_e e = true /\ no_digit_ahead (expo ++ tail)
               /\ scan_frac (expo ++ tail) = ([], expo ++ tail).
Proof.
  destruct expo as [ | e s' ]; [ done | ]. cbn [exp_part].
  intros [He _]%andb_true_iff. exists e, s'. split; [ done | ]. split; [ exact He | ].
  apply orb_true_iff in He as [ ->%N.eqb_eq | ->%N.eqb_eq ]; by split.
Qed.

Lemma exp_part_scan expo rest :
  exp_part expo = true -> no_digit_ahead rest -> scan_exp (expo ++ rest) = (expo, rest).
Proof.
  destruct expo as [ | e s' ]; [ done | ]. cbn [exp_part].
  intros [He Hds]%andb_true_iff Hrest. cbn [app scan_exp]. rewrite He.
  destruct s' as [ | c t ]; [ done | ]. cbn [app].
  destruct ((c =? 43) || (c =? 45))%N eqn:Hsign.
  - destruct (digit_run_span t rest Hds Hrest) as (c' & l' & -> & ->). reflexivity.
  - change (c :: t ++ rest) with ((c :: t) ++ rest).
    destruct (digit_run_span (c :: t) rest Hds Hrest) as (c' & l' & Heq & ->).
    reflexivity.
Qed.

Lemma scan_sign_eq x :
  x = (if (scan_sign x).1 then [45%N] else []) ++ (scan_sign x).2.
Proof.
  destruct x as [ | c x ]; [ done | ]. cbn [scan_sign].
  destruct (c =? 45)%N eqn:Hc; [ | done ]. by apply N.eqb_eq in Hc as ->.
Qed.

Lemma scan_sign_digit (negative : bool) c s :
  is_digit c = true ->
  scan_sign ((if negative then [45%N] else []) ++ c :: s) = (negative, c :: s).
Proof.
  intros Hc. destruct negative; [ reflexivity | ]. cbn [app scan_sign].
  by rewrite (is_digit_not_minus c Hc).
Qed.

(** The parts of a finite float lexeme. *)
Lemma finite_float_shape x :
  finite_float x = true ->
  exists digits frac expo,
    x = (if (scan_sign x).1 then [45%N] else []) ++ digits ++ frac ++ expo
    /\ (scan_sign x).2 = digits ++ frac ++ expo
    /\ int_part digits = true
    /\ (frac = [] \/ frac_part frac = true)
    /\ (expo = [] \/ exp_part expo = true)
    /\ nonempty frac || nonempty expo = true.
Proof.
  unfold finite_float. intros H.
  destruct (span is_digit (scan_sign x).2) as [digits r] eqn:Hd.
  destruct (span (fun c => negb (is_e c)) r) as [frac expo] eqn:Hf.
  apply span_eq in Hd, Hf. subst r.
  rewrite !andb_true_iff in H. destruct H as [[[Hint Hne] Hfrac] Hexpo].
  exists digits, frac, expo.
  split; [ rewrite <- Hd; apply scan_sign_eq | ].
  split; [ exact Hd | ]. split; [ exact Hint | ].
  split; [ destruct frac; [ by left | by right ] | ].
  split; [ destruct expo; [ by left | by right ] | exact Hne ].
Qed.

(** The decoder reads back a finite float lexeme. *)
Lemma scan_number_float x rest :
  finite_float x = true -> stops rest = true ->
  scan_number (x ++ rest) = Some (DFloat x, rest)
  /\ exists c l, (scan_sign x).2 = c :: l /\ is_digit c = true.
Proof.
  intros H Hrest.
  destruct (finite_float_shape x H) as (digits & frac & expo & Hx & Hd & Hint & Hfrac & Hexpo & Hne).
  pose proof (stops_digit rest Hrest) as Hnd. fold (no_digit_ahead rest) in Hnd.
  assert (He : scan_exp (expo ++ rest) = (expo, rest)
               /\ no_digit_ahead (expo ++ rest)
               /\ scan_frac (expo ++ rest) = ([], expo ++ rest)).
  { destruct Hexpo as [ -> | Hexpo ].
    - cbn [app]. by rewrite scan_exp_stops, scan_frac_stops.
    - destruct (exp_part_head _ rest Hexpo) as (? & ? & _ & _ & ? & ?).
      by rewrite exp_part_scan. }
  destruct He as (He & Hne_e & Hf_e).
  assert (Hfr : scan_frac (frac ++ expo ++ rest) = (frac, expo ++ rest)
                /\ no_digit_ahead (frac ++ expo ++ rest)).
  { destruct Hfrac as [ -> | Hfrac ]; [ done | ].
    destruct (frac_part_head _ (expo ++ rest) Hfrac) as (? & _ & ?).
    by rewrite frac_part_scan. }
  destruct Hfr as [Hfr Hne_f].
  destruct (int_part_scan digits _ Hint Hne_f) as (c & l & -> & Hc & Hscan).
  split; [ | rewrite Hd; by exists c, (l ++ frac ++ expo) ].
  rewrite Hx at 1. rewrite <- !app_assoc. unfold scan_number.
  cbn [app]. rewrite scan_sign_digit by done.
  change (c :: l ++ frac ++ expo ++ rest) with ((c :: l) ++ frac ++ expo ++ rest).
  rewrite Hscan, Hfr, He. rewrite <- Hx.
  destruct frac, expo; done.
Qed.

Lemma float_lexeme_cases x :
  float_lexeme x = true ->
  x = u "NaN" \/ x = u "Infinity" \/ x = u "-Infinity" \/ finite_float x = true.
Proof.
  unfold float_lexeme. rewrite !orb_true_iff, !bool_decide_eq_true. tauto.
Qed.

(** A float lexeme starts as a value does. *)
Lemma float_lexeme_head x :
  float_lexeme x = true -> exists c l, x = c :: l /\ starts_value c = true.
Proof.
  intros [ -> | [ -> | [ -> | H ] ] ]%float_lexeme_cases;
    try (eexists _, _; split; reflexivity).
  destruct (scan_number_float x [] H eq_refl) as [_ (c & l & Hx & Hc)].
  rewrite (scan_sign_eq x), Hx. destruct (scan_sign x).1.
  - eexists _, _. split; reflexivity.
  - exists c, l. split; [ reflexivity | ]. unfold starts_value. by rewrite Hc.
Qed.

Lemma digits_float_chars l :
  forallb is_digit l = true -> Forall (fun c => float_char c = true) l.
Proof.
  intros H. apply Forall_forall. intros c Hc. rewrite forallb_forall in H.
  unfold float_char. rewrite (H c); [ done | by apply list_elem_of_In ].
Qed.

Lemma digit_run_float_chars l :
  digit_run l = true -> Forall (fun c => float_char c = true) l.
Proof. intros [_ H]%andb_true_iff. by apply digits_float_chars. Qed.

(** A float lexeme is written with the characters of floats. *)
Lemma float_lexeme_chars x :
  float_lexeme x = true -> Forall (fun c => float_char c = true) x.
Proof.
  intros [ -> | [ -> | [ -> | H ] ] ]%float_lexeme_cases;
    try (repeat constructor; done).
  destruct (finite_float_shape x H) as (digits & frac & expo & -> & _ & Hint & Hfrac & Hexpo & _).
  rewrite !Forall_app. split; [ destruct (scan_sign _).1; repeat constructor; done | ].
  split; [ | split ].
  - destruct digits as [ | c l ]; [ done | ]. cbn [int_part] in Hint.
    destruct (c =? 48)%N eqn:Hc; [ | by apply digits_float_chars ].
    apply N.eqb_eq in Hc as ->. destruct l; [ repeat constructor; done | done ].
  - destruct Hfrac as [ -> | Hfrac ]; [ constructor | ].
    destruct frac as [ | c ds ]; [ done | ]. cbn [frac_part] in Hfrac.
    apply andb_true_iff in Hfrac as [Hc Hds]. apply N.eqb_eq in Hc as ->.
    constructor; [ done | by apply digit_run_float_chars ].
  - destruct Hexpo as [ -> | Hexpo ]; [ constructor | ].
    destruct expo as [ | e s' ]; [ done | ]. cbn [exp_part] in Hexpo.
    apply andb_true_iff in Hexpo as [He Hds].
    constructor.
    { apply orb_true_iff in He as [ ->%N.eqb_eq | ->%N.eqb_eq ]; done. }
    destruct s' as [ | c t ]; [ constructor | ].
    destruct ((c =? 43) || (c =? 45))%N eqn:Hsign; [ | by apply digit_run_float_chars ].
    constructor; [ | by apply digit_run_float_chars ].
    apply orb_true_iff in Hsign as [ ->%N.eqb_eq | ->%N.eqb_eq ]; done.
Qed.

Lemma encode_head indent level d :
  valid_doc d = true ->
  exists c l, encode indent level d = c :: l /\ starts_value c = true.
Proof.
  destruct d as [ | [ | ] | z | x | s | [ | x items ] | [ | kv entries ] ];
    intros Hv; try discriminate Hv;
    try (eexists _, _; split; [ reflexivity | reflexivity ]).
  - cbn [encode]. destruct (int_repr_head z) as (c & l & -> & [ Hc | [-> _] ]).
    + exists c, l. split; [ reflexivity | ]. unfold starts_value. by rewrite Hc.
    + eexists _, _. split; reflexivity.
  - by apply float_lexeme_head.
Qed.

Lemma starts_value_not_ws c : starts_value c = true -> is_ws c = false.
Proof.
  unfold starts_value, is_ws, is_digit.
  rewrite !orb_true_iff, !andb_true_iff, !N.leb_le, !N.eqb_eq, !orb_false_iff, !N.eqb_neq.
  lia.
Qed.

Lemma skip_ws_value c l : starts_value c = true -> skip_ws (c :: l) = c :: l.
Proof. intros H. simpl. by rewrite (starts_value_not_ws c H). Qed.

Lemma join_length sep parts :
  sum_list_with length parts + (length parts - 1) * length sep
  <= length (join sep parts).
Proof.
  induction parts as [ | x parts IH ]; [ simpl; lia | ].
  destruct parts as [ | y rest ]; [ simpl; lia | ].
  change (join sep (x :: y :: rest)) with (x ++ sep ++ join sep (y :: rest)).
  rewrite !length_app. cbn [sum_list_with length] in *.
  replace (S (S (length rest)) - 1) with (S (S (length rest) - 1)) by lia.
  rewrite Nat.mul_succ_l. lia.
Qed.

(** A joined text is long enough to pay one unit for each part besides what
    the parts themselves need. *)
Lemma join_length_ge {A} (need : A -> nat) (enc : A -> list N) sep (l : list A) :
  1 <= length sep ->
  Forall (fun x => need x <= length (enc x)) l ->
  sum_list_with (fun x => S (need x)) l <= S (length (join sep (List.map enc l))).
Proof.
  intros Hsep H.
  assert (Hsum : sum_list_with (fun x => S (need x)) l
                 <= sum_list_with length (List.map enc l) + length l).
  { induction H as [ | x l' Hx _ IH ]; cbn [List.map sum_list_with length]; lia. }
  pose proof (join_length sep (List.map enc l)) as Hj.
  rewrite length_map in Hj.
  assert (length l - 1 <= (length l - 1) * length sep) by nia.
  lia.
Qed.

Lemma item_separator_length indent level :
  1 <= length (item_separator indent ++ newline_indent indent level).
Proof. rewrite length_app. destruct indent; simpl; lia. Qed.

Lemma encode_basestring_length s : 2 <= length (encode_basestring s).
Proof. unfold encode_basestring. cbn [length]. rewrite length_app. simpl. lia. Qed.

Lemma encode_seq_cons indent level x items :
  encode indent level (DSeq (x :: items))
  = 91%N :: newline_indent indent (S level)
      ++ join (item_separator indent ++ newline_indent indent (S level))
              (List.map (encode indent (S level)) (x :: items))
      ++ newline_indent indent level ++ [93%N].
Proof. reflexivity. Qed.

Lemma encode_map_cons indent level kv entries :
  encode indent level (DMap (kv :: entries))
  = 123%N :: newline_indent indent (S level)
      ++ join (item_separator indent ++ newline_indent indent (S level))
              (List.map (fun e => encode_basestring e.1 ++ u ": "
                                    ++ encode indent (S level) e.2) (kv :: entries))
      ++ newline_indent indent level ++ [125%N].
Proof. reflexivity. Qed.

(** The encoded text has at least as many characters as the decoder needs
    fuel. *)
Lemma size_le_length indent d :
  valid_doc d = true -> forall level, size d <= length (encode indent level d).
Proof.
  induction d as [ | b | z | x | s | items IH | entries IH ] using Document_induction;
    intros Hv level.
  - simpl. lia.
  - destruct b; simpl; lia.
  - destruct (int_repr_head z) as (c & l & Hz & _). cbn [encode size]. rewrite Hz.
    simpl. lia.
  - destruct (float_lexeme_head x Hv) as (c & l & -> & _). simpl. lia.
  - cbn [encode size]. pose proof (encode_basestring_length s). lia.
  - destruct items as [ | x items ]; [ simpl; lia | ].
    rewrite encode_seq_cons. cbn [size length]. rewrite !length_app.
    pose proof (join_length_ge size (encode indent (S level))
                  (item_separator indent ++ newline_indent indent (S level))
                  (x :: items) (item_separator_length indent (S level))) as Hj.
    cbn [valid_doc] in Hv. rewrite forallb_forall in Hv.
    assert (Hall : Forall (fun y => size y <= length (encode indent (S level) y)) (x :: items)).
    { apply Forall_forall. intros y Hy. rewrite Forall_forall in IH.
      apply IH; [ exact Hy | ]. apply Hv. by apply list_elem_of_In. }
    specialize (Hj Hall). cbn [length]. lia.
  - destruct entries as [ | kv entries ]; [ simpl; lia | ].
    rewrite encode_map_cons. cbn [size length]. rewrite !length_app.
    pose proof (join_length_ge (fun kv => size kv.2)
                  (fun kv => encode_basestring kv.1 ++ u ": " ++ encode indent (S level) kv.2)
                  (item_separator indent ++ newline_indent indent (S level))
                  (kv :: entries) (item_separator_length indent (S level))) as Hj.
    cbn [valid_doc] in Hv. apply andb_true_iff in Hv as [_ Hv].
    rewrite forallb_forall in Hv.
    assert (Hall : Forall (fun e => size e.2
                     <= length (encode_basestring e.1 ++ u ": "
                                  ++ encode indent (S level) e.2)) (kv :: entries)).
    { apply Forall_forall. intros e He. rewrite Forall_forall in IH.
      rewrite !length_app.
      assert (size e.2 <= length (encode indent (S level) e.2)); [ | lia ].
      apply IH; [ exact He | ]. apply Hv. by apply list_elem_of_In. }
    specialize (Hj Hall). cbn [length]. lia.
Qed.

(** The branches of [scan_once], one equation each. *)
Lemma scan_once_string fuel s :
  scan_once (S fuel) (34%N :: s)
  = '(text, rest) ← scanstring s; Ok (Some (DStr text, rest)).
Proof. reflexivity. Qed.

Lemma scan_once_array fuel s :
  scan_once (S fuel) (91%N :: s)
  = match skip_ws s with
    | 93%N :: rest => Ok (Some (DSeq [], rest))
    | s1 => (fun r => Some r) <$> array_loop fuel [] s1
    end.
Proof. reflexivity. Qed.

Lemma scan_once_object fuel s :
  scan_once (S fuel) (123%N :: s)
  = match skip_ws s with
    | 125%N :: rest => Ok (Some (DMap [], rest))
    | s1 => (fun r => Some r) <$> object_loop fuel [] s1
    end.
Proof. reflexivity. Qed.

Lemma array_loop_step fuel values s :
  array_loop (S fuel) values s
  = v ← scan_once fuel s;
    match v with
    | None => Err Expecting_value
    | Some (value, s1) =>
        match skip_ws s1 with
        | 93%N :: rest => Ok (DSeq (values ++ [value]), rest)
        | 44%N :: s2 => array_loop fuel (values ++ [value]) (skip_ws s2)
        | _ => Err Expecting_comma
        end
    end.
Proof. reflexivity. Qed.

Lemma object_loop_step fuel pairs s1 :
  object_loop (S fuel) pairs (34%N :: s1)
  = '(key, s2) ← scanstring s1;
    match skip_ws s2 with
    | 58%N :: s3 =>
        v ← scan_once fuel (skip_ws s3);
        match v with
        | None => Err Expecting_value
        | Some (value, s4) =>
            let pairs' := dict_set pairs key value in
            match skip_ws s4 with
            | 125%N :: rest => Ok (DMap pairs', rest)
            | 44%N :: s5 => object_loop fuel pairs' (skip_ws s5)
            | _ => Err Expecting_comma
            end
        end
    | _ => Err Expecting_colon
    end.
Proof. reflexivity. Qed.

(** Decide the comparisons of the goal whose two sides are numerals. *)
Ltac eval_tests :=
  repeat match goal with
         | |- context [N.eqb ?a ?b] =>
             let v := eval vm_compute in (N.eqb a b) in
             first [ constr_eq v true | constr_eq v false ];
             change (N.eqb a b) with v
         end.

Lemma startswith_cons a p b s :
  startswith (a :: p) (b :: s) = (a =? b)%N && startswith p s.
Proof. reflexivity. Qed.

(** A character at which a number starts sends [scan_once] to the number
    scanner. *)
Lemma scan_once_digit fuel c s :
  is_digit c = true -> scan_once (S fuel) (c :: s) = Ok (scan_number (c :: s)).
Proof.
  intros Hc. unfold is_digit in Hc. apply andb_true_iff in Hc as [H1 H2].
  apply N.leb_le in H1, H2.
  assert (Hne : forall k, (k < 48 \/ 57 < k)%N -> (c =? k)%N = false /\ (k =? c)%N = false).
  { intros k Hk. split; apply N.eqb_neq; lia. }
  cbn [scan_once]. eval_literals. rewrite !startswith_cons.
  rewrite (proj1 (Hne 34%N ltac:(lia))), (proj1 (Hne 123%N ltac:(lia))),
    (proj1 (Hne 91%N ltac:(lia))), (proj2 (Hne 110%N ltac:(lia))),
    (proj2 (Hne 116%N ltac:(lia))), (proj2 (Hne 102%N ltac:(lia))),
    (proj2 (Hne 78%N ltac:(lia))), (proj2 (Hne 73%N ltac:(lia))),
    (proj2 (Hne 45%N ltac:(lia))).
  reflexivity.
Qed.

Lemma scan_once_minus fuel c s :
  is_digit c = true ->
  scan_once (S fuel) (45%N :: c :: s) = Ok (scan_number (45%N :: c :: s)).
Proof.
  intros Hc. unfold is_digit in Hc. apply andb_true_iff in Hc as [H1 H2].
  apply N.leb_le in H1, H2.
  assert (H73 : (73 =? c)%N = false) by (apply N.eqb_neq; lia).
  cbn [scan_once]. eval_literals. rewrite !startswith_cons. eval_tests.
  rewrite H73. reflexivity.
Qed.

Lemma match_not_93 {A} c l (x y : list N -> A) :
  (c =? 93)%N = false ->
  match c :: l with 93%N :: rest => x rest | s1 => y s1 end = y (c :: l).
Proof.
  intros H. destruct c as [ | p ]; [ reflexivity | ].
  do 7 (try (destruct p as [ p | p | ]; try reflexivity)). discriminate H.
Qed.

Lemma match_not_125 {A} c l (x y : list N -> A) :
  (c =? 125)%N = false ->
  match c :: l with 125%N :: rest => x rest | s1 => y s1 end = y (c :: l).
Proof.
  intros H. destruct c as [ | p ]; [ reflexivity | ].
  do 7 (try (destruct p as [ p | p | ]; try reflexivity)). discriminate H.
Qed.

Lemma starts_value_not_closing c :
  starts_value c = true -> (c =? 93)%N = false /\ (c =? 125)%N = false.
Proof.
  unfold starts_value, is_digit.
  rewrite !orb_true_iff, !andb_true_iff, !N.leb_le, !N.eqb_eq, !N.eqb_neq. lia.
Qed.

Lemma stops_close indent level c rest :
  stops [c] = true -> stops (newline_indent indent level ++ c :: rest) = true.
Proof. destruct indent; [ reflexivity | exact id ]. Qed.

Lemma join_cons {A} (f : A -> list N) sep x xs tail :
  exists t, join sep (List.map f (x :: xs)) ++ tail = f x ++ t.
Proof.
  destruct xs as [ | y ys ]; [ by exists tail | ].
  eexists. cbn [List.map join]. rewrite <- !app_assoc. reflexivity.
Qed.

Lemma join_step {A} (f : A -> list N) sep x y ys :
  join sep (List.map f (x :: y :: ys)) = f x ++ sep ++ join sep (List.map f (y :: ys)).
Proof. reflexivity. Qed.

Section ContainerLoops.
Variable indent : option nat.
Variable level : nat.
Variable rest : list N.

Let sep := item_separator indent ++ newline_indent indent (S level).

(** The loop of the array parser reads the items back. *)
Lemma array_loop_encoded items :
  Forall (fun x => valid_doc x = true /\ reads_back indent x) items ->
  items <> [] ->
  forall values fuel,
    sum_list_with (fun x => S (size x)) items <= fuel ->
    array_loop fuel values
      (join sep (List.map (encode indent (S level)) items)
         ++ newline_indent indent level ++ 93%N :: rest)
    = Ok (DSeq (values ++ items), rest).
Proof.
  induction 1 as [ | x items [Hvx Hx] Hitems IH ]; [ done | ]. intros _ values fuel Hfuel.
  cbn [sum_list_with] in Hfuel. destruct fuel as [ | fuel ]; [ lia | ].
  rewrite array_loop_step. destruct items as [ | y ys ].
  - cbn [List.map join].
    rewrite (Hx (S level) fuel _ ltac:(lia) (stops_close indent level 93%N rest eq_refl)).
    cbn [mbind scan_bind]. rewrite skip_ws_newline_indent. reflexivity.
  - rewrite join_step, <- !app_assoc. unfold sep at 1. rewrite <- app_assoc.
    destruct (skip_ws_item_separator indent (S level)
                (join sep (List.map (encode indent (S level)) (y :: ys))
                   ++ newline_indent indent level ++ 93%N :: rest))
      as (t' & Ht' & Hskip).
    rewrite Ht'. rewrite (Hx (S level) fuel (44%N :: t') ltac:(lia) eq_refl).
    cbn [mbind scan_bind]. change (skip_ws (44%N :: t')) with (44%N :: t').
    cbv beta iota. rewrite Hskip.
    inversion Hitems as [ | ? ? [Hvy _] _ ]; subst.
    destruct (join_cons (encode indent (S level)) sep y ys
                (newline_indent indent level ++ 93%N :: rest)) as (t & Ht).
    destruct (encode_head indent (S level) y Hvy) as (c & l & Hc & Hstart).
    assert (Hsk : skip_ws (join sep (List.map (encode indent (S level)) (y :: ys))
                             ++ newline_indent indent level ++ 93%N :: rest)
                  = join sep (List.map (encode indent (S level)) (y :: ys))
                      ++ newline_indent indent level ++ 93%N :: rest).
    { rewrite Ht, Hc. cbn [app]. by apply skip_ws_value. }
    rewrite Hsk, IH; [ | done | cbn [sum_list_with] in *; lia ].
    by rewrite <- app_assoc.
Qed.

Lemma dict_set_fresh (pairs : list (list N * Document)) key v :
  key ∉ pairs.*1 -> dict_set pairs key v = pairs ++ [(key, v)].
Proof.
  induction pairs as [ | [k w] pairs IH ]; [ reflexivity | ].
  cbn [fmap list_fmap fst dict_set app]. rewrite not_elem_of_cons. intros [Hne Hnot].
  unfold str_eqb. rewrite bool_decide_eq_false_2 by congruence.
  by rewrite IH.
Qed.

Let encode_entry (kv : list N * Document) : list N :=
  encode_basestring kv.1 ++ u ": " ++ encode indent (S level) kv.2.

(** The loop of the object parser reads the entries back. *)
Lemma object_loop_encoded entries :
  Forall (fun kv => valid_doc kv.2 = true /\ reads_back indent kv.2) entries ->
  entries <> [] ->
  forall pairs fuel,
    NoDup (pairs ++ entries).*1 ->
    sum_list_with (fun kv => S (size kv.2)) entries <= fuel ->
    object_loop fuel pairs
      (join sep (List.map encode_entry entries)
         ++ newline_indent indent level ++ 125%N :: rest)
    = Ok (DMap (pairs ++ entries), rest).
Proof.
  induction 1 as [ | [k v] entries [Hvx Hx] Hentries IH ]; [ done | ].
  intros _ pairs fuel Hnd Hfuel. cbn [snd] in *.
  cbn [sum_list_with snd] in Hfuel. destruct fuel as [ | fuel ]; [ lia | ].
  assert (Hfresh : dict_set pairs k v = pairs ++ [(k, v)]).
  { apply dict_set_fresh. rewrite fmap_app in Hnd. apply NoDup_app in Hnd as (_ & Hnd & _).
    intros Hin. apply (Hnd k Hin). cbn. left. }
  destruct (encode_head indent (S level) v Hvx) as (c & l & Hc & Hstart).
  assert (Hentry : forall tail,
    object_loop (S fuel) pairs (encode_entry (k, v) ++ tail)
    = v' ← scan_once fuel (encode indent (S level) v ++ tail);
      match v' with
      | None => Err Expecting_value
      | Some (value, s4) =>
          let pairs' := dict_set pairs k value in
          match skip_ws s4 with
          | 125%N :: rest' => Ok (DMap pairs', rest')
          | 44%N :: s5 => object_loop fuel pairs' (skip_ws s5)
          | _ => Err Expecting_comma
          end
      end).
  { intros tail. unfold encode_entry, encode_basestring. eval_literals.
    cbn [fst snd app]. rewrite <- !app_assoc. cbn [app].
    rewrite object_loop_step, scanstring_encoded. cbn [mbind scan_bind].
    change (skip_ws (58%N :: 32%N :: encode indent (S level) v ++ tail))
      with (58%N :: 32%N :: encode indent (S level) v ++ tail).
    cbv beta iota.
    change (skip_ws (32%N :: encode indent (S level) v ++ tail))
      with (skip_ws (encode indent (S level) v ++ tail)).
    rewrite Hc. cbn [app]. by rewrite (skip_ws_value c _ Hstart). }
  destruct entries as [ | kv more ].
  - cbn [List.map join]. rewrite Hentry.
    rewrite (Hx (S level) fuel _ ltac:(lia) (stops_close indent level 125%N rest eq_refl)).
    cbn [mbind scan_bind]. rewrite skip_ws_newline_indent, Hfresh. reflexivity.
  - rewrite join_step, <- !app_assoc. unfold sep at 1. rewrite <- app_assoc.
    destruct (skip_ws_item_separator indent (S level)
                (join sep (List.map encode_entry (kv :: more))
                   ++ newline_indent indent level ++ 125%N :: rest))
      as (t' & Ht' & Hskip).
    rewrite Ht', Hentry. rewrite (Hx (S level) fuel (44%N :: t') ltac:(lia) eq_refl).
    cbn [mbind scan_bind]. change (skip_ws (44%N :: t')) with (44%N :: t').
    cbv beta iota. rewrite Hskip, Hfresh.
    destruct (join_cons encode_entry sep kv more
                (newline_indent indent level ++ 125%N :: rest)) as (t & Ht).
    assert (Hsk : skip_ws (join sep (List.map encode_entry (kv :: more))
                             ++ newline_indent indent level ++ 125%N :: rest)
                  = join sep (List.map encode_entry (kv :: more))
                      ++ newline_indent indent level ++ 125%N :: rest).
    { rewrite Ht. reflexivity. }
    rewrite Hsk, IH; [ | done | | cbn [sum_list_with] in *; lia ].
    + by rewrite <- app_assoc.
    + by rewrite <- app_assoc.
Qed.

End ContainerLoops.

Lemma scan_once_array_items fuel s c l :
  skip_ws s = c :: l -> (c =? 93)%N = false ->
  scan_once (S fuel) (91%N :: s) = (fun r => Some r) <$> array_loop fuel [] (c :: l).
Proof.
  intros Hs Hc. rewrite scan_once_array, Hs.
  exact (match_not_93 c l (fun rest => Ok (Some (DSeq [], rest)))
           (fun s1 => (fun r => Some r) <$> array_loop fuel [] s1) Hc).
Qed.

Lemma scan_once_object_items fuel s c l :
  skip_ws s = c :: l -> (c =? 125)%N = false ->
  scan_once (S fuel) (123%N :: s) = (fun r => Some r) <$> object_loop fuel [] (c :: l).
Proof.
  intros Hs Hc. rewrite scan_once_object, Hs.
  exact (match_not_125 c l (fun rest => Ok (Some (DMap [], rest)))
           (fun s1 => (fun r => Some r) <$> object_loop fuel [] s1) Hc).
Qed.

(** The decoder reads back the text of a float. *)
Lemma scan_once_float fuel x rest :
  float_lexeme x = true -> stops rest = true ->
  scan_once (S fuel) (x ++ rest) = Ok (Some (DFloat x, rest)).
Proof.
  intros [ -> | [ -> | [ -> | H ] ] ]%float_lexeme_cases Hrest; try reflexivity.
  destruct (scan_number_float x rest H Hrest) as [Hscan (c & l & Hx & Hc)].
  rewrite <- Hscan. rewrite (scan_sign_eq x), Hx. destruct (scan_sign x).1; cbn [app].
  - by apply scan_once_minus.
  - by apply scan_once_digit.
Qed.

(** The decoder reads back every valid document from its encoding. *)
Lemma scan_encode indent d : valid_doc d = true -> reads_back indent d.
Proof.
  induction d as [ | b | z | x | s | items IH | entries IH ] using Document_induction;
    intros Hv level fuel rest Hfuel Hrest;
    (destruct fuel as [ | fuel ]; [ cbn [size] in Hfuel; lia | ]).
  - reflexivity.
  - destruct b; reflexivity.
  - cbn [encode].
    destruct (int_repr_head z) as (c & l & Hz & [ Hc | (-> & c' & l' & -> & Hc') ]).
    + rewrite Hz. cbn [app]. rewrite (scan_once_digit fuel c _ Hc).
      change (c :: l ++ rest) with ((c :: l) ++ rest).
      by rewrite <- Hz, scan_number_int.
    + rewrite Hz. cbn [app]. rewrite (scan_once_minus fuel c' _ Hc').
      change (45%N :: c' :: l' ++ rest) with ((45%N :: c' :: l') ++ rest).
      by rewrite <- Hz, scan_number_int.
  - cbn [encode]. by apply scan_once_float.
  - cbn [encode]. unfold encode_basestring. cbn [app]. rewrite <- app_assoc. cbn [app].
    by rewrite scan_once_string, scanstring_encoded.
  - destruct items as [ | x items ]; [ reflexivity | ].
    rewrite encode_seq_cons. cbn [app]. rewrite <- !app_assoc. cbn [app].
    cbn [valid_doc] in Hv. rewrite forallb_forall in Hv.
    destruct (join_cons (encode indent (S level))
                (item_separator indent ++ newline_indent indent (S level)) x items
                (newline_indent indent level ++ 93%N :: rest)) as (t & Ht).
    destruct (encode_head indent (S level) x (Hv x ltac:(left; reflexivity)))
      as (c & l & Hc & Hstart).
    rewrite (scan_once_array_items fuel _ c (l ++ t)).
    + change (c :: l ++ t) with ((c :: l) ++ t). rewrite <- Hc, <- Ht.
      rewrite (array_loop_encoded indent level rest (x :: items)); [ reflexivity | | done | ].
      * apply Forall_forall. intros y Hy. rewrite Forall_forall in IH.
        assert (valid_doc y = true) by (apply Hv; by apply list_elem_of_In). auto.
      * cbn [size] in Hfuel. lia.
    + rewrite skip_ws_newline_indent, Ht, Hc. cbn [app]. by apply skip_ws_value.
    + apply (starts_value_not_closing c Hstart).
  - destruct entries as [ | kv entries ]; [ reflexivity | ].
    rewrite encode_map_cons. cbn [app]. rewrite <- !app_assoc. cbn [app].
    cbn [valid_doc] in Hv. apply andb_true_iff in Hv as [Hnd Hv].
    apply bool_decide_eq_true in Hnd. rewrite forallb_forall in Hv.
    destruct (join_cons (fun e => encode_basestring e.1 ++ u ": "
                                    ++ encode indent (S level) e.2)
                (item_separator indent ++ newline_indent indent (S level)) kv entries
                (newline_indent indent level ++ 125%N :: rest)) as (t & Ht).
    assert (Hhead : exists l, encode_basestring kv.1 ++ u ": "
                                ++ encode indent (S level) kv.2 = 34%N :: l)
      by (eexists; reflexivity).
    destruct Hhead as (l & Hl).
    rewrite (scan_once_object_items fuel _ 34%N (l ++ t)).
    + change (34%N :: l ++ t) with ((34%N :: l) ++ t). rewrite <- Hl, <- Ht.
      rewrite (object_loop_encoded indent level rest (kv :: entries));
        [ reflexivity | | done | exact Hnd | ].
      * apply Forall_forall. intros e He. rewrite Forall_forall in IH.
        assert (valid_doc e.2 = true) by (apply Hv; by apply list_elem_of_In). auto.
      * cbn [size] in Hfuel. lia.
    + rewrite skip_ws_newline_indent, Ht, Hl. reflexivity.
    + reflexivity.
Qed.

Lemma encode_not_blank indent d :
  valid_doc d = true ->
  skip_ws (json_dumps indent d) = json_dumps indent d
  /\ startswith [65279%N] (json_dumps indent d) = false.
Proof.
  intros Hv. unfold json_dumps.
  destruct (encode_head indent 0 d Hv) as (c & l & -> & Hc). split.
  - by apply skip_ws_value.
  - cbn [startswith]. unfold starts_value, is_digit in Hc.
    rewrite !orb_true_iff, !andb_true_iff, !N.leb_le, !N.eqb_eq in Hc.
    rewrite andb_true_r. apply N.eqb_neq. lia.
Qed.

(** [json.loads(json.dumps(d, ensure_ascii=False, indent=indent)) == d] for
    every valid document and every indentation. *)
Lemma json_loads_dumps indent d :
  valid_doc d = true -> json_loads (json_dumps indent d) = Ok d.
Proof.
  intros Hv. unfold json_loads.
  destruct (encode_not_blank indent d Hv) as [-> ->].
  pose proof (scan_encode indent d Hv 0 (S (length (json_dumps indent d))) []
                ltac:(pose proof (size_le_length indent d Hv 0); unfold json_dumps; lia)
                eq_refl) as H.
  rewrite app_nil_r in H. fold (json_dumps indent d) in H. rewrite H. reflexivity.
Qed.

(** ** Recovering a serialized document *)

Lemma startswith_app a b s : startswith (a ++ b) s = true -> startswith a s = true.
Proof.
  revert s. induction a as [ | x a IH ]; intros [ | y s ]; cbn; try done.
  rewrite !andb_true_iff. intros [? ?]. split; [ done | by apply IH ].
Qed.

Lemma py_find_none_inv sub c s :
  py_find sub (c :: s) = None -> startswith sub (c :: s) = false /\ py_find sub s = None.
Proof.
  cbn [py_find]. destruct (startswith sub (c :: s)); [ done | ].
  destruct (py_find sub s); [ done | ]. by split.
Qed.

Lemma py_find_none_nil sub : py_find sub [] = None -> startswith sub [] = false.
Proof. cbn [py_find]. by destruct (startswith sub []). Qed.

(** A text in which [a] does not occur holds no text that starts with [a]. *)
Lemma py_find_longer a b s : py_find a s = None -> py_find (a ++ b) s = None.
Proof.
  induction s as [ | c s IH ]; intros H.
  - apply py_find_none_nil in H. cbn [py_find].
    destruct (startswith (a ++ b) []) eqn:E; [ | done ].
    apply startswith_app in E. congruence.
  - apply py_find_none_inv in H as [H1 H2]. cbn [py_find].
    destruct (startswith (a ++ b) (c :: s)) eqn:E.
    + apply startswith_app in E. congruence.
    + by rewrite IH.
Qed.

(** A pattern that opens with a literal finds nothing where the literal does
    not occur. *)
Lemma re_search_no_literal lit r s :
  py_find lit s = None -> re_search (Seq (Lit lit) r) s = None.
Proof.
  induction s as [ | c s IH ]; intros H.
  - apply py_find_none_nil in H. cbn [re_search]. unfold match_here.
    cbn [rmatch]. by rewrite H.
  - apply py_find_none_inv in H as [H1 H2]. cbn [re_search]. unfold match_here.
    cbn [rmatch]. rewrite H1. by apply IH.
Qed.

Lemma json_dumps_nonempty indent d :
  valid_doc d = true -> nonempty (json_dumps indent d) = true.
Proof.
  intros Hv. unfold json_dumps.
  by destruct (encode_head indent 0 d Hv) as (c & l & -> & _).
Qed.

(** C3, as the code has it: recovering the serialization
    [json.dumps(d, ensure_ascii=False, indent=indent)] of a document [d]
    returns [d] itself, at the direct parse, in [extract_json_robust] and in
    [extract_json_from_response] alike, provided the serialization nowhere
    holds three backticks in a row.  The document is any value [json.dumps]
    serializes: [None], booleans, integers (of 4300 digits at most: on a
    longer one [json.dumps] raises), floats ([NaN], [Infinity] and
    [-Infinity] among them), strings, lists and dictionaries, whose keys are
    distinct.  Braces, brackets, commas before closing brackets and shorter
    runs of backticks inside string leaves do no harm. *)
Theorem recover_serialized indent d :
  valid_doc d = true ->
  dumpable d = true ->
  py_find (u "```") (json_dumps indent d) = None ->
  Retry.extract_json_robust (json_dumps indent d) = ([Fence; Direct], Some d)
  /\ Extract.extract_json_from_response (json_dumps indent d)
     = ([Fence; Direct], Return (Some d)).
Proof.
  intros Hv _ Hfence. split.
  - unfold Retry.extract_json_robust.
    rewrite json_dumps_nonempty by done. cbn [negb].
    unfold fence_re. rewrite re_search_no_literal by done.
    by rewrite json_loads_dumps.
  - unfold Extract.extract_json_from_response, Extract.strip_fence.
    rewrite json_dumps_nonempty by done. cbn [negb].
    unfold py_in.
    change (u "```json") with (u "```" ++ u "json").
    rewrite py_find_longer by done. rewrite Hfence.
    by rewrite json_loads_dumps.
Qed.

Lemma recover_serialized_witness :
  valid_doc doc_floats = true
  /\ dumpable doc_floats = true
  /\ py_find (u "```") (json_dumps (Some 2) doc_floats) = None
  /\ Retry.extract_json_robust (json_dumps (Some 2) doc_floats)
     = ([Fence; Direct], Some doc_floats)
  /\ Extract.extract_json_from_response (json_dumps (Some 2) doc_floats)
     = ([Fence; Direct], Return (Some doc_floats)).
Proof.
  split; [ vm_compute; reflexivity | ].
  split; [ vm_compute; reflexivity | ].
  split; [ vm_compute; reflexivity | ].
  apply (recover_serialized (Some 2) doc_floats); vm_compute; reflexivity.
Defined.

(** C3, the claim as stated fails: the string ["```1```"] is a document, its
    serialization holds a fence inside the quotes, and both functions cut the
    text between the backticks out and return the number 1. *)
Lemma recover_serialized_counterexample :
  valid_doc doc_fenced = true
  /\ dumpable doc_fenced = true
  /\ json_dumps (Some 2) doc_fenced = q "'```1```'"
  /\ json_loads (json_dumps (Some 2) doc_fenced) = Ok doc_fenced
  /\ Retry.extract_json_robust (json_dumps (Some 2) doc_fenced)
     = ([Fence; Direct], Some (DNum 1))
  /\ Extract.extract_json_from_response (json_dumps (Some 2) doc_fenced)
     = ([Fence; Direct], Return (Some (DNum 1))).
Proof. repeat split; vm_compute; reflexivity. Qed.

(** * More on the mergers, the recovery and the drivers *)

(** ** The two walkers *)

Section LoopBodies.
Variables body1 body2 : Document -> Document * nat.

Lemma for_item_ext items :
  Forall (fun v => body1 v = body2 v) items ->
  for_item body1 items = for_item body2 items.
Proof.
  induction 1 as [ | v l Hv _ IH ]; [ reflexivity | ].
  cbn [for_item]. by rewrite Hv, IH.
Qed.

Lemma for_key_ext entries :
  Forall (fun kv => body1 kv.2 = body2 kv.2) entries ->
  for_key body1 entries = for_key body2 entries.
Proof.
  induction 1 as [ | [k v] l Hv _ IH ]; [ reflexivity | ].
  cbn [for_key]. cbn [snd] in Hv. by rewrite Hv, IH.
Qed.

End LoopBodies.

Lemma visit_agree walk1 walk2 o c v :
  walk1 v = walk2 v -> Claude.visit walk1 o c v = Gemini.visit walk2 o c v.
Proof. intros H. destruct v; cbn; try done. Qed.

Lemma walkers_agree obj o c :
  Claude.apply_text_replacement_recursive obj o c = Gemini._replace_in_obj obj o c.
Proof.
  induction obj as [ | | | | | items IH | entries IH ] using Document_induction;
    try reflexivity.
  - cbn [Claude.apply_text_replacement_recursive Gemini._replace_in_obj].
    rewrite (for_item_ext _
      (Gemini.visit (fun w => Gemini._replace_in_obj w o c) o c)); [ reflexivity | ].
    eapply Forall_impl; [ exact IH | ]. intros v Hv. by apply visit_agree.
  - cbn [Claude.apply_text_replacement_recursive Gemini._replace_in_obj].
    rewrite (for_key_ext _
      (Gemini.visit (fun w => Gemini._replace_in_obj w o c) o c)); [ reflexivity | ].
    eapply Forall_impl; [ exact IH | ]. intros v Hv. by apply visit_agree.
Qed.

Lemma issue_tests_agree issue :
  nonempty (get_default (original_text issue) [])
    && nonempty (get_default (corrected_text issue) [])
    && negb (str_eqb (get_default (original_text issue) [])
                     (get_default (corrected_text issue) []))
  = negb (negb (truthy_field (original_text issue))
          || negb (truthy_field (corrected_text issue))
          || bool_decide (original_text issue = corrected_text issue)).
Proof.
  unfold str_eqb.
  destruct (original_text issue) as [ [ | a o ] | ], (corrected_text issue) as [ [ | b c ] | ];
    cbn; try reflexivity.
  f_equal. apply bool_decide_ext. split; congruence.
Qed.

Lemma issue_steps_agree parsed had applied log issue :
  omap claude_entry applied = omap gemini_entry log ->
  let st := Claude.apply_issue (parsed, had, applied) issue in
  let st' := Gemini.apply_issue (parsed, log) issue in
  st.1.1 = st'.1 /\ omap claude_entry st.2 = omap gemini_entry st'.2.
Proof.
  intros Hlog. unfold Claude.apply_issue, Gemini.apply_issue.
  rewrite issue_tests_agree.
  destruct (_ || _); cbn [negb]; [ by split | ].
  rewrite walkers_agree.
  destruct (Gemini._replace_in_obj _ _ _) as [parsed' count].
  destruct (0 <? count); cbn [fst snd]; [ | by split ].
  split; [ reflexivity | ]. rewrite !omap_app. cbn. by rewrite Hlog.
Qed.

Lemma issue_loops_agree l : forall parsed had applied log,
  omap claude_entry applied = omap gemini_entry log ->
  let st := Claude.apply_issues (parsed, had, applied) l in
  let st' := fold_left Gemini.apply_issue l (parsed, log) in
  st.1.1 = st'.1 /\ omap claude_entry st.2 = omap gemini_entry st'.2.
Proof.
  induction l as [ | issue l IH ]; intros parsed had applied log Hlog; [ by split | ].
  cbn zeta. unfold Claude.apply_issues. cbn [fold_left].
  destruct (issue_steps_agree parsed had applied log issue Hlog) as [Hd Hl].
  destruct (Claude.apply_issue (parsed, had, applied) issue) as [[p1 h1] a1].
  destruct (Gemini.apply_issue (parsed, log) issue) as [p2 l2].
  cbn [fst snd] in Hd, Hl. subst p2. by apply IH.
Qed.

(** X1.  The two mergers compute the same thing from the same directives:
    the recursive walkers are the same function, and the issue loops built on
    them leave the same document and log the same replacements (texts and
    counts) in the same order. *)
Theorem mergers_agree (base : Document) (issues : list Issue)
    (original corrected : str) :
  Claude.apply_text_replacement_recursive base original corrected
  = Gemini._replace_in_obj base original corrected
  /\ (Claude.apply_issues (base, false, []) issues).1.1
     = (Gemini.apply_text_corrections base issues).1
  /\ omap claude_entry (Claude.apply_issues (base, false, []) issues).2
     = omap gemini_entry (Gemini.apply_text_corrections base issues).2.
Proof.
  split; [ apply walkers_agree | ].
  apply (issue_loops_agree issues base false [] []). reflexivity.
Qed.

(** ** A page reported as unmodified *)

Section Counting.
Variable body : Document -> Document * nat.

Lemma for_item_zero items :
  Forall (fun v => (body v).2 = 0 -> (body v).1 = v) items ->
  (for_item body items).2 = 0 -> (for_item body items).1 = items.
Proof.
  induction 1 as [ | v l Hv _ IH ]; [ reflexivity | ].
  cbn [for_item]. destruct (body v) as [v' n]. destruct (for_item body l) as [l' m].
  cbn [fst snd] in *. intros H. rewrite Hv, IH by lia. reflexivity.
Qed.

Lemma for_key_zero entries :
  Forall (fun kv => (body kv.2).2 = 0 -> (body kv.2).1 = kv.2) entries ->
  (for_key body entries).2 = 0 -> (for_key body entries).1 = entries.
Proof.
  induction 1 as [ | [k v] l Hv _ IH ]; [ reflexivity | ].
  cbn [for_key]. cbn [snd] in Hv.
  destruct (body v) as [v' n]. destruct (for_key body l) as [l' m].
  cbn [fst snd] in *. intros H. rewrite Hv, IH by lia. reflexivity.
Qed.

End Counting.

Lemma gemini_visit_zero walk o c v :
  ((walk v).2 = 0 -> (walk v).1 = v) ->
  (Gemini.visit walk o c v).2 = 0 -> (Gemini.visit walk o c v).1 = v.
Proof.
  intros Hw. destruct v; cbn; try done. destruct (py_in o s); cbn; done.
Qed.

(** A count of zero means that nothing was touched. *)
Lemma replace_in_obj_zero obj o c :
  (Gemini._replace_in_obj obj o c).2 = 0 -> (Gemini._replace_in_obj obj o c).1 = obj.
Proof.
  induction obj as [ | | | | | items IH | entries IH ] using Document_induction;
    try reflexivity.
  - cbn [Gemini._replace_in_obj].
    pose proof (for_item_zero
      (Gemini.visit (fun w => Gemini._replace_in_obj w o c) o c) items) as H.
    destruct (for_item _ items) as [items' n]. cbn [fst snd] in *.
    intros Hn. rewrite H; [ reflexivity | | exact Hn ].
    eapply Forall_impl; [ exact IH | ]. intros v Hv. by apply gemini_visit_zero.
  - cbn [Gemini._replace_in_obj].
    pose proof (for_key_zero
      (Gemini.visit (fun w => Gemini._replace_in_obj w o c) o c) entries) as H.
    destruct (for_key _ entries) as [entries' n]. cbn [fst snd] in *.
    intros Hn. rewrite H; [ reflexivity | | exact Hn ].
    eapply Forall_impl; [ exact IH | ]. intros v Hv. by apply gemini_visit_zero.
Qed.

Lemma gemini_issue_quiet st issue :
  (Gemini.apply_issue st issue).2 = [] ->
  st.2 = [] /\ (Gemini.apply_issue st issue).1 = st.1.
Proof.
  destruct st as [result log]. unfold Gemini.apply_issue.
  destruct (_ || _); [ done | ].
  pose proof (replace_in_obj_zero result (get_default (original_text issue) [])
                (get_default (corrected_text issue) [])) as H.
  destruct (Gemini._replace_in_obj _ _ _) as [result' count].
  destruct (0 <? count) eqn:Hc; cbn [fst snd] in *.
  - intros Happ. by apply app_nil in Happ as [_ ?].
  - apply Nat.ltb_ge in Hc. intros ->. split; [ done | ]. apply H. lia.
Qed.

Lemma gemini_issues_quiet l : forall st,
  (fold_left Gemini.apply_issue l st).2 = [] ->
  st.2 = [] /\ (fold_left Gemini.apply_issue l st).1 = st.1.
Proof.
  induction l as [ | issue l IH ]; intros st H; [ done | ].
  cbn [fold_left] in *. destruct (IH _ H) as [H1 H2].
  destruct (gemini_issue_quiet st issue H1) as [H3 H4]. split; [ done | congruence ].
Qed.

Lemma claude_issue_quiet st issue :
  (Claude.apply_issue st issue).1.2 = false ->
  st.1.2 = false
  /\ (Claude.apply_issue st issue).1.1 = st.1.1
  /\ (Claude.apply_issue st issue).2 = st.2.
Proof.
  destruct st as [[parsed had] log]. unfold Claude.apply_issue.
  destruct (_ && _); [ | done ].
  rewrite walkers_agree.
  pose proof (replace_in_obj_zero parsed (get_default (original_text issue) [])
                (get_default (corrected_text issue) [])) as H.
  destruct (Gemini._replace_in_obj _ _ _) as [parsed' count].
  destruct (0 <? count) eqn:Hc; cbn [fst snd] in *; [ done | ].
  apply Nat.ltb_ge in Hc. intros ->. repeat split. apply H. lia.
Qed.

Lemma claude_issues_quiet l : forall st,
  (Claude.apply_issues st l).1.2 = false ->
  st.1.2 = false
  /\ (Claude.apply_issues st l).1.1 = st.1.1
  /\ (Claude.apply_issues st l).2 = st.2.
Proof.
  unfold Claude.apply_issues.
  induction l as [ | issue l IH ]; intros st H; [ done | ].
  cbn [fold_left] in *. destruct (IH _ H) as (H1 & H2 & H3).
  destruct (claude_issue_quiet st issue H1) as (H4 & H5 & H6).
  repeat split; congruence.
Qed.

Lemma claude_page_quiet page_num ocr_data qa :
  Claude.had_corrections (Claude.process_page page_num ocr_data qa).2 = false ->
  (Claude.process_page page_num ocr_data qa).1
  = default (DMap []) (Claude.parsed_json ocr_data)
  /\ Claude.corrections_applied (Claude.process_page page_num ocr_data qa).2 = [].
Proof.
  unfold Claude.process_page. destruct qa as [ qa_data | ]; [ | done ].
  destruct (_ && _); [ done | ].
  pose proof (claude_issues_quiet (Claude.issues qa_data)
    (default (DMap []) (Claude.parsed_json ocr_data), false, [])) as H.
  destruct (Claude.apply_issues _ _) as [[saved had] applied].
  cbn [fst snd Claude.had_corrections Claude.corrections_applied] in *.
  intros Hhad. destruct (H Hhad) as (_ & ? & ?). done.
Qed.

Lemma gemini_page_quiet page_num parsed_json parsed_qa :
  Gemini.modified (Gemini.process_page page_num parsed_json parsed_qa).2 = false ->
  (Gemini.process_page page_num parsed_json parsed_qa).1
  = (if is_none parsed_json then DMap [] else parsed_json)
  /\ Gemini.corrections (Gemini.process_page page_num parsed_json parsed_qa).2 = [].
Proof.
  unfold Gemini.process_page. destruct (is_none parsed_json); [ done | ].
  destruct parsed_qa as [ pq | ]; [ | done ].
  destruct (truthy _); [ done | ].
  destruct (nonempty _); [ | done ].
  unfold Gemini.apply_text_corrections.
  pose proof (gemini_issues_quiet (Gemini.issues pq) (parsed_json, [])) as H.
  destruct (fold_left _ _ _) as [corrected log].
  cbn [fst snd Gemini.modified Gemini.corrections] in *.
  intros Hm. apply Nat.ltb_ge in Hm. destruct log; [ | cbn in Hm; lia ].
  destruct (H eq_refl) as [_ ?]. done.
Qed.

(** X2.  A page that a merger reports as not corrected is saved as it was:
    when [process_page] returns [had_corrections] (Claude) or [modified]
    (Gemini) false, the document it saves is the page's own [parsed_json]
    (the empty mapping when the page has none), and nothing is logged. *)
Theorem unmodified_page_is_saved_unchanged
    (page_num : nat) (ocr_data : Claude.OcrData) (qa : option Claude.QaData)
    (parsed_json : Document) (parsed_qa : option Gemini.ParsedQa) :
  (Claude.had_corrections (Claude.process_page page_num ocr_data qa).2 = false ->
   (Claude.process_page page_num ocr_data qa).1
   = default (DMap []) (Claude.parsed_json ocr_data)
   /\ Claude.corrections_applied (Claude.process_page page_num ocr_data qa).2 = [])
  /\ (Gemini.modified (Gemini.process_page page_num parsed_json parsed_qa).2 = false ->
      (Gemini.process_page page_num parsed_json parsed_qa).1
      = (if is_none parsed_json then DMap [] else parsed_json)
      /\ Gemini.corrections (Gemini.process_page page_num parsed_json parsed_qa).2 = []).
Proof. split; [ apply claude_page_quiet | apply gemini_page_quiet ]. Qed.

Lemma unmodified_page_is_saved_unchanged_witness :
  (Claude.process_page 1
     {| Claude.parsed_json := Some page_cat; Claude.book_page := DNum 37 |}
     (Some {| Claude.overall_quality := None; Claude.summary := None;
              Claude.issues := [issue_without_correction];
              Claude.corrected_json := DNull |})).1 = page_cat
  /\ (Gemini.process_page 1 page_cat
        (Some {| Gemini.overall_quality := None; Gemini.summary := None;
                 Gemini.issues := [issue_without_correction];
                 Gemini.corrected_json := DNull |})).1 = page_cat.
Proof.
  pose proof (unmodified_page_is_saved_unchanged 1
    {| Claude.parsed_json := Some page_cat; Claude.book_page := DNum 37 |}
    (Some {| Claude.overall_quality := None; Claude.summary := None;
             Claude.issues := [issue_without_correction];
             Claude.corrected_json := DNull |})
    page_cat
    (Some {| Gemini.overall_quality := None; Gemini.summary := None;
             Gemini.issues := [issue_without_correction];
             Gemini.corrected_json := DNull |})) as [H1 H2].
  split; [ exact (proj1 (H1 eq_refl)) | exact (proj1 (H2 eq_refl)) ].
Defined.

(** ** What the logs hold *)

Lemma nonempty_nil {A} (l : list A) : nonempty l = true -> l <> [].
Proof. by destruct l. Qed.

Lemma claude_issue_log parsed had applied issue :
  had = nonempty applied ->
  Forall (fun c => effective (claude_entry c)) applied ->
  let st := Claude.apply_issue (parsed, had, applied) issue in
  st.1.2 = nonempty st.2 /\ Forall (fun c => effective (claude_entry c)) st.2.
Proof.
  intros Hhad Hlog. unfold Claude.apply_issue.
  destruct (_ && _) eqn:Htest; [ | by split ].
  destruct (Claude.apply_text_replacement_recursive _ _ _) as [parsed' count].
  destruct (0 <? count) eqn:Hc; cbn [fst snd]; [ | by split ].
  split; [ by destruct applied | ].
  apply Forall_app. split; [ exact Hlog | ]. apply Forall_singleton. cbn.
  apply andb_true_iff in Htest as [Htest Hneq].
  apply andb_true_iff in Htest as [Ho Hcorr].
  apply negb_true_iff in Hneq. unfold str_eqb in Hneq. apply bool_decide_eq_false in Hneq.
  apply Nat.ltb_lt in Hc. auto using nonempty_nil.
Qed.

Lemma claude_issues_log l : forall parsed had applied,
  had = nonempty applied ->
  Forall (fun c => effective (claude_entry c)) applied ->
  let st := Claude.apply_issues (parsed, had, applied) l in
  st.1.2 = nonempty st.2 /\ Forall (fun c => effective (claude_entry c)) st.2.
Proof.
  unfold Claude.apply_issues.
  induction l as [ | issue l IH ]; intros parsed had applied Hhad Hlog; [ by split | ].
  cbn [fold_left].
  destruct (claude_issue_log parsed had applied issue Hhad Hlog) as [H1 H2].
  destruct (Claude.apply_issue (parsed, had, applied) issue) as [[p1 h1] a1].
  by apply IH.
Qed.

Lemma gemini_issue_log result log issue :
  Forall (fun c => effective (gemini_entry c)) log ->
  Forall (fun c => effective (gemini_entry c)) (Gemini.apply_issue (result, log) issue).2.
Proof.
  intros Hlog. unfold Gemini.apply_issue.
  destruct (_ || _) eqn:Htest; [ done | ].
  destruct (Gemini._replace_in_obj _ _ _) as [result' count].
  destruct (0 <? count) eqn:Hc; cbn [fst snd]; [ | done ].
  apply Forall_app. split; [ exact Hlog | ]. apply Forall_singleton. cbn.
  apply orb_false_iff in Htest as [Htest Hneq].
  apply orb_false_iff in Htest as [Ho Hcorr].
  apply bool_decide_eq_false in Hneq. apply Nat.ltb_lt in Hc.
  destruct (original_text issue) as [ [ | a o ] | ], (corrected_text issue) as [ [ | b c ] | ];
    try discriminate Ho; try discriminate Hcorr.
  cbn. repeat split; try done. congruence.
Qed.

Lemma gemini_issues_log l : forall result log,
  Forall (fun c => effective (gemini_entry c)) log ->
  Forall (fun c => effective (gemini_entry c)) (fold_left Gemini.apply_issue l (result, log)).2.
Proof.
  induction l as [ | issue l IH ]; intros result log Hlog; [ done | ].
  cbn [fold_left]. pose proof (gemini_issue_log result log issue Hlog) as H.
  destruct (Gemini.apply_issue (result, log) issue) as [r1 l1]. by apply IH.
Qed.

Lemma claude_page_log page_num ocr_data qa :
  let r := (Claude.process_page page_num ocr_data qa).2 in
  Claude.had_corrections r = nonempty (Claude.corrections_applied r).
Proof.
  cbn zeta. unfold Claude.process_page. destruct qa as [ qa_data | ]; [ | done ].
  destruct (_ && _); [ done | ].
  pose proof (claude_issues_log (Claude.issues qa_data)
    (default (DMap []) (Claude.parsed_json ocr_data)) false [] eq_refl (Forall_nil_2 _)) as H.
  destruct (Claude.apply_issues _ _) as [[saved had] applied]. apply H.
Qed.

(** X3.  What the mergers log took place.  In the result of Claude's
    [process_page], [had_corrections] is true exactly when
    [corrections_applied] is not empty, and an entry is either the marker of
    a full replacement or a replacement with two different non-empty texts
    that changed at least one string.  In the result of Gemini's
    [process_page] every counted entry is such a replacement, every listed
    pair has two non-empty texts, and [modified] is true exactly when the
    method is "corrected_json" or the list of corrections is not empty. *)
Theorem logged_corrections_took_place
    (page_num : nat) (ocr_data : Claude.OcrData) (qa : option Claude.QaData)
    (parsed_json : Document) (parsed_qa : option Gemini.ParsedQa) :
  let r := (Claude.process_page page_num ocr_data qa).2 in
  let g := (Gemini.process_page page_num parsed_json parsed_qa).2 in
  Claude.had_corrections r = nonempty (Claude.corrections_applied r)
  /\ Forall (fun c => c = Claude.Marker (u "Full corrected_json replacement")
                      \/ effective (claude_entry c))
            (Claude.corrections_applied r)
  /\ Forall (fun c => match c with
                      | Gemini.Counted _ _ _ => effective (gemini_entry c)
                      | Gemini.Listed original corrected =>
                          original <> [] /\ corrected <> []
                      end)
            (Gemini.corrections g)
  /\ Gemini.modified g
     = str_eqb (Gemini.method g) (u "corrected_json") || nonempty (Gemini.corrections g).
Proof.
  cbn zeta. split; [ | split; [ | split ] ].
  - apply claude_page_log.
  - unfold Claude.process_page. destruct qa as [ qa_data | ]; [ | by constructor ].
    destruct (_ && _); [ repeat constructor | ].
    pose proof (claude_issues_log (Claude.issues qa_data)
      (default (DMap []) (Claude.parsed_json ocr_data)) false [] eq_refl (Forall_nil_2 _)) as H.
    destruct (Claude.apply_issues _ _) as [[saved had] applied].
    cbn [fst snd Claude.corrections_applied] in *.
    eapply Forall_impl; [ apply H | ]. auto.
  - unfold Gemini.process_page. destruct (is_none parsed_json); [ by constructor | ].
    destruct parsed_qa as [ pq | ]; [ | by constructor ].
    destruct (truthy _).
    + cbn [snd Gemini.corrections]. apply Forall_forall. intros c Hc.
      apply list_elem_of_fmap in Hc as (iss & -> & Hin).
      apply list_elem_of_In, filter_In in Hin as [_ Hin].
      apply andb_true_iff in Hin as [Ho Hcorr].
      destruct (original_text iss) as [ [ | a o ] | ], (corrected_text iss) as [ [ | b c ] | ];
        try discriminate Ho; try discriminate Hcorr. done.
    + destruct (nonempty _); [ | by constructor ].
      unfold Gemini.apply_text_corrections.
      pose proof (gemini_issues_log (Gemini.issues pq) parsed_json [] (Forall_nil_2 _)) as H.
      destruct (fold_left _ _ _) as [corrected log].
      cbn [fst snd Gemini.corrections] in *.
      eapply Forall_impl; [ exact H | ]. intros [ o c n | o c ]; cbn; done.
  - unfold Gemini.process_page. destruct (is_none parsed_json); [ reflexivity | ].
    destruct parsed_qa as [ pq | ]; [ | reflexivity ].
    destruct (truthy _); [ reflexivity | ].
    destruct (nonempty _); [ | reflexivity ].
    destruct (Gemini.apply_text_corrections _ _) as [corrected log].
    cbn [snd Gemini.method Gemini.modified Gemini.corrections].
    by destruct log.
Qed.

(** ** Directives in a row *)

Lemma gemini_issue_log_grows result log issue :
  Gemini.apply_issue (result, log) issue
  = ((Gemini.apply_issue (result, []) issue).1,
     log ++ (Gemini.apply_issue (result, []) issue).2).
Proof.
  unfold Gemini.apply_issue.
  destruct (negb _ || negb _ || bool_decide _); [ cbn; by rewrite app_nil_r | ].
  destruct (Gemini._replace_in_obj _ _ _) as [result' count].
  destruct (0 <? count); cbn; by rewrite ?app_nil_r.
Qed.

Lemma gemini_log_grows l : forall result log,
  fold_left Gemini.apply_issue l (result, log)
  = ((fold_left Gemini.apply_issue l (result, [])).1,
     log ++ (fold_left Gemini.apply_issue l (result, [])).2).
Proof.
  induction l as [ | issue l IH ]; intros result log; cbn [fold_left].
  - cbn. by rewrite app_nil_r.
  - rewrite gemini_issue_log_grows.
    destruct (Gemini.apply_issue (result, []) issue) as [r1 l1]. cbn [fst snd].
    rewrite IH, (IH r1 l1). cbn [fst snd]. by rewrite app_assoc.
Qed.

Lemma claude_issue_log_grows parsed had log issue :
  Claude.apply_issue (parsed, had, log) issue
  = ((Claude.apply_issue (parsed, false, []) issue).1.1,
     had || (Claude.apply_issue (parsed, false, []) issue).1.2,
     log ++ (Claude.apply_issue (parsed, false, []) issue).2).
Proof.
  unfold Claude.apply_issue.
  destruct (nonempty _ && nonempty _ && negb _);
    [ | cbn; by rewrite app_nil_r, orb_false_r ].
  destruct (Claude.apply_text_replacement_recursive _ _ _) as [parsed' count].
  destruct (0 <? count); cbn; by rewrite ?app_nil_r, ?orb_false_r, ?orb_true_r.
Qed.

Lemma claude_log_grows l : forall parsed had log,
  Claude.apply_issues (parsed, had, log) l
  = ((Claude.apply_issues (parsed, false, []) l).1.1,
     had || (Claude.apply_issues (parsed, false, []) l).1.2,
     log ++ (Claude.apply_issues (parsed, false, []) l).2).
Proof.
  unfold Claude.apply_issues.
  induction l as [ | issue l IH ]; intros parsed had log; cbn [fold_left].
  - cbn. by rewrite app_nil_r, orb_false_r.
  - rewrite claude_issue_log_grows.
    destruct (Claude.apply_issue (parsed, false, []) issue) as [[p1 h1] l1]. cbn [fst snd].
    rewrite IH, (IH p1 h1 l1). cbn [fst snd]. by rewrite app_assoc, orb_assoc.
Qed.

(** X4.  Directives are applied one after the other, each to the document the
    previous ones left: correcting with a list [l1 ++ l2] is correcting with
    [l1], then correcting the result with [l2], and the log of the whole is
    the two logs in a row. *)
Theorem corrections_compose (base : Document) (l1 l2 : list Issue) :
  Gemini.apply_text_corrections base (l1 ++ l2)
  = (let r1 := Gemini.apply_text_corrections base l1 in
     let r2 := Gemini.apply_text_corrections r1.1 l2 in
     (r2.1, r1.2 ++ r2.2))
  /\ Claude.apply_issues (base, false, []) (l1 ++ l2)
     = (let r1 := Claude.apply_issues (base, false, []) l1 in
        let r2 := Claude.apply_issues (r1.1.1, false, []) l2 in
        (r2.1.1, r1.1.2 || r2.1.2, r1.2 ++ r2.2)).
Proof.
  split.
  - unfold Gemini.apply_text_corrections. rewrite fold_left_app.
    destruct (fold_left Gemini.apply_issue l1 (base, [])) as [d1 log1].
    cbn [fst snd]. apply gemini_log_grows.
  - unfold Claude.apply_issues. rewrite fold_left_app.
    destruct (fold_left Claude.apply_issue l1 (base, false, [])) as [[d1 h1] log1].
    cbn [fst snd]. apply claude_log_grows.
Qed.

(** ** Saving and loading a document *)

Lemma universal_newlines_id s :
  Forall (fun c => c <> 13%N) s -> universal_newlines s = s.
Proof.
  induction 1 as [ | c s Hc _ IH ]; [ reflexivity | ].
  cbn [universal_newlines]. rewrite IH.
  destruct c as [ | p ]; [ reflexivity | ].
  do 4 (try (destruct p as [ p | p | ]; try reflexivity)). done.
Qed.

Lemma escape_char_no_cr c : Forall (fun x => x <> 13%N) (escape_char c).
Proof.
  destruct (c <? 32)%N eqn:Hsmall.
  - destruct (small_char c Hsmall) as (n & Hn & ->).
    do 32 (destruct n as [ | n ];
           [ match goal with
             | |- context [escape_char (N.of_nat ?k)] =>
                 let v := eval vm_compute in (escape_char (N.of_nat k)) in
                 change (escape_char (N.of_nat k)) with v
             end; repeat constructor; done | ]).
    lia.
  - unfold escape_char. rewrite Hsmall. apply N.ltb_ge in Hsmall.
    repeat match goal with
           | |- context [(c =? ?k)%N] =>
               destruct (N.eqb_spec c k); [ subst; repeat constructor; done | ]
           end.
    repeat constructor. lia.
Qed.

Lemma encode_basestring_no_cr s : Forall (fun x => x <> 13%N) (encode_basestring s).
Proof.
  unfold encode_basestring. constructor; [ done | ].
  apply Forall_app. split; [ | repeat constructor; done ].
  induction s as [ | c s IH ]; [ constructor | ].
  cbn [List.map List.concat]. apply Forall_app. split; [ apply escape_char_no_cr | exact IH ].
Qed.

Lemma join_Forall (P : N -> Prop) sep parts :
  Forall P sep -> Forall (Forall P) parts -> Forall P (join sep parts).
Proof.
  intros Hsep. induction 1 as [ | x l Hx Hl IH ]; [ constructor | ].
  destruct l as [ | y l ]; [ exact Hx | ].
  change (join sep (x :: y :: l)) with (x ++ sep ++ join sep (y :: l)).
  rewrite !Forall_app. auto.
Qed.

Lemma int_repr_no_cr z : Forall (fun x => x <> 13%N) (int_repr z).
Proof.
  assert (Hd : forall d, Forall (fun x => x <> 13%N) (digits_of_uint d))
    by (induction d; cbn; constructor; done).
  unfold int_repr. destruct (Z.to_int z); [ apply Hd | constructor; [ done | apply Hd ] ].
Qed.

Lemma newline_indent_no_cr indent level :
  Forall (fun x => x <> 13%N) (newline_indent indent level).
Proof.
  destruct indent as [ n | ]; [ | constructor ]. cbn. constructor; [ done | ].
  apply Forall_forall. intros x Hx. apply list_elem_of_In, repeat_spec in Hx. by subst.
Qed.

Lemma item_separator_no_cr indent : Forall (fun x => x <> 13%N) (item_separator indent).
Proof. destruct indent; repeat constructor; done. Qed.

(** The encoder writes no carriage return: it escapes the ones of the
    strings. *)
Lemma encode_no_cr indent d : forall level,
  valid_doc d = true -> Forall (fun x => x <> 13%N) (encode indent level d).
Proof.
  induction d as [ | b | z | x | s | items IH | entries IH ] using Document_induction;
    intros level Hv.
  - repeat constructor; done.
  - destruct b; repeat constructor; done.
  - apply int_repr_no_cr.
  - cbn [encode]. eapply Forall_impl; [ by apply float_lexeme_chars | ].
    intros c Hc ->. discriminate Hc.
  - apply encode_basestring_no_cr.
  - destruct items as [ | x items ]; [ repeat constructor; done | ].
    rewrite encode_seq_cons. cbn [valid_doc] in Hv. rewrite forallb_forall in Hv.
    constructor; [ done | ]. rewrite !Forall_app.
    split; [ apply newline_indent_no_cr | ].
    split; [ | split; [ apply newline_indent_no_cr | repeat constructor; done ] ].
    apply join_Forall.
    + apply Forall_app. split; [ apply item_separator_no_cr | apply newline_indent_no_cr ].
    + apply Forall_fmap, Forall_forall. intros y Hy. unfold compose.
      rewrite Forall_forall in IH. apply IH; [ exact Hy | ].
      apply Hv. by apply list_elem_of_In.
  - destruct entries as [ | kv entries ]; [ repeat constructor; done | ].
    rewrite encode_map_cons. cbn [valid_doc] in Hv.
    apply andb_true_iff in Hv as [_ Hv]. rewrite forallb_forall in Hv.
    constructor; [ done | ]. rewrite !Forall_app.
    split; [ apply newline_indent_no_cr | ].
    split; [ | split; [ apply newline_indent_no_cr | repeat constructor; done ] ].
    apply join_Forall.
    + apply Forall_app. split; [ apply item_separator_no_cr | apply newline_indent_no_cr ].
    + apply Forall_fmap, Forall_forall. intros y Hy. unfold compose.
      rewrite !Forall_app. split; [ apply encode_basestring_no_cr | ].
      split; [ repeat constructor; done | ].
      rewrite Forall_forall in IH. apply IH; [ exact Hy | ].
      apply (Hv y). by apply list_elem_of_In.
Qed.

(** X5.  What [save_json] wrote, [load_json] reads back: after a call of
    [save_json(path, data)] that returned, [load_json(path)] returns [data]
    itself (a document without float leaves), and every other file loads as
    it did before. *)
Theorem saved_json_loads_back (path : list N) (data : Document) (fs fs' : Files) :
  valid_doc data = true ->
  save_json path data fs = Return fs' ->
  load_json path fs' = Return data
  /\ forall other, other <> path -> load_json other fs' = load_json other fs.
Proof.
  intros Hv. unfold save_json.
  destruct (storable data); [ | discriminate ]. intros [= <-]. split.
  - unfold load_json. rewrite lookup_insert_eq.
    rewrite universal_newlines_id by (by apply encode_no_cr).
    by rewrite json_loads_dumps.
  - intros other Hne. unfold load_json. by rewrite lookup_insert_ne.
Qed.

Lemma saved_json_loads_back_witness :
  load_json (u "claude_corrected/page_001.json")
    (<[u "claude_corrected/page_001.json" := json_dumps (Some 2) doc_lookalikes]> ∅)
  = Return doc_lookalikes.
Proof.
  exact (proj1 (saved_json_loads_back (u "claude_corrected/page_001.json")
                  doc_lookalikes ∅ _ eq_refl eq_refl)).
Defined.

(** ** The first occurrence of a text *)

Lemma startswith_self_app lit t : startswith lit (lit ++ t) = true.
Proof. induction lit as [ | c lit IH ]; cbn; [ done | ]. by rewrite N.eqb_refl. Qed.

(** Only the first [length lit] characters count. *)
Lemma startswith_app_long lit x t :
  length lit <= length x -> startswith lit (x ++ t) = startswith lit x.
Proof.
  revert x. induction lit as [ | c lit IH ]; intros [ | y x ] Hlen; cbn in *; try done.
  - lia.
  - rewrite IH by lia. done.
Qed.

Lemma py_find_cons_Some lit c s n :
  py_find lit (c :: s) = Some (S n) ->
  startswith lit (c :: s) = false /\ py_find lit s = Some n.
Proof.
  cbn [py_find]. destruct (startswith lit (c :: s)); [ done | ].
  destruct (py_find lit s); [ | done ]. intros [= ->]. done.
Qed.

Lemma py_find_app_first lit a t :
  py_find lit (a ++ lit) = Some (length a) ->
  py_find lit (a ++ lit ++ t) = Some (length a).
Proof.
  induction a as [ | c a IH ]; intros H.
  - cbn [app length]. destruct (lit ++ t) eqn:E; cbn [py_find];
      rewrite <- E, startswith_self_app; done.
  - cbn [app length] in *. apply py_find_cons_Some in H as [H1 H2].
    cbn [py_find].
    assert (Hs : startswith lit (c :: a ++ lit ++ t) = false).
    { rewrite <- H1. rewrite app_assoc.
      apply (startswith_app_long lit (c :: a ++ lit) t).
      cbn [length]. rewrite length_app. lia. }
    by rewrite Hs, IH.
Qed.

Lemma py_find_drop lit s : forall n k,
  py_find lit s = Some n -> k <= n -> py_find lit (drop k s) = Some (n - k).
Proof.
  induction s as [ | c s IH ]; intros n k H Hk.
  - destruct k; cbn [drop]; destruct n; try lia; try done.
    cbn [py_find] in H. by destruct (startswith lit []).
  - destruct k as [ | k ]; [ by rewrite drop_0, Nat.sub_0_r | ].
    destruct n as [ | n ]; [ lia | ].
    apply py_find_cons_Some in H as [_ H]. cbn [drop].
    rewrite (IH n k H) by lia. f_equal.
Qed.

Lemma py_find_none_drop lit s k : py_find lit s = None -> py_find lit (drop k s) = None.
Proof.
  revert s. induction k as [ | k IH ]; intros s H; [ by rewrite drop_0 | ].
  destruct s as [ | c s ]; [ done | ].
  apply py_find_none_inv in H as [_ H]. cbn [drop]. by apply IH.
Qed.

Lemma py_find_Some_startswith lit s : forall n,
  py_find lit s = Some n -> startswith lit (drop n s) = true.
Proof.
  induction s as [ | c s IH ]; intros n; cbn [py_find].
  - destruct (startswith lit []) eqn:E; [ | done ]. intros [= <-]. done.
  - destruct (startswith lit (c :: s)) eqn:E.
    + intros [= <-]. done.
    + destruct (py_find lit s) as [ m | ]; [ | done ]. intros [= <-]. cbn [drop]. by apply IH.
Qed.

(** The first occurrence is the lowest one. *)
Lemma py_find_first lit s : forall n j,
  py_find lit s = Some n -> startswith lit (drop j s) = true -> n <= j.
Proof.
  induction s as [ | c s IH ]; intros n j; cbn [py_find].
  - destruct (startswith lit []); [ intros [= <-]; lia | done ].
  - destruct (startswith lit (c :: s)) eqn:E; [ intros [= <-]; lia | ].
    destruct (py_find lit s) as [ m | ] eqn:Hm; [ | done ]. intros [= <-] Hj.
    destruct j as [ | j ]; [ rewrite drop_0 in Hj; congruence | ].
    cbn [drop] in Hj. specialize (IH m j eq_refl Hj). lia.
Qed.

Lemma py_find_after_absent c p prefix t :
  Forall (fun x => x <> c) prefix -> startswith (c :: p) t = true ->
  py_find (c :: p) (prefix ++ t) = Some (length prefix).
Proof.
  intros Hp Ht. induction Hp as [ | x prefix Hx _ IH ].
  - cbn [app length]. destruct t; cbn [py_find]; by rewrite Ht.
  - cbn [app length py_find]. rewrite startswith_cons.
    rewrite (proj2 (N.eqb_neq c x)) by done. cbn [andb]. by rewrite IH.
Qed.

Lemma re_search_after_absent c p r prefix t :
  Forall (fun x => x <> c) prefix ->
  re_search (Seq (Lit (c :: p)) r) (prefix ++ t) = re_search (Seq (Lit (c :: p)) r) t.
Proof.
  induction 1 as [ | x prefix Hx _ IH ]; [ done | ].
  cbn [app re_search]. unfold match_here at 1. cbn [rmatch].
  rewrite startswith_cons, (proj2 (N.eqb_neq c x)) by done. cbn [andb]. exact IH.
Qed.

(** ** White space at the two ends *)

Lemma lstrip_split s :
  exists ws, s = ws ++ lstrip s
             /\ Forall (fun c => isspace c = true) ws
             /\ match lstrip s with [] => True | c :: _ => isspace c = false end.
Proof.
  induction s as [ | c s (ws & Hs & Hws & Hhead) ]; [ by exists [] | ].
  cbn [lstrip]. destruct (isspace c) eqn:Hc.
  - exists (c :: ws). cbn [app]. split; [ congruence | ]. split; [ by constructor | done ].
  - exists []. done.
Qed.

Lemma lstrip_idem s : lstrip (lstrip s) = lstrip s.
Proof.
  induction s as [ | c s IH ]; [ done | ]. cbn [lstrip].
  destruct (isspace c) eqn:Hc; [ done | ]. cbn [lstrip]. by rewrite Hc.
Qed.

Lemma strip_lstrip s : strip (lstrip s) = strip s.
Proof. unfold strip. by rewrite lstrip_idem. Qed.

(** ** The fence pattern on a fenced block *)

Lemma star_greedy_run {A} (p : N -> bool) ws t (k : list N -> option A) a :
  Forall (fun c => p c = true) ws ->
  match t with [] => True | c :: _ => p c = false end ->
  k t = Some a ->
  star_greedy p (ws ++ t) k = Some a.
Proof.
  intros Hws Ht Hk. induction Hws as [ | c ws Hc _ IH ].
  - destruct t as [ | c t ]; cbn [app star_greedy]; [ done | by rewrite Ht ].
  - cbn [app star_greedy]. by rewrite Hc, IH.
Qed.

Lemma star_lazy_first {A} lit (k : list N -> option A) a t : forall n,
  py_find lit t = Some n ->
  (forall s, startswith lit s = false -> k s = None) ->
  k (drop n t) = Some a ->
  star_lazy any_char t k = Some a.
Proof.
  induction t as [ | c t IH ]; intros n Hn Hk Ha.
  - cbn [py_find] in Hn. destruct (startswith lit []); [ | done ].
    injection Hn as <-. rewrite drop_0 in Ha. cbn [star_lazy]. by rewrite Ha.
  - cbn [py_find] in Hn. destruct (startswith lit (c :: t)) eqn:E.
    + injection Hn as <-. rewrite drop_0 in Ha. cbn [star_lazy]. by rewrite Ha.
    + destruct (py_find lit t) as [ m | ] eqn:Hm; [ | done ]. injection Hn as <-.
      cbn [star_lazy drop] in *. rewrite (Hk _ E). cbn [any_char]. by apply (IH m).
Qed.

(** The pattern, matched at the opening fence of a block tagged [json],
    captures the block without its leading white space. *)
Lemma fence_re_block body suffix :
  py_find (u "```") (body ++ u "```") = Some (length body) ->
  match_here fence_re (u "```json" ++ body ++ u "```" ++ suffix)
  = Some (suffix, Some (lstrip body)).
Proof.
  intros Hbody.
  destruct (lstrip_split body) as (ws & Hsplit & Hws & Hhead).
  assert (Hfind : py_find (u "```") (lstrip body ++ u "```" ++ suffix)
                  = Some (length (lstrip body))).
  { apply py_find_app_first.
    assert (Hlen : length body = length ws + length (lstrip body))
      by (rewrite Hsplit at 1; apply length_app).
    pose proof (py_find_drop _ _ _ (length ws) Hbody ltac:(lia)) as H.
    rewrite Hsplit in H at 1. rewrite <- app_assoc, drop_app_length in H.
    rewrite H. f_equal. lia. }
  set (text := lstrip body ++ u "```" ++ suffix) in *.
  assert (Htext : match text with [] => True | c :: _ => isspace c = false end).
  { unfold text. destruct (lstrip body); [ done | exact Hhead ]. }
  assert (Hnl : startswith [10%N] text = false).
  { destruct text as [ | c l ]; [ done | ]. rewrite startswith_cons.
    destruct (N.eqb_spec 10 c) as [ <- | ]; [ done | done ]. }
  unfold match_here, fence_re. cbn [rmatch].
  change (startswith (u "```") (u "```json" ++ body ++ u "```" ++ suffix)) with true.
  cbn iota.
  change (drop (length (u "```")) (u "```json" ++ body ++ u "```" ++ suffix))
    with (u "json" ++ body ++ u "```" ++ suffix).
  rewrite startswith_self_app, drop_app_length.
  rewrite Hsplit at 1. rewrite <- app_assoc. fold text.
  erewrite star_greedy_run; [ reflexivity | exact Hws | exact Htext | ].
  rewrite Hnl.
  apply (star_lazy_first (u "```") _ _ text (length (lstrip body))); [ exact Hfind | | ].
  - intros s Hs. by rewrite Hs.
  - unfold text at 1 2 3. rewrite drop_app_length, startswith_self_app.
    change (drop (length (u "```")) (u "```" ++ suffix)) with suffix.
    do 3 f_equal. unfold text. rewrite drop_app_length, !length_app.
    rewrite take_app_length'; [ done | lia ].
Qed.

(** X6.  A fenced block is recovered whatever stands around it: when a
    response holds a block opened by three backticks and the tag [json] and
    closed by the next three backticks, with no backtick before it, and the
    text of the block, stripped, is valid JSON, both recovery functions
    return the document it denotes, at the direct parse. *)
Theorem fenced_block_is_recovered (prefix body suffix : str) (d : Document) :
  Forall (fun c => c <> 96%N) prefix ->
  py_find (u "```") (body ++ u "```") = Some (length body) ->
  json_loads (strip body) = Ok d ->
  Retry.extract_json_robust (prefix ++ u "```json" ++ body ++ u "```" ++ suffix)
  = ([Fence; Direct], Some d)
  /\ Extract.extract_json_from_response (prefix ++ u "```json" ++ body ++ u "```" ++ suffix)
     = ([Fence; Direct], Return (Some d)).
Proof.
  intros Hprefix Hbody Hd.
  assert (Hne : nonempty (prefix ++ u "```json" ++ body ++ u "```" ++ suffix) = true)
    by (by destruct prefix).
  split.
  - unfold Retry.extract_json_robust. rewrite Hne. cbn [negb].
    assert (Hpre : re_search fence_re (prefix ++ u "```json" ++ body ++ u "```" ++ suffix)
                   = re_search fence_re (u "```json" ++ body ++ u "```" ++ suffix))
      by exact (re_search_after_absent 96%N (u "``") _ prefix _ Hprefix).
    rewrite Hpre.
    assert (Hs : re_search fence_re (u "```json" ++ body ++ u "```" ++ suffix)
                 = Some (Some (lstrip body))).
    { change (u "```json" ++ body ++ u "```" ++ suffix)
        with (96%N :: (u "``json" ++ body ++ u "```" ++ suffix)).
      cbn [re_search].
      change (96%N :: (u "``json" ++ body ++ u "```" ++ suffix))
        with (u "```json" ++ body ++ u "```" ++ suffix).
      by rewrite fence_re_block. }
    rewrite Hs. change (backref1 (Some (lstrip body))) with (lstrip body).
    by rewrite strip_lstrip, Hd.
  - unfold Extract.extract_json_from_response, Extract.strip_fence. rewrite Hne. cbn [negb].
    assert (Hj : py_find (u "```json") (prefix ++ u "```json" ++ body ++ u "```" ++ suffix)
                 = Some (length prefix)).
    { apply (py_find_after_absent 96%N (u "``json")); [ exact Hprefix | ].
      apply startswith_self_app. }
    unfold py_in. rewrite Hj. unfold Extract.index_from.
    rewrite drop_app_add'; [ | done ].
    change (drop 7 (u "```json" ++ body ++ u "```" ++ suffix))
      with (body ++ u "```" ++ suffix).
    rewrite py_find_app_first by exact Hbody. cbn [fmap option_fmap option_map].
    unfold Extract.slice. rewrite drop_app_add'; [ | done ].
    change (drop 7 (u "```json" ++ body ++ u "```" ++ suffix))
      with (body ++ u "```" ++ suffix).
    replace (length prefix + 7 + length body - (length prefix + 7)) with (length body) by lia.
    rewrite take_app_length. by rewrite Hd.
Qed.

Lemma fenced_block_is_recovered_witness :
  Retry.extract_json_robust
    (u "Here is the page: " ++ u "```json" ++ (10%N :: q "{'a': [1, 2]}" ++ [10%N])
       ++ u "```" ++ u " Done.")
  = ([Fence; Direct], Some (DMap [(u "a", DSeq [DNum 1; DNum 2])]))
  /\ Extract.extract_json_from_response
       (u "Here is the page: " ++ u "```json" ++ (10%N :: q "{'a': [1, 2]}" ++ [10%N])
          ++ u "```" ++ u " Done.")
     = ([Fence; Direct], Return (Some (DMap [(u "a", DSeq [DNum 1; DNum 2])]))).
Proof.
  apply (fenced_block_is_recovered (u "Here is the page: ")
           (10%N :: q "{'a': [1, 2]}" ++ [10%N]) (u " Done.")).
  - vm_compute. repeat constructor; discriminate.
  - vm_compute. reflexivity.
  - vm_compute. reflexivity.
Defined.

(** X7.  A text without a fence goes to the parser as it is: when three
    backticks in a row occur nowhere in a response, both recovery functions
    return what [json.loads] makes of the whole response, whenever it makes
    something of it. *)
Theorem unfenced_json_is_parsed_whole (raw : str) (d : Document) :
  py_find (u "```") raw = None ->
  json_loads raw = Ok d ->
  Retry.extract_json_robust raw = ([Fence; Direct], Some d)
  /\ Extract.extract_json_from_response raw = ([Fence; Direct], Return (Some d)).
Proof.
  intros Hfence Hd.
  assert (Hne : nonempty raw = true) by (destruct raw; [ discriminate Hd | done ]).
  split.
  - unfold Retry.extract_json_robust. rewrite Hne. cbn [negb].
    unfold fence_re. rewrite re_search_no_literal by done. by rewrite Hd.
  - unfold Extract.extract_json_from_response, Extract.strip_fence.
    rewrite Hne. cbn [negb]. unfold py_in.
    change (u "```json") with (u "```" ++ u "json").
    rewrite py_find_longer by done. by rewrite Hfence, Hd.
Qed.

Lemma unfenced_json_is_parsed_whole_witness :
  Retry.extract_json_robust (q " [1.5e3, {'k': null}] ")
  = ([Fence; Direct], Some (DSeq [DFloat (u "1.5e3"); DMap [(u "k", DNull)]]))
  /\ Extract.extract_json_from_response (q " [1.5e3, {'k': null}] ")
     = ([Fence; Direct], Return (Some (DSeq [DFloat (u "1.5e3"); DMap [(u "k", DNull)]]))).
Proof.
  apply (unfenced_json_is_parsed_whole (q " [1.5e3, {'k': null}] ")).
  - vm_compute. reflexivity.
  - vm_compute. reflexivity.
Defined.

(** ** When the simple extractor raises *)

(** X8.  On a text in which no run of digits is longer than 4300 (on a
    longer integer [json.loads] raises a [ValueError] that the direct parse
    does not catch), [extract_json_from_response] raises at its fence step
    only, the [ValueError] of [raw.index], and only on a text that holds
    three backticks in a row.  On any text it does raise it whenever the
    text after the first three backticks holds no other three.  (The parser
    is taken without the recursion limit of the interpreter.) *)
Theorem simple_extractor_raises (raw : str) :
  (within_int_limit raw = true ->
   forall e trace, Extract.extract_json_from_response raw = (trace, Raise e) ->
                   e = u "ValueError" /\ trace = [Fence] /\ py_in (u "```") raw = true)
  /\ (forall i, py_find (u "```") raw = Some i ->
                py_find (u "```") (drop (i + 3) raw) = None ->
                Extract.extract_json_from_response raw = ([Fence], Raise (u "ValueError"))).
Proof.
  split.
  - intros _ e trace. unfold Extract.extract_json_from_response.
    destruct (negb (nonempty raw)); [ done | ].
    destruct (Extract.strip_fence raw) as [ text | e' ] eqn:Hs.
    + destruct (json_loads text); [ done | ].
      destruct (_ || _); [ | done ]. by destruct (json_loads _).
    + intros [= <- <-]. revert Hs. unfold Extract.strip_fence.
      destruct (py_in (u "```json") raw) eqn:Hj.
      * assert (Hin : py_in (u "```") raw = true).
        { unfold py_in in *. destruct (py_find (u "```") raw) eqn:Hf; [ done | ].
          change (u "```json") with (u "```" ++ u "json") in Hj.
          by rewrite py_find_longer in Hj. }
        destruct (py_find (u "```json") raw); [ | by intros [= <-] ].
        destruct (Extract.index_from _ _ _); [ done | by intros [= <-] ].
      * destruct (py_in (u "```") raw); [ | done ].
        destruct (py_find (u "```") raw); [ | by intros [= <-] ].
        destruct (Extract.index_from _ _ _); [ done | by intros [= <-] ].
  - intros i Hi Hrest.
    assert (Hne : nonempty raw = true).
    { destruct raw; [ | done ]. cbn in Hi. done. }
    unfold Extract.extract_json_from_response, Extract.strip_fence.
    rewrite Hne. cbn [negb]. unfold py_in, Extract.index_from. rewrite Hi.
    destruct (py_find (u "```json") raw) as [ j | ] eqn:Hj.
    + assert (Hij : i <= j).
      { apply (py_find_first (u "```") raw i j Hi).
        apply (startswith_app (u "```") (u "json")).
        by apply py_find_Some_startswith. }
      replace (j + 7) with ((i + 3) + (j + 4 - i)) by lia.
      rewrite <- drop_drop. by rewrite py_find_none_drop.
    + by rewrite Hrest.
Qed.

Lemma simple_extractor_raises_witness :
  within_int_limit (q "Sure: ```json {'a': 1") = true
  /\ Extract.extract_json_from_response (q "Sure: ```json {'a': 1")
     = ([Fence], Raise (u "ValueError"))
  /\ py_in (u "```") (q "Sure: ```json {'a': 1") = true.
Proof.
  assert (Hlimit : within_int_limit (q "Sure: ```json {'a': 1") = true)
    by (vm_compute; reflexivity).
  assert (Hraise : Extract.extract_json_from_response (q "Sure: ```json {'a': 1")
                   = ([Fence], Raise (u "ValueError"))).
  { apply (proj2 (simple_extractor_raises (q "Sure: ```json {'a': 1")) 6).
    - vm_compute. reflexivity.
    - vm_compute. reflexivity. }
  split; [ exact Hlimit | ]. split; [ exact Hraise | ].
  exact (proj2 (proj2 (proj1 (simple_extractor_raises (q "Sure: ```json {'a': 1"))
                         Hlimit _ _ Hraise))).
Defined.

(** ** What a text that opens with a brace can denote *)

Lemma object_loop_not_quote fuel pairs c s :
  (c =? 34)%N = false ->
  object_loop (S fuel) pairs (c :: s) = Err Expecting_property_name.
Proof.
  intros H. destruct c as [ | p ]; [ reflexivity | ].
  do 7 (try (destruct p as [ p | p | ]; try reflexivity)). discriminate H.
Qed.

Lemma object_loop_dict fuel : forall pairs s r,
  object_loop fuel pairs s = Ok r -> is_dict r.1 = true.
Proof.
  induction fuel as [ | fuel IH ]; intros pairs s r; [ discriminate | ].
  destruct s as [ | c s ]; [ discriminate | ].
  destruct (c =? 34)%N eqn:Hc; [ | by rewrite object_loop_not_quote ].
  apply N.eqb_eq in Hc as ->. rewrite object_loop_step.
  destruct (scanstring s) as [ [key s2] | e ]; [ | discriminate ].
  cbn [mbind scan_bind].
  destruct (skip_ws s2) as [ | c3 s3 ]; [ discriminate | ].
  destruct (c3 =? 58)%N eqn:Hc3.
  - apply N.eqb_eq in Hc3 as ->.
    destruct (scan_once fuel (skip_ws s3)) as [ [ [value s4] | ] | e ];
      cbn [mbind scan_bind]; try discriminate.
    destruct (skip_ws s4) as [ | c5 s5 ]; [ discriminate | ].
    destruct (c5 =? 125)%N eqn:H125.
    { apply N.eqb_eq in H125 as ->. intros [= <-]. reflexivity. }
    destruct (c5 =? 44)%N eqn:H44.
    { apply N.eqb_eq in H44 as ->. apply IH. }
    intros H. exfalso. revert H.
    destruct c5 as [ | p ]; [ discriminate | ].
    do 7 (try (destruct p as [ p | p | ]; try discriminate)).
  - intros H. exfalso. revert H.
    destruct c3 as [ | p ]; [ discriminate | ].
    do 7 (try (destruct p as [ p | p | ]; try discriminate)).
Qed.

(** A text that opens with a brace parses as a dictionary or not at all. *)
Lemma json_loads_brace s d : json_loads (123%N :: s) = Ok d -> is_dict d = true.
Proof.
  unfold json_loads.
  change (startswith [65279%N] (123%N :: s)) with false. cbn iota.
  change (skip_ws (123%N :: s)) with (123%N :: s).
  cbn [length].
  destruct (skip_ws s) as [ | c l ] eqn:Hs.
  - by rewrite scan_once_object, Hs.
  - destruct (c =? 125)%N eqn:Hc.
    + apply N.eqb_eq in Hc as ->. rewrite scan_once_object, Hs. cbn [mbind scan_bind].
      destruct (skip_ws l); [ by intros [= <-] | discriminate ].
    + rewrite (scan_once_object_items _ s c l Hs Hc).
      destruct (object_loop _ [] (c :: l)) as [ [obj rest] | e ] eqn:Ho;
        cbn [fmap scan_fmap mbind scan_bind]; [ | discriminate ].
      apply object_loop_dict in Ho. cbn [fst] in Ho.
      destruct (skip_ws rest); [ by intros [= <-] | discriminate ].
Qed.

(** ** The last two stages *)

Lemma scan_depth_extends rest : forall depth seen text,
  Retry.scan_depth depth seen rest = Some text ->
  exists t, text = seen ++ t.
Proof.
  induction rest as [ | c rest IH ]; intros depth seen text; [ discriminate | ].
  cbn [Retry.scan_depth].
  match goal with |- context [if (?x =? 0)%Z then _ else _] => destruct (x =? 0)%Z end.
  - intros [= <-]. by eexists.
  - intros H. apply IH in H as (t & ->). exists (c :: t). by rewrite <- app_assoc.
Qed.

Lemma outermost_braces_dict raw d :
  Retry.outermost_braces raw = Some d -> is_dict d = true.
Proof.
  unfold Retry.outermost_braces.
  destruct (py_find (u "{") raw) as [ start | ] eqn:Hstart; [ | discriminate ].
  apply py_find_Some_startswith in Hstart.
  destruct (drop start raw) as [ | c rest ]; [ discriminate Hstart | ].
  change (u "{") with [123%N] in Hstart. rewrite startswith_cons in Hstart.
  apply andb_true_iff in Hstart as [Hc _]. apply N.eqb_eq in Hc as <-.
  cbn [Retry.scan_depth]. change ((123 =? 123)%N) with true. cbn iota.
  change ((0 + 1 =? 0)%Z) with false. cbn iota.
  destruct (Retry.scan_depth _ _ rest) as [ text | ] eqn:Ht; [ | discriminate ].
  apply scan_depth_extends in Ht as (t & ->).
  change ([] ++ [123%N]) with [123%N]. cbn [app].
  destruct (json_loads (123%N :: t)) eqn:Hd; [ | discriminate ].
  intros [= <-]. by apply json_loads_brace in Hd.
Qed.

Lemma lstrip_snoc s c : isspace c = false -> lstrip (s ++ [c]) = lstrip s ++ [c].
Proof.
  intros Hc. induction s as [ | x s IH ]; cbn [app lstrip]; [ by rewrite Hc | ].
  by destruct (isspace x).
Qed.

Lemma rstrip_cons c s : isspace c = false -> rstrip (c :: s) = c :: rstrip s.
Proof.
  intros Hc. unfold rstrip. cbn [rev]. rewrite lstrip_snoc by done.
  by rewrite rev_app_distr.
Qed.

Lemma repair_loop_dict n : forall attempt d,
  startswith (u "{") attempt = true ->
  Retry.repair_loop n attempt = Some d -> is_dict d = true.
Proof.
  induction n as [ | n IH ]; intros attempt d Hstart; [ discriminate | ].
  destruct attempt as [ | c t ]; [ discriminate Hstart | ].
  change (u "{") with [123%N] in Hstart. rewrite startswith_cons in Hstart.
  apply andb_true_iff in Hstart as [Hc _]. apply N.eqb_eq in Hc as <-.
  cbn [Retry.repair_loop].
  destruct (json_loads (123%N :: t)) as [ d' | e ] eqn:Hd.
  - intros [= <-]. by apply json_loads_brace in Hd.
  - destruct (mentions_delimiter e); [ | discriminate ].
    apply IH. rewrite rstrip_cons by reflexivity.
    destruct (endswith (u ",") (123%N :: rstrip t)) eqn:He; [ | reflexivity ].
    destruct (rstrip t) as [ | x l ]; [ discriminate He | ].
    change (drop_last (123%N :: x :: l)) with (123%N :: take (length l) (x :: l)).
    reflexivity.
Qed.

(** X9.  The two last stages of [extract_json_robust] return dictionaries
    only: a document that comes out of the balanced-brace stage or of the
    truncation repair is never a list, a string, a number, a boolean or
    [None]. *)
Theorem late_stages_return_dicts (raw : str) (trace : list Stage) (d : Document) :
  Retry.extract_json_robust raw = (trace, Some d) ->
  BalancedBrace ∈ trace ->
  is_dict d = true.
Proof.
  unfold Retry.extract_json_robust.
  destruct (negb (nonempty raw)); [ discriminate | ].
  set (text := match re_search fence_re raw with
               | Some g => strip (backref1 g)
               | None => raw
               end).
  destruct (json_loads text).
  { intros [= <- _] Hin. by repeat (apply elem_of_cons in Hin as [ Hin | Hin ]; [ done | ]);
      apply elem_of_nil in Hin. }
  destruct (json_loads (re_sub _ _ _)).
  { intros [= <- _] Hin. by repeat (apply elem_of_cons in Hin as [ Hin | Hin ]; [ done | ]);
      apply elem_of_nil in Hin. }
  destruct (Retry.outermost_braces text) as [ d' | ] eqn:Hb.
  { intros [= _ <-] _. by apply outermost_braces_dict in Hb. }
  destruct (startswith (u "{") (strip text)) eqn:Hs; [ | discriminate ].
  destruct (Retry.repair_loop 10 (strip text)) as [ d' | ] eqn:Hr; [ | discriminate ].
  intros [= _ <-] _. by apply repair_loop_dict in Hr.
Qed.

Lemma late_stages_return_dicts_witness :
  Retry.extract_json_robust (q "{'a': [1, 2")
  = ([Fence; Direct; TrailingComma; BalancedBrace; TruncationRepair],
     Some (DMap [(u "a", DSeq [DNum 1; DNum 2])]))
  /\ is_dict (DMap [(u "a", DSeq [DNum 1; DNum 2])]) = true.
Proof.
  split; [ vm_compute; reflexivity | ].
  refine (late_stages_return_dicts (q "{'a': [1, 2")
            [Fence; Direct; TrailingComma; BalancedBrace; TruncationRepair]
            (DMap [(u "a", DSeq [DNum 1; DNum 2])]) _ _).
  - vm_compute. reflexivity.
  - do 3 right. left.
Defined.

(** ** The dictionary of a page *)

Lemma call_loop_result page_num respond attempts r :
  (Extract.call_loop page_num respond attempts).1 = Some r ->
  page r = page_num + 1 /\ book_page r = page_num + 37 /\ parsed_json r = DNull
  /\ (status r = u "success" /\ error r = None
      \/ status r = u "failed" /\ raw_response r = [] /\ error r <> None).
Proof.
  induction attempts as [ | attempt rest IH ]; cbn [Extract.call_loop]; [ discriminate | ].
  destruct (respond attempt) as [ | content thinking_ | e ].
  - destruct (Extract.call_loop page_num respond rest). exact IH.
  - intros [= <-]. cbn. split; [ done | ]. split; [ done | ]. split; [ done | ].
    left. done.
  - destruct (attempt <? 2).
    + destruct (Extract.call_loop page_num respond rest). exact IH.
    + intros [= <-]. cbn. split; [ done | ]. split; [ done | ]. split; [ done | ].
      right. done.
Qed.

Lemma attempt_loop_result page_num respond attempts : forall result st st' r effects,
  match result with Some r0 => well_formed_page page_num r0 | None => True end ->
  Retry.attempt_loop page_num respond attempts result st = (st', Return r, effects) ->
  well_formed_page page_num r.
Proof.
  induction attempts as [ | attempt rest IH ]; intros result st st' r effects Hres;
    cbn [Retry.attempt_loop].
  - destruct result; [ by intros [= _ <- _] | discriminate ].
  - destruct (respond attempt) as [ | content thinking_ | e ].
    + destruct (Retry.attempt_loop page_num respond rest result st) as [[s o] eff] eqn:Hl.
      intros [= _ -> _]. by eapply IH.
    + set (parsed := py_value (Retry.extract_json_robust content).2).
      match goal with |- context [Retry.write _ ?d st] => set (r1 := d) end.
      assert (Hr1 : well_formed_page page_num r1).
      { unfold well_formed_page, r1. cbn. repeat split.
        - by destruct (truthy parsed).
        - destruct (truthy parsed); auto. }
      destruct (truthy parsed).
      * by intros [= _ <- _].
      * destruct (Retry.attempt_loop page_num respond rest (Some r1) _) as [[s o] eff] eqn:Hl.
        intros [= _ -> _]. by eapply (IH (Some r1)).
    + destruct (Retry.attempt_loop page_num respond rest result st) as [[s o] eff] eqn:Hl.
      intros [= _ -> _]. by eapply IH.
Qed.

(** X10.  The dictionary a page gets.  Whatever the model answers, a
    dictionary returned by [process_page] (of [extract.py] and of
    [retry_failed.py] alike) carries the page's own numbers, and its status
    is "success" exactly when its [parsed_json] is true as a Python value:
    a response that parses to an empty document is recorded as
    "json_parse_failed".  The only other status is "failed", which comes
    with an empty response and an error text. *)
Theorem page_status_follows_document (page_num : nat) (respond : nat -> Response)
    (st : Retry.State) :
  match Extract.process_page page_num respond with
  | Return r => well_formed_page page_num r
  | Raise _ => True
  end
  /\ match Retry.process_page page_num respond st with
     | (_, Return r, _) => well_formed_page page_num r /\ status r <> u "failed"
     | (_, Raise _, _) => True
     end.
Proof.
  split.
  - unfold Extract.process_page, Extract.call_gemini.
    pose proof (call_loop_result page_num respond (seq 0 3)) as H.
    destruct (Extract.call_loop page_num respond (seq 0 3)).1 as [ result | ]; [ | done ].
    destruct (H result eq_refl) as (Hp & Hb & _ & Hs).
    destruct (Extract.extract_json_from_response (raw_response result)).2 as [ r | e ] eqn:Hr;
      [ | done ].
    unfold well_formed_page. cbn. repeat split; [ done | done | | ].
    + destruct (truthy (py_value r)); [ done | ].
      destruct Hs as [[-> _] | [-> _]]; done.
    + destruct (truthy (py_value r)); [ by left | ].
      destruct Hs as [[-> _] | (-> & ? & ?)]; [ right; by left | ].
      right. right. done.
  - unfold Retry.process_page.
    destruct (Retry.attempt_loop page_num respond (seq 0 3) None st) as [[st' o] eff] eqn:Hl.
    destruct o as [ r | e ]; [ | done ].
    pose proof (attempt_loop_result _ _ _ None _ _ _ _ I Hl) as H. split; [ exact H | ].
    destruct H as (_ & _ & _ & [ -> | [ -> | (_ & _ & Herr) ] ]); try done.
    clear -Hl Herr. exfalso. revert Hl Herr.
    assert (Hgen : forall attempts result s,
              match result with Some r0 => error r0 = None | None => True end ->
              Retry.attempt_loop page_num respond attempts result s = (st', Return r, eff) ->
              error r = None); [ | intros Hl Herr; by rewrite (Hgen _ None st I Hl) in Herr ].
    clear. intros attempts. revert st' eff.
    induction attempts as [ | attempt rest IH ]; intros st' eff result s Hres;
      cbn [Retry.attempt_loop].
    + destruct result; [ by intros [= _ <- _] | discriminate ].
    + destruct (respond attempt) as [ | content thinking_ | e ].
      * destruct (Retry.attempt_loop page_num respond rest result s) as [[s1 o] eff1] eqn:Hl.
        intros [= <- -> <-]. by eapply IH.
      * match goal with |- context [truthy ?x] => destruct (truthy x) end.
        -- by intros [= _ <- _].
        -- match goal with
           | |- context [Retry.attempt_loop page_num respond rest (Some ?r1) ?s1] =>
               destruct (Retry.attempt_loop page_num respond rest (Some r1) s1)
                 as [[s2 o] eff1] eqn:Hl
           end.
           intros [= <- -> <-]. eapply IH; [ | exact Hl ]. reflexivity.
      * destruct (Retry.attempt_loop page_num respond rest result s) as [[s1 o] eff1] eqn:Hl.
        intros [= <- -> <-]. by eapply IH.
Qed.

(** ** What a retried page leaves on disk *)

Lemma attempt_loop_saved page_num respond attempts : forall result st,
  match result with
  | Some r0 => Retry.files st !! (page_num + 1) = Some r0
  | None => True
  end ->
  match Retry.attempt_loop page_num respond attempts result st with
  | (st', Return r, _) =>
      Retry.files st' !! (page_num + 1) = Some r
      /\ forall i, i <> page_num + 1 -> Retry.files st' !! i = Retry.files st !! i
  | (st', Raise _, effects) =>
      result = None /\ st' = st /\ posts effects = length attempts
      /\ Forall (fun attempt => is_answer (respond attempt) = false) attempts
  end.
Proof.
  induction attempts as [ | attempt rest IH ]; intros result st Hres;
    cbn [Retry.attempt_loop].
  - destruct result; [ done | ]. repeat split. constructor.
  - destruct (respond attempt) as [ | content thinking_ | e ] eqn:Hr.
    + specialize (IH result st Hres).
      destruct (Retry.attempt_loop page_num respond rest result st) as [[s o] eff].
      destruct o; [ done | ]. destruct IH as (? & ? & ? & ?).
      repeat split; try done.
      * cbn. unfold posts in *. cbn. lia.
      * constructor; [ by rewrite Hr | done ].
    + match goal with |- context [Retry.write ?i ?d st] => set (r1 := d) end.
      match goal with |- context [truthy ?x] => destruct (truthy x) end.
      * cbn [Retry.write Retry.files]. split; [ by rewrite lookup_insert_eq | ].
        intros i Hi. by rewrite lookup_insert_ne.
      * specialize (IH (Some r1) (Retry.write (page_num + 1) r1 st)).
        destruct (Retry.attempt_loop page_num respond rest (Some r1) _) as [[s o] eff].
        destruct o.
        -- destruct IH as [H1 H2]; [ cbn; by rewrite lookup_insert_eq | ].
           split; [ done | ]. intros i Hi. rewrite H2 by done. cbn.
           by rewrite lookup_insert_ne.
        -- destruct IH as [H1 _]; [ cbn; by rewrite lookup_insert_eq | done ].
    + specialize (IH result st Hres).
      destruct (Retry.attempt_loop page_num respond rest result st) as [[s o] eff].
      destruct o; [ done | ]. destruct IH as (? & ? & ? & ?).
      repeat split; try done.
      * cbn. unfold posts in *. cbn. lia.
      * constructor; [ by rewrite Hr | done ].
Qed.



(** ** A retry pass with nothing to retry *)

Lemma check_pages_kept fs pages : forall log acc,
  Forall (fun i => keeps fs i = true) pages ->
  foldl Retry.check_page ({| Retry.files := fs; Retry.log := log |}, acc) pages
  = ({| Retry.files := fs; Retry.log := log ++ List.map Read pages |}, acc).
Proof.
  induction pages as [ | i rest IH ]; intros log acc Hk; cbn [foldl List.map].
  - by rewrite app_nil_r.
  - inversion Hk as [ | ? ? Hi Hrest ]; subst.
    unfold Retry.check_page at 2. cbn [Retry.files]. unfold keeps in Hi.
    destruct (fs !! i) as [ d | ]; [ | discriminate ].
    apply negb_true_iff in Hi. rewrite Hi.
    unfold Retry.read. cbn [Retry.files Retry.log]. rewrite IH by done.
    by rewrite <- app_assoc.
Qed.

(** X12.  A retry pass over a directory in which every page is a success
    with a document does nothing but look: it loads each of the 84 page
    files once, makes no request, writes no file, and returns before the
    combined results are written. *)
Theorem retry_with_nothing_to_do (respond : nat -> nat -> Response)
    (fs : gmap nat PageResult) :
  Forall (fun i => keeps fs i = true) (seq 1 Retry.NUM_PAGES) ->
  Retry.main respond {| Retry.files := fs; Retry.log := [] |}
  = ({| Retry.files := fs; Retry.log := List.map Read (seq 1 Retry.NUM_PAGES) |}, [], None).
Proof.
  intros Hk. unfold Retry.main, Retry.find_failed.
  by rewrite (check_pages_kept fs (seq 1 Retry.NUM_PAGES) [] [] Hk).
Qed.

Lemma retry_with_nothing_to_do_witness :
  Retry.main (fun _ _ => Failure (u "offline")) {| Retry.files := all_done; Retry.log := [] |}
  = ({| Retry.files := all_done; Retry.log := List.map Read (seq 1 Retry.NUM_PAGES) |},
     [], None).
Proof.
  refine (retry_with_nothing_to_do _ all_done _).
  apply (bool_decide_unpack _). vm_compute. exact I.
Defined.

(** ** The combined results of a retry pass *)

Lemma collect_pages pages : forall st acc,
  foldl Retry.collect_page (st, acc) pages
  = ({| Retry.files := Retry.files st;
        Retry.log := Retry.log st
                     ++ List.map Read
                          (List.filter (fun i => bool_decide (is_Some (Retry.files st !! i)))
                                       pages) |},
     acc ++ omap (fun i => Retry.files st !! i) pages).
Proof.
  induction pages as [ | i rest IH ]; intros st acc; cbn [foldl List.filter omap].
  - cbn. rewrite !app_nil_r. by destruct st.
  - unfold Retry.collect_page at 2.
    destruct (Retry.files st !! i) as [ d | ] eqn:Hd.
    + rewrite IH. unfold Retry.read. cbn [Retry.files Retry.log].
      rewrite bool_decide_eq_true_2 by eauto. cbn [List.map omap list_omap].
      rewrite Hd. by rewrite <- !app_assoc.
    + rewrite IH. rewrite bool_decide_eq_false_2 by (intros [? ?]; done).
      cbn [omap list_omap]. by rewrite Hd.
Qed.

(** X13.  The combined results a retry pass writes are the page files as the
    pass leaves them: whenever [main] gets as far as writing
    [all_results.json], the list it writes holds the dictionary of every
    existing page file, in ascending page order, an absent page being
    skipped. *)
Theorem combined_results_are_the_page_files (respond : nat -> nat -> Response)
    (st : Retry.State) (results : list PageResult) :
  (Retry.main respond st).2 = Some results ->
  results = omap (fun i => Retry.files (Retry.main respond st).1.1 !! i)
                 (seq 1 Retry.NUM_PAGES).
Proof.
  unfold Retry.main. generalize (seq 1 Retry.NUM_PAGES) as pages. intros pages.
  destruct (Retry.find_failed pages st) as [st1 failed].
  destruct (negb (nonempty failed)); [ discriminate | ].
  destruct (Retry.run_pool respond failed st1) as [st2 raised].
  destruct raised; [ discriminate | ].
  unfold Retry.collect. rewrite collect_pages. cbn [fst snd Retry.files app].
  intros [= <-]. reflexivity.
Qed.

Lemma combined_results_are_the_page_files_witness :
  default []
    (Retry.main (fun _ _ => Answer (q "{'a': 1}") [])
       {| Retry.files := {[ 1 := page_ok ]}; Retry.log := [] |}).2
  = omap (fun i =>
            Retry.files
              (Retry.main (fun _ _ => Answer (q "{'a': 1}") [])
                 {| Retry.files := {[ 1 := page_ok ]}; Retry.log := [] |}).1.1 !! i)
         (seq 1 Retry.NUM_PAGES).
Proof.
  refine (combined_results_are_the_page_files (fun _ _ => Answer (q "{'a': 1}") [])
            {| Retry.files := {[ 1 := page_ok ]}; Retry.log := [] |} _ _).
  vm_compute. reflexivity.
Defined.

(** ** The figures of a run *)

Lemma filter_length_le {A} (p q : A -> bool) (l : list A) :
  (forall x, p x = true -> q x = true) ->
  length (List.filter p l) <= length (List.filter q l).
Proof.
  intros Hpq. induction l as [ | x l IH ]; [ done | ]. cbn [List.filter].
  destruct (p x) eqn:Hp.
  - rewrite (Hpq x Hp). cbn. lia.
  - destruct (q x); cbn; lia.
Qed.

Lemma sorted_filter_pages (keep : PageResult -> bool) l :
  StronglySorted page_le l ->
  StronglySorted le (List.map page (List.filter keep l)).
Proof.
  induction 1 as [ | x l Hl IH Hx ]; cbn [List.filter]; [ constructor | ].
  destruct (keep x); [ | exact IH ]. cbn [List.map]. constructor; [ exact IH | ].
  apply Forall_forall. intros n Hn.
  apply list_elem_of_In, in_map_iff in Hn as (y & <- & Hy).
  apply filter_In in Hy as [Hy _]. rewrite Forall_forall in Hx.
  apply Hx. by apply list_elem_of_In.
Qed.

(** X14.  The figures of [summary.json], for any list of page dictionaries:
    the pages whose JSON did not parse are counted among the "API failures"
    as well, the list of failed pages has one entry for each such failure,
    and it is in ascending page order whatever the order in which the pages
    completed. *)
Theorem summary_figures (total : nat) (results : list PageResult) :
  let s := Extract.summarize total results in
  Extract.json_parse_failed s <= Extract.api_failed s
  /\ length (Extract.failed_pages s) = Extract.api_failed s
  /\ StronglySorted le (Extract.failed_pages s)
  /\ Extract.success s <= length results.
Proof.
  cbn zeta. unfold Extract.summarize.
  cbn [Extract.json_parse_failed Extract.api_failed Extract.failed_pages Extract.success].
  split; [ | split; [ | split ] ].
  - apply filter_length_le. intros r Hr. unfold Extract.not_success.
    unfold str_eqb in *. apply bool_decide_eq_true in Hr. rewrite Hr. reflexivity.
  - apply length_map.
  - apply sorted_filter_pages, sort_by_page_sorted.
  - rewrite <- (Permutation_length (sort_by_page_perm results)).
    generalize (Extract.sort_by_page results) as l.
    induction l as [ | r l IH ]; [ done | ]. cbn [List.filter].
    destruct (truthy (parsed_json r)); cbn [length]; lia.
Qed.

(** ** Sorting by page *)

Section SortBy.
Context {A : Type} (key : A -> nat).

Lemma insert_by_perm x l : insert_by key x l ≡ₚ x :: l.
Proof.
  induction l as [ | y l IH ]; cbn [insert_by]; [ done | ].
  destruct (key x <=? key y); [ done | ]. rewrite IH. apply perm_swap.
Qed.

Lemma sort_by_perm l : sort_by key l ≡ₚ l.
Proof.
  induction l as [ | x l IH ]; cbn [sort_by]; [ done | ].
  by rewrite insert_by_perm, IH.
Qed.

Lemma insert_by_sorted x l :
  StronglySorted (fun a b => key a <= key b) l ->
  StronglySorted (fun a b => key a <= key b) (insert_by key x l).
Proof.
  induction 1 as [ | y l Hl IH Hy ]; cbn [insert_by].
  - repeat constructor.
  - destruct (key x <=? key y) eqn:Hle.
    + apply Nat.leb_le in Hle. constructor; [ by constructor | ].
      constructor; [ exact Hle | ].
      eapply Forall_impl; [ exact Hy | ]. cbn. intros; lia.
    + apply Nat.leb_gt in Hle. constructor; [ exact IH | ].
      rewrite insert_by_perm. constructor; [ lia | exact Hy ].
Qed.

Lemma sort_by_sorted l : StronglySorted (fun a b => key a <= key b) (sort_by key l).
Proof.
  induction l as [ | x l IH ]; cbn [sort_by]; [ constructor | by apply insert_by_sorted ].
Qed.

(** Sorting what the pool yields, in whatever order, gives the pages in
    order. *)
Lemma sort_by_pages (f : nat -> A) completed start len :
  (forall p, key (f p) = p) ->
  completed ≡ₚ seq start len ->
  sort_by key (List.map f completed) = List.map f (seq start len).
Proof.
  intros Hkey Hperm. apply (StronglySorted_unique_strong (fun a b => key a <= key b)).
  - intros x1 x2 H1 H2. rewrite sort_by_perm in H1.
    apply list_elem_of_In, in_map_iff in H1. destruct H1 as (p1 & <- & _).
    apply list_elem_of_In, in_map_iff in H2. destruct H2 as (p2 & <- & _).
    rewrite !Hkey. intros. f_equal. lia.
  - apply sort_by_sorted.
  - clear Hperm. revert start. induction len as [ | len IH ]; intros start; cbn; constructor.
    + apply IH.
    + apply Forall_forall. intros x Hx. apply list_elem_of_In, in_map_iff in Hx.
      destruct Hx as (p & <- & Hp). apply in_seq in Hp. rewrite !Hkey. lia.
  - rewrite sort_by_perm. by apply Permutation_map.
Qed.

End SortBy.

Lemma set_item_fresh {V} (d : list (nat * V)) k v :
  k ∉ d.*1 -> set_item d k v = d ++ [(k, v)].
Proof.
  induction d as [ | [k' v'] d IH ]; intros Hk; [ done | ].
  cbn [set_item]. rewrite fmap_cons, not_elem_of_cons in Hk. destruct Hk as [Hne Hk].
  cbn [fst] in Hne. rewrite (proj2 (Nat.eqb_neq k' k)) by congruence.
  by rewrite IH.
Qed.

Lemma set_items_fresh {V} (f : nat -> V) completed : forall d,
  NoDup (d.*1 ++ completed) ->
  foldl (fun results p => set_item results p (f p)) d completed
  = d ++ List.map (fun p => (p, f p)) completed.
Proof.
  induction completed as [ | p rest IH ]; intros d Hnd; cbn [foldl List.map].
  - by rewrite app_nil_r.
  - rewrite set_item_fresh.
    + rewrite IH; [ by rewrite <- app_assoc | ].
      rewrite fmap_app. cbn. rewrite <- app_assoc. exact Hnd.
    + apply NoDup_app in Hnd as (_ & Hd & _). intros Hin. apply (Hd p Hin). left.
Qed.

Lemma sum_list_with_perm {A} (f : A -> nat) l l' :
  l ≡ₚ l' -> sum_list_with f l = sum_list_with f l'.
Proof. intros H. induction H; cbn [sum_list_with]; lia. Qed.

Lemma count_as_filter {A} (p : A -> bool) l :
  sum_list_with (fun x => if p x then 1 else 0) l = length (List.filter p l).
Proof.
  induction l as [ | x l IH ]; [ done | ].
  cbn [List.filter sum_list_with]. rewrite IH. by destruct (p x).
Qed.

(** ** The figures of the Claude merger *)

(** X15.  The Claude driver gives every page an entry and counts
    consistently, whatever the order in which the pages complete and
    whichever pages raise (a file they cannot read, a document they cannot
    write): the result of [apply_all_corrections] has the 84
    pages as keys, a page that raised having an entry without corrections;
    the pages [main] prints as modified are the pages with corrections in
    ascending order, as many as [build_viewer] counts; and the total of
    corrections is at least that number. *)
Theorem claude_batch_figures
    (inputs : nat -> outcome (Claude.OcrData * option Claude.QaData))
    (completed : list nat) :
  completed ≡ₚ seq 1 NUM_PAGES ->
  let run := ClaudeBatch.process_page inputs in
  let results := ClaudeBatch.apply_all_corrections run completed in
  sort_by fst results
  = List.map (fun p => (p, ClaudeBatch.entry_of run p)) (seq 1 NUM_PAGES)
  /\ ClaudeBatch.pages_modified results
     = List.filter (fun p => ClaudeBatch.had_corrections (ClaudeBatch.entry_of run p))
                   (seq 1 NUM_PAGES)
  /\ ClaudeBatch.pages_with_corrections results = length (ClaudeBatch.pages_modified results)
  /\ length (ClaudeBatch.pages_modified results) <= ClaudeBatch.total_corrections results.
Proof.
  intros Hperm. cbn zeta.
  set (run := ClaudeBatch.process_page inputs).
  assert (Hres : ClaudeBatch.apply_all_corrections run completed
                 = List.map (fun p => (p, ClaudeBatch.entry_of run p)) completed).
  { unfold ClaudeBatch.apply_all_corrections.
    rewrite (set_items_fresh (ClaudeBatch.entry_of run) completed []); [ done | ].
    cbn. rewrite Hperm. apply NoDup_seq. }
  assert (Hsort : sort_by fst (ClaudeBatch.apply_all_corrections run completed)
                  = List.map (fun p => (p, ClaudeBatch.entry_of run p)) (seq 1 NUM_PAGES)).
  { rewrite Hres. by apply (sort_by_pages fst). }
  assert (Hmod : ClaudeBatch.pages_modified (ClaudeBatch.apply_all_corrections run completed)
                 = List.filter (fun p => ClaudeBatch.had_corrections (ClaudeBatch.entry_of run p))
                               (seq 1 NUM_PAGES)).
  { unfold ClaudeBatch.pages_modified. rewrite Hsort.
    generalize (seq 1 NUM_PAGES) as l. intros l.
    induction l as [ | p l IH ]; [ done | ]. cbn [List.map List.filter snd].
    destruct (ClaudeBatch.had_corrections (ClaudeBatch.entry_of run p)); cbn; by rewrite IH. }
  assert (Hcount : ClaudeBatch.pages_with_corrections
                     (ClaudeBatch.apply_all_corrections run completed)
                   = length (ClaudeBatch.pages_modified
                               (ClaudeBatch.apply_all_corrections run completed))).
  { unfold ClaudeBatch.pages_with_corrections, ClaudeBatch.pages_modified.
    rewrite length_map, (count_as_filter (fun pr => ClaudeBatch.had_corrections pr.2)).
    generalize (sort_by_perm fst (ClaudeBatch.apply_all_corrections run completed)).
    generalize (sort_by fst (ClaudeBatch.apply_all_corrections run completed)).
    generalize (ClaudeBatch.apply_all_corrections run completed).
    intros l l' Hl. rewrite <- !count_as_filter. symmetry. by apply sum_list_with_perm. }
  split; [ exact Hsort | ]. split; [ exact Hmod | ]. split; [ exact Hcount | ].
  rewrite <- Hcount. unfold ClaudeBatch.pages_with_corrections, ClaudeBatch.total_corrections.
  rewrite Hres. generalize completed as l. intros l.
  induction l as [ | p l IH ]; [ done | ].
  cbn [List.map sum_list_with snd].
  enough (Hp : (if ClaudeBatch.had_corrections (ClaudeBatch.entry_of run p) then 1 else 0)
               <= length (ClaudeBatch.corrections_applied (ClaudeBatch.entry_of run p)))
    by lia.
  unfold ClaudeBatch.entry_of, run, ClaudeBatch.process_page.
  destruct (inputs p) as [ [ocr_data qa] | e ]; [ | done ].
  cbn zeta. unfold after_save. destruct (storable _); [ | done ].
  cbn [ClaudeBatch.had_corrections ClaudeBatch.corrections_applied].
  rewrite claude_page_log.
  destruct (Claude.corrections_applied _); cbn; lia.
Qed.

Lemma claude_batch_figures_witness :
  ClaudeBatch.pages_modified
    (ClaudeBatch.apply_all_corrections (ClaudeBatch.process_page claude_inputs)
       (reverse (seq 1 NUM_PAGES)))
  = List.filter (fun p => ClaudeBatch.had_corrections
                            (ClaudeBatch.entry_of (ClaudeBatch.process_page claude_inputs) p))
                (seq 1 NUM_PAGES).
Proof.
  refine (proj1 (proj2 (claude_batch_figures claude_inputs (reverse (seq 1 NUM_PAGES)) _))).
  apply reverse_Permutation.
Defined.

(** ** The figures of the Gemini merger *)

Lemma gather_spec run completed : forall acc,
  match GeminiBatch.gather run completed acc with
  | Return l => exists rs, l = acc ++ rs /\ List.map run completed = List.map Return rs
  | Raise e => exists p, p ∈ completed /\ run p = Raise e
  end.
Proof.
  induction completed as [ | p rest IH ]; intros acc; cbn [GeminiBatch.gather].
  - exists []. by rewrite app_nil_r.
  - destruct (run p) as [ r | e ] eqn:Hp.
    + specialize (IH (acc ++ [r])).
      destruct (GeminiBatch.gather run rest (acc ++ [r])) as [ l | e ].
      * destruct IH as (rs & -> & Hrs). exists (r :: rs). rewrite <- app_assoc.
        split; [ done | ]. cbn [List.map]. by rewrite Hp, Hrs.
      * destruct IH as (p' & ? & ?). exists p'. split; [ by right | done ].
    + exists p. split; [ left | done ].
Qed.

Lemma count_pages l : forall a b,
  Forall (fun r => Gemini.modified r = false -> Gemini.corrections r = []) l ->
  foldl GeminiBatch.count_page (a, b) l
  = (a + sum_list_with (fun r => if Gemini.modified r then 1 else 0) l,
     b + sum_list_with (fun r => length (Gemini.corrections r)) l).
Proof.
  induction l as [ | r l IH ]; intros a b Hl; cbn [foldl sum_list_with].
  - f_equal; lia.
  - inversion Hl as [ | ? ? Hr Hrest ]; subst. unfold GeminiBatch.count_page at 2.
    destruct (Gemini.modified r); cbn [fst snd].
    + rewrite IH by done. f_equal; lia.
    + rewrite IH by done. rewrite Hr by done. cbn [length]. f_equal; lia.
Qed.

Lemma gemini_page_number page_num parsed_json parsed_qa :
  Gemini.page (Gemini.process_page page_num parsed_json parsed_qa).2 = page_num.
Proof.
  unfold Gemini.process_page. destruct (is_none parsed_json); [ done | ].
  destruct parsed_qa as [ pq | ]; [ | done ].
  destruct (truthy _); [ done | ]. destruct (nonempty _); [ | done ].
  by destruct (Gemini.apply_text_corrections _ _).
Qed.

(** X16.  The Gemini driver, whatever the order in which the pages complete.
    When no page raises, the report lists the 84 results in ascending page
    order, and the figures of the report are the figures of the viewer: the
    loop of [main], which adds up the corrections of the modified pages
    only, finds the total [build_viewer] takes over all pages.  When a page
    raises (a file it cannot read, a document it cannot write), [main]
    raises what that page raised: nothing catches it, and no report is
    written. *)
Theorem gemini_batch_figures
    (inputs : nat -> outcome (Document * option Gemini.ParsedQa))
    (completed : list nat) :
  completed ≡ₚ seq 1 NUM_PAGES ->
  let run := GeminiBatch.process_page inputs in
  match GeminiBatch.main run completed with
  | Return (stats, report) =>
      List.map Return (GeminiBatch.pages report) = List.map run (seq 1 NUM_PAGES)
      /\ GeminiBatch.total stats = NUM_PAGES
      /\ GeminiBatch.modified_pages report = GeminiBatch.modified stats
      /\ GeminiBatch.total_corrections report = GeminiBatch.viewer_corrections stats
  | Raise e => exists p, p ∈ seq 1 NUM_PAGES /\ run p = Raise e
  end.
Proof.
  intros Hperm. cbn zeta. set (run := GeminiBatch.process_page inputs).
  unfold GeminiBatch.main.
  pose proof (gather_spec run completed []) as Hg.
  destruct (GeminiBatch.gather run completed []) as [ l | e ].
  - destruct Hg as (rs & -> & Hrs). cbn [app].
    set (f := fun p => match inputs p with
                       | Return (parsed_json, parsed_qa) =>
                           (Gemini.process_page p parsed_json parsed_qa).2
                       | Raise _ => (Gemini.process_page p DNull None).2
                       end).
    assert (Hkey : forall p, Gemini.page (f p) = p).
    { intros p. unfold f. destruct (inputs p) as [ [pj pq] | ];
        apply gemini_page_number. }
    assert (Hf : rs = List.map f completed /\ Forall (fun p => run p = Return (f p)) completed).
    { clear Hperm. revert rs Hrs.
      induction completed as [ | p rest IH ]; intros [ | r rs ] Hrs; try discriminate Hrs.
      - split; [ done | constructor ].
      - cbn [List.map] in Hrs. injection Hrs as Hp Hrest.
        destruct (IH rs Hrest) as [-> Hall].
        assert (Hpf : run p = Return (f p)).
        { unfold run, GeminiBatch.process_page, f, after_save in *.
          destruct (inputs p) as [ [pj pq] | ]; [ | discriminate Hp ].
          cbn zeta in *. destruct (storable _); [ reflexivity | discriminate Hp ]. }
        split; [ | by constructor ].
        rewrite Hpf in Hp. by injection Hp as <-. }
    destruct Hf as [-> Hall].
    rewrite (sort_by_pages Gemini.page f completed 1 NUM_PAGES Hkey Hperm).
    assert (Hall' : Forall (fun p => run p = Return (f p)) (seq 1 NUM_PAGES))
      by (by rewrite <- Hperm).
    rewrite count_pages.
    + cbn [GeminiBatch.pages GeminiBatch.modified_pages GeminiBatch.total_corrections
           GeminiBatch.build_viewer GeminiBatch.total GeminiBatch.modified
           GeminiBatch.viewer_corrections].
      split; [ | split; [ by rewrite length_map, length_seq | done ] ].
      revert Hall'. generalize (seq 1 NUM_PAGES) as l. intros l Hl.
      induction Hl as [ | p l Hp _ IH ]; [ done | ]. cbn [List.map]. by rewrite Hp, IH.
    + apply Forall_forall. intros r Hr.
      apply list_elem_of_In, in_map_iff in Hr as (p & <- & _). unfold f.
      destruct (inputs p) as [ [pj pq] | ]; intros Hm;
        exact (proj2 (gemini_page_quiet _ _ _ Hm)).
  - destruct Hg as (p & Hp & He). exists p. split; [ by rewrite <- Hperm | done ].
Qed.

Lemma gemini_batch_figures_witness :
  match GeminiBatch.main (GeminiBatch.process_page gemini_inputs)
          (reverse (seq 1 NUM_PAGES)) with
  | Return (stats, report) =>
      List.map Return (GeminiBatch.pages report)
      = List.map (GeminiBatch.process_page gemini_inputs) (seq 1 NUM_PAGES)
      /\ GeminiBatch.total stats = NUM_PAGES
      /\ GeminiBatch.modified_pages report = GeminiBatch.modified stats
      /\ GeminiBatch.total_corrections report = GeminiBatch.viewer_corrections stats
  | Raise e => exists p, p ∈ seq 1 NUM_PAGES
                         /\ GeminiBatch.process_page gemini_inputs p = Raise e
  end.
Proof.
  refine (gemini_batch_figures gemini_inputs (reverse (seq 1 NUM_PAGES)) _).
  apply reverse_Permutation.
Defined.

(** ** Escaped text *)

(** Replacing a single character works character by character. *)
Lemma replace_char c new s :
  py_replace s [c] new
  = List.concat (List.map (fun x => if (c =? x)%N then new else [x]) s).
Proof.
  unfold py_replace. induction s as [ | x s IH ]; [ reflexivity | ].
  cbn [replace_from List.map List.concat]. rewrite startswith_cons.
  change (startswith [] s) with true. rewrite andb_true_r.
  change (length [c] - 1) with 0. rewrite IH. by destruct (c =? x)%N.
Qed.

Lemma concat_map_concat {A B} (f : A -> list B) (g : B -> list B) (s : list A) :
  List.concat (List.map g (List.concat (List.map f s)))
  = List.concat (List.map (fun x => List.concat (List.map g (f x))) s).
Proof.
  induction s as [ | x s IH ]; [ reflexivity | ].
  cbn [List.concat List.map]. by rewrite List.map_app, List.concat_app, IH.
Qed.

Lemma concat_map_ext {A B} (f g : A -> list B) (s : list A) :
  (forall x, f x = g x) -> List.concat (List.map f s) = List.concat (List.map g s).
Proof. intros H. induction s as [ | x s IH ]; [ reflexivity | ]. cbn. by rewrite H, IH. Qed.

(** The five replacements in a row put an entity for each special
    character: the ampersands they write are not escaped again. *)
Lemma html_escape_entities s : html_escape s = List.concat (List.map entity s).
Proof.
  unfold html_escape. cbn zeta.
  change (u "&") with [38%N]. change (u "<") with [60%N].
  change (u ">") with [62%N]. change (u "'") with [39%N].
  rewrite !replace_char, !concat_map_concat.
  apply concat_map_ext. intros x. unfold entity.
  destruct (N.eqb_spec 38 x) as [ <- | H38 ]; [ reflexivity | ].
  destruct (N.eqb_spec 60 x) as [ <- | H60 ]; [ reflexivity | ].
  destruct (N.eqb_spec 62 x) as [ <- | H62 ]; [ reflexivity | ].
  destruct (N.eqb_spec 34 x) as [ <- | H34 ]; [ reflexivity | ].
  destruct (N.eqb_spec 39 x) as [ <- | H39 ]; [ reflexivity | ].
  rewrite !(proj2 (N.eqb_neq x _)) by done.
  cbn [List.map List.concat app]. rewrite (proj2 (N.eqb_neq 60 x)) by done.
  cbn [List.map List.concat app]. rewrite (proj2 (N.eqb_neq 62 x)) by done.
  cbn [List.map List.concat app]. rewrite (proj2 (N.eqb_neq 34 x)) by done.
  cbn [List.map List.concat app]. rewrite (proj2 (N.eqb_neq 39 x)) by done.
  reflexivity.
Qed.

Lemma entity_harmless c : forallb harmless (entity c) = true.
Proof.
  unfold entity.
  repeat match goal with
         | |- context [(c =? ?k)%N] => destruct (N.eqb_spec c k); [ reflexivity | ]
         end.
  cbn. unfold harmless.
  rewrite !(proj2 (N.eqb_neq _ _)) by done. reflexivity.
Qed.

Lemma html_escape_harmless s : forallb harmless (html_escape s) = true.
Proof.
  rewrite html_escape_entities. induction s as [ | c s IH ]; [ reflexivity | ].
  cbn [List.map List.concat]. by rewrite forallb_app, entity_harmless, IH.
Qed.

(** X17.  Text goes into the viewers escaped.  [h] and [escape] return the
    empty text for [None]; for any other value they return its text with
    [&amp;], [&lt;], [&gt;], [&quot;] and [&#x27;] in the place of the five
    special characters and every other character as it is.  So what they
    return holds no angle bracket and no quote, whatever the document
    holds. *)
Theorem viewer_text_is_escaped (py_str : Document -> str) (text : Document) :
  h py_str DNull = [] /\ escape py_str DNull = []
  /\ (is_none text = false ->
      h py_str text = List.concat (List.map entity (py_str text))
      /\ escape py_str text = h py_str text)
  /\ forallb harmless (h py_str text) = true
  /\ forallb harmless (escape py_str text) = true.
Proof.
  split; [ reflexivity | ]. split; [ reflexivity | ]. split.
  - intros Hn. unfold h, escape. rewrite Hn. by rewrite html_escape_entities.
  - unfold h, escape. destruct (is_none text); [ done | ].
    by rewrite html_escape_harmless.
Qed.

Lemma viewer_text_is_escaped_witness :
  h (fun d => match d with DStr s => s | _ => [] end)
    (DStr (q "<a href='x'>Q&A</a>"))
  = q "&lt;a href=&quot;x&quot;&gt;Q&amp;A&lt;/a&gt;".
Proof.
  rewrite (proj1 (proj1 (proj2 (proj2 (viewer_text_is_escaped
             (fun d => match d with DStr s => s | _ => [] end)
             (DStr (q "<a href='x'>Q&A</a>"))))) eq_refl)).
  vm_compute. reflexivity.
Defined.

(** ** The first answer *)

(** X18.  The first answer wins.  When attempt [k] (of the three) is the
    first to get an answer from the model, [call_gemini] returns that
    answer as a success and has made exactly [k + 1] requests.  When
    attempt [k] is the first whose answer the robust parser can read, and
    the page's dictionary can be written, [retry_failed.process_page]
    returns that answer with its document as a success, after exactly
    [k + 1] requests. *)
Theorem first_answer_wins (page_num : nat) (respond : nat -> Response) (st : Retry.State)
    (k : nat) (content thinking_ : str) :
  k < 3 ->
  respond k = Answer content thinking_ ->
  ((forall j, j < k -> is_answer (respond j) = false) ->
   (Extract.call_gemini page_num respond).1
   = Some {| page := page_num + 1; book_page := page_num + 37;
             raw_response := content; thinking := thinking_;
             parsed_json := DNull; error := None; status := u "success" |}
   /\ posts (Extract.call_gemini page_num respond).2 = k + 1)
  /\ ((forall j, j < k -> settles (respond j) = false) ->
      settles (respond k) = true ->
      writable (respond k) = true ->
      (Retry.process_page page_num respond st).1.2
      = Return {| page := page_num + 1; book_page := page_num + 37;
                  raw_response := content; thinking := thinking_;
                  parsed_json := py_value (Retry.extract_json_robust content).2;
                  error := None; status := u "success" |}
      /\ posts (Retry.process_page page_num respond st).2 = k + 1).
Proof.
  intros Hk Hans. split.
  - intros Hbefore. unfold Extract.call_gemini. cbn [seq Extract.call_loop].
    destruct k as [ | [ | [ | k ] ] ]; [ | | | lia ].
    + rewrite Hans. done.
    + pose proof (Hbefore 0 ltac:(lia)) as H0. rewrite Hans.
      destruct (respond 0); try discriminate H0; done.
    + pose proof (Hbefore 0 ltac:(lia)) as H0. pose proof (Hbefore 1 ltac:(lia)) as H1.
      rewrite Hans.
      destruct (respond 0); try discriminate H0;
        destruct (respond 1); try discriminate H1; done.
  - intros Hbefore Hsettles _. unfold Retry.process_page. cbn [seq Retry.attempt_loop].
    rewrite Hans in Hsettles. cbn [settles] in Hsettles.
    destruct k as [ | [ | [ | k ] ] ]; [ | | | lia ].
    + rewrite Hans, Hsettles. done.
    + pose proof (Hbefore 0 ltac:(lia)) as H0. rewrite Hans, Hsettles.
      destruct (respond 0) as [ | c0 t0 | e0 ]; cbn [settles] in H0;
        rewrite ?H0, ?Hsettles; done.
    + pose proof (Hbefore 0 ltac:(lia)) as H0. pose proof (Hbefore 1 ltac:(lia)) as H1.
      rewrite Hans, Hsettles.
      destruct (respond 0) as [ | c0 t0 | e0 ]; cbn [settles] in H0;
        destruct (respond 1) as [ | c1 t1 | e1 ]; cbn [settles] in H1;
        rewrite ?H0, ?H1, ?Hsettles; done.
Qed.

Lemma first_answer_wins_witness :
  posts (Extract.call_gemini 4 answers_second).2 = 2
  /\ posts (Retry.process_page 4 answers_second {| Retry.files := ∅; Retry.log := [] |}).2 = 2.
Proof.
  pose proof (first_answer_wins 4 answers_second {| Retry.files := ∅; Retry.log := [] |}
                1 (q "{'a': 1}") [] ltac:(lia) eq_refl) as [H1 H2].
  split.
  - apply H1. intros [ | j ] Hj; [ reflexivity | lia ].
  - apply H2; [ intros [ | j ] Hj; [ reflexivity | lia ] | vm_compute; reflexivity
               | vm_compute; reflexivity ].
Defined.

(** ** The re-parse pass *)

Lemma reparsed_idem d : reparsed (reparsed d) = reparsed d.
Proof.
  destruct (negb (truthy (parsed_json d)) && nonempty (raw_response d)) eqn:Hc.
  - destruct (truthy (py_value (Retry.extract_json_robust (raw_response d)).2)) eqn:Ht.
    + assert (E : reparsed d
                  = {| page := page d; book_page := book_page d;
                       raw_response := raw_response d; thinking := thinking d;
                       parsed_json := py_value (Retry.extract_json_robust (raw_response d)).2;
                       error := error d; status := u "success" |})
        by (unfold reparsed; rewrite Hc; cbn zeta; by rewrite Ht).
      rewrite E. unfold reparsed. cbn [parsed_json raw_response]. by rewrite Ht.
    + assert (E : reparsed d = d)
        by (unfold reparsed; rewrite Hc; cbn zeta; by rewrite Ht).
      by rewrite !E.
  - assert (E : reparsed d = d) by (unfold reparsed; by rewrite Hc).
    by rewrite !E.
Qed.

Lemma alter_same {V} (f : V -> V) (m : gmap nat V) i d :
  m !! i = Some d -> f d = d -> alter f i m = m.
Proof.
  intros Hd Hf. apply map_eq. intros j. destruct (decide (i = j)) as [ <- | Hij ].
  - rewrite lookup_alter_eq, Hd. cbn. by rewrite Hf.
  - by rewrite lookup_alter_ne.
Qed.

Lemma reparse_page_files st i :
  Retry.files (Retry.reparse_page st i) = alter reparsed i (Retry.files st).
Proof.
  unfold Retry.reparse_page.
  destruct (Retry.files st !! i) as [ d | ] eqn:Hd.
  - destruct (negb (truthy (parsed_json d)) && nonempty (raw_response d)) eqn:Hc.
    + destruct (truthy (py_value (Retry.extract_json_robust (raw_response d)).2)) eqn:Ht.
      * assert (E : reparsed d
                    = {| page := page d; book_page := book_page d;
                         raw_response := raw_response d; thinking := thinking d;
                         parsed_json :=
                           py_value (Retry.extract_json_robust (raw_response d)).2;
                         error := error d; status := u "success" |})
          by (unfold reparsed; rewrite Hc; cbn zeta; by rewrite Ht).
        cbn [Retry.write Retry.read Retry.files].
        apply map_eq. intros j. destruct (decide (i = j)) as [ <- | Hij ].
        -- rewrite lookup_insert_eq, lookup_alter_eq, Hd. cbn. by rewrite E.
        -- by rewrite lookup_insert_ne, lookup_alter_ne.
      * assert (E : reparsed d = d)
          by (unfold reparsed; rewrite Hc; cbn zeta; by rewrite Ht).
        cbn [Retry.read Retry.files]. symmetry. by eapply alter_same.
    + assert (E : reparsed d = d) by (unfold reparsed; by rewrite Hc).
      cbn [Retry.read Retry.files]. symmetry. by eapply alter_same.
  - symmetry. apply map_eq. intros j. destruct (decide (i = j)) as [ <- | Hij ].
    + by rewrite lookup_alter_eq, Hd.
    + by rewrite lookup_alter_ne.
Qed.

Lemma reparse_lookup pages : forall st i,
  Retry.files (Retry.reparse pages st) !! i
  = if bool_decide (i ∈ pages) then reparsed <$> Retry.files st !! i
    else Retry.files st !! i.
Proof.
  unfold Retry.reparse.
  induction pages as [ | p pages IH ]; intros st i; cbn [foldl].
  - by rewrite bool_decide_eq_false_2 by apply not_elem_of_nil.
  - rewrite IH, reparse_page_files.
    destruct (decide (p = i)) as [ -> | Hne ].
    + rewrite lookup_alter_eq.
      rewrite (bool_decide_eq_true_2 (i ∈ i :: pages)) by left.
      destruct (bool_decide (i ∈ pages)); [ | done ].
      destruct (Retry.files st !! i); cbn; [ by rewrite reparsed_idem | done ].
    + rewrite lookup_alter_ne by done.
      apply (f_equal (fun b : bool => if b then _ else _)).
      apply bool_decide_ext. rewrite elem_of_cons. split; [ auto | ].
      intros [ ? | ? ]; [ congruence | done ].
Qed.



(** ** An object in the middle of a text *)

Lemma brace_free_balanced s : brace_free s = true -> balanced s.
Proof.
  induction s as [ | c s IH ]; intros H depth seen rest Hd.
  - by rewrite app_nil_r.
  - cbn [brace_free forallb] in H. apply andb_true_iff in H as [Hc Hs].
    apply negb_true_iff, orb_false_iff in Hc as [H1 H2].
    cbn [app Retry.scan_depth]. rewrite H1, H2.
    rewrite (proj2 (Z.eqb_neq depth 0)) by lia.
    rewrite (IH Hs depth (seen ++ [c]) rest Hd). by rewrite <- app_assoc.
Qed.

Lemma balanced_app a b : balanced a -> balanced b -> balanced (a ++ b).
Proof.
  intros Ha Hb depth seen rest Hd.
  by rewrite <- app_assoc, Ha, Hb, app_assoc.
Qed.

Lemma balanced_wrap s : balanced s -> balanced (123%N :: s ++ [125%N]).
Proof.
  intros Hs depth seen rest Hd. cbn [app Retry.scan_depth].
  change (123 =? 123)%N with true. cbn iota.
  rewrite (proj2 (Z.eqb_neq (depth + 1) 0)) by lia.
  rewrite <- app_assoc, (Hs (depth + 1)%Z) by lia.
  cbn [app Retry.scan_depth]. change (125 =? 123)%N with false.
  change (125 =? 125)%N with true. cbn iota.
  replace (depth + 1 - 1)%Z with depth by lia.
  rewrite (proj2 (Z.eqb_neq depth 0)) by lia.
  f_equal. rewrite <- !app_assoc. reflexivity.
Qed.

Lemma join_balanced sep parts :
  balanced sep -> Forall balanced parts -> balanced (join sep parts).
Proof.
  intros Hsep. induction 1 as [ | x l Hx Hl IH ]; [ by apply brace_free_balanced | ].
  destruct l as [ | y l ]; [ exact Hx | ].
  change (join sep (x :: y :: l)) with (x ++ sep ++ join sep (y :: l)).
  auto using balanced_app.
Qed.

Lemma escape_char_brace_free c :
  (c =? 123)%N || (c =? 125)%N = false -> brace_free (escape_char c) = true.
Proof.
  intros Hc. destruct (c <? 32)%N eqn:Hsmall.
  - destruct (small_char c Hsmall) as (n & Hn & ->).
    do 32 (destruct n as [ | n ]; [ vm_compute; reflexivity | ]). lia.
  - unfold escape_char. rewrite Hsmall. apply N.ltb_ge in Hsmall.
    repeat match goal with
           | |- context [(c =? ?k)%N] =>
               destruct (N.eqb_spec c k); [ subst; vm_compute; reflexivity | ]
           end.
    cbn. by rewrite Hc.
Qed.

Lemma encode_basestring_brace_free s :
  brace_free s = true -> brace_free (encode_basestring s) = true.
Proof.
  intros Hs. unfold encode_basestring, brace_free in *. cbn [forallb].
  rewrite forallb_app. cbn. rewrite andb_true_r.
  induction s as [ | c s IH ]; [ reflexivity | ].
  cbn [forallb] in Hs. apply andb_true_iff in Hs as [Hc Hs].
  cbn [List.map List.concat]. rewrite forallb_app, IH by done.
  rewrite andb_true_r. apply escape_char_brace_free. by apply negb_true_iff.
Qed.

Lemma int_repr_brace_free z : brace_free (int_repr z) = true.
Proof.
  assert (Hd : forall d, brace_free (digits_of_uint d) = true)
    by (induction d; cbn; done).
  unfold int_repr. destruct (Z.to_int z); [ apply Hd | cbn; apply Hd ].
Qed.

Lemma newline_indent_brace_free indent level :
  brace_free (newline_indent indent level) = true.
Proof.
  destruct indent as [ n | ]; [ | reflexivity ]. cbn.
  induction (n * level) as [ | k IH ]; [ reflexivity | exact IH ].
Qed.

Lemma item_separator_brace_free indent : brace_free (item_separator indent) = true.
Proof. by destruct indent. Qed.

Lemma separator_balanced indent level :
  balanced (item_separator indent ++ newline_indent indent level).
Proof.
  apply balanced_app; apply brace_free_balanced;
    [ apply item_separator_brace_free | apply newline_indent_brace_free ].
Qed.

(** The braces the encoder writes match, as long as the strings hold
    none. *)
Lemma encode_balanced indent d : forall level,
  braces_only_in_structure d = true -> balanced (encode indent level d).
Proof.
  induction d as [ | b | z | x | s | items IH | entries IH ] using Document_induction;
    intros level Hb.
  - by apply brace_free_balanced.
  - destruct b; by apply brace_free_balanced.
  - apply brace_free_balanced, int_repr_brace_free.
  - by apply brace_free_balanced.
  - by apply brace_free_balanced, encode_basestring_brace_free.
  - destruct items as [ | x items ]; [ by apply brace_free_balanced | ].
    rewrite encode_seq_cons. cbn [braces_only_in_structure] in Hb.
    rewrite forallb_forall in Hb.
    apply (balanced_app [91%N]); [ by apply brace_free_balanced | ].
    apply balanced_app; [ apply brace_free_balanced, newline_indent_brace_free | ].
    apply balanced_app; [ | apply balanced_app; apply brace_free_balanced;
                              [ apply newline_indent_brace_free | done ] ].
    apply join_balanced; [ apply separator_balanced | ].
    apply Forall_fmap, Forall_forall. intros y Hy. unfold compose.
    rewrite Forall_forall in IH. apply IH; [ exact Hy | ].
    apply Hb. by apply list_elem_of_In.
  - destruct entries as [ | kv entries ]; [ exact (balanced_wrap [] (brace_free_balanced [] eq_refl)) | ].
    rewrite encode_map_cons. cbn [braces_only_in_structure] in Hb.
    rewrite forallb_forall in Hb.
    rewrite !app_assoc. apply balanced_wrap. rewrite <- !app_assoc.
    apply balanced_app; [ apply brace_free_balanced, newline_indent_brace_free | ].
    apply balanced_app; [ | apply brace_free_balanced, newline_indent_brace_free ].
    apply join_balanced; [ apply separator_balanced | ].
    apply Forall_fmap, Forall_forall. intros y Hy. unfold compose.
    assert (Hy' : brace_free y.1 && braces_only_in_structure y.2 = true)
      by (apply (Hb y); by apply list_elem_of_In).
    apply andb_true_iff in Hy' as [Hk Hv].
    apply balanced_app; [ by apply brace_free_balanced, encode_basestring_brace_free | ].
    apply (balanced_app (u ": ")); [ by apply brace_free_balanced | ].
    rewrite Forall_forall in IH. by apply IH.
Qed.

(** The text of a dictionary is what the brace counter cuts out. *)
Lemma scan_depth_dict indent entries suffix :
  braces_only_in_structure (DMap entries) = true ->
  Retry.scan_depth 0 [] (json_dumps indent (DMap entries) ++ suffix)
  = Some (json_dumps indent (DMap entries)).
Proof.
  intros Hb. unfold json_dumps.
  assert (Hshape : exists inner, encode indent 0 (DMap entries) = 123%N :: inner ++ [125%N]
                                 /\ balanced inner).
  { destruct entries as [ | kv entries ].
    - exists []. split; [ reflexivity | by apply brace_free_balanced ].
    - eexists. split; [ rewrite encode_map_cons, !app_assoc; reflexivity | ].
      rewrite <- !app_assoc.
      pose proof (encode_balanced indent (DMap (kv :: entries)) 0 Hb) as H.
      cbn [braces_only_in_structure] in Hb. rewrite forallb_forall in Hb.
      apply balanced_app; [ apply brace_free_balanced, newline_indent_brace_free | ].
      apply balanced_app; [ | apply brace_free_balanced, newline_indent_brace_free ].
      apply join_balanced; [ apply separator_balanced | ].
      apply Forall_fmap, Forall_forall. intros y Hy. unfold compose.
      assert (Hy' : brace_free y.1 && braces_only_in_structure y.2 = true)
        by (apply (Hb y); by apply list_elem_of_In).
      apply andb_true_iff in Hy' as [Hk Hv].
      apply balanced_app; [ by apply brace_free_balanced, encode_basestring_brace_free | ].
      apply (balanced_app (u ": ")); [ by apply brace_free_balanced | ].
      by apply encode_balanced. }
  destruct Hshape as (inner & -> & Hinner).
  cbn [app Retry.scan_depth]. change (123 =? 123)%N with true. cbn iota.
  change (0 + 1 =? 0)%Z with false. cbn iota.
  rewrite <- app_assoc, (Hinner 1%Z) by lia.
  cbn [app Retry.scan_depth]. reflexivity.
Qed.

(** X20.  The balanced-brace stage finds a dictionary in the middle of a
    text: when a response holds the serialization of a dictionary whose
    strings and keys hold no brace, after a text without an opening brace
    and before any text at all, the stage cuts the serialization out and
    parses it; so when the response holds no fence and neither the direct
    parse nor the trailing-comma repair gives a document,
    [extract_json_robust] returns that dictionary. *)
Theorem embedded_dict_is_extracted (prefix suffix : str) (indent : option nat)
    (entries : list (str * Document)) :
  Forall (fun c => c <> 123%N) prefix ->
  valid_doc (DMap entries) = true ->
  braces_only_in_structure (DMap entries) = true ->
  py_find (u "```") (prefix ++ json_dumps indent (DMap entries) ++ suffix) = None ->
  parse (prefix ++ json_dumps indent (DMap entries) ++ suffix) = None ->
  parse (re_sub trailing_comma_re backref1
           (prefix ++ json_dumps indent (DMap entries) ++ suffix)) = None ->
  Retry.outermost_braces (prefix ++ json_dumps indent (DMap entries) ++ suffix)
  = Some (DMap entries)
  /\ Retry.extract_json_robust (prefix ++ json_dumps indent (DMap entries) ++ suffix)
     = ([Fence; Direct; TrailingComma; BalancedBrace], Some (DMap entries)).
Proof.
  intros Hprefix Hv Hb Hfence Hdirect Hcomma.
  assert (Hbrace : Retry.outermost_braces
                     (prefix ++ json_dumps indent (DMap entries) ++ suffix)
                   = Some (DMap entries)).
  { unfold Retry.outermost_braces. change (u "{") with [123%N].
    rewrite (py_find_after_absent 123%N [] prefix
               (json_dumps indent (DMap entries) ++ suffix) Hprefix)
      by (by destruct entries).
    rewrite drop_app_length, scan_depth_dict by done.
    by rewrite json_loads_dumps. }
  split; [ exact Hbrace | ].
  unfold Retry.extract_json_robust.
  assert (Hne : nonempty (prefix ++ json_dumps indent (DMap entries) ++ suffix) = true)
    by (destruct prefix; [ by destruct entries | done ]).
  rewrite Hne. cbn [negb]. unfold fence_re. rewrite re_search_no_literal by done.
  unfold parse in Hdirect, Hcomma.
  destruct (json_loads (prefix ++ _)); [ discriminate Hdirect | ].
  destruct (json_loads (re_sub _ _ _)); [ discriminate Hcomma | ].
  by rewrite Hbrace.
Qed.

Lemma embedded_dict_is_extracted_witness :
  Retry.extract_json_robust
    (u "Here is the page: "
       ++ json_dumps (Some 2) (DMap [(u "a", DSeq [DNum 1; DNum 2])]) ++ u " Done.")
  = ([Fence; Direct; TrailingComma; BalancedBrace],
     Some (DMap [(u "a", DSeq [DNum 1; DNum 2])])).
Proof.
  refine (proj2 (embedded_dict_is_extracted (u "Here is the page: ") (u " Done.") (Some 2)
                   [(u "a", DSeq [DNum 1; DNum 2])] _ _ _ _ _ _)).
  - vm_compute. repeat constructor; discriminate.
  - vm_compute. reflexivity.
  - vm_compute. reflexivity.
  - vm_compute. reflexivity.
  - vm_compute. reflexivity.
  - vm_compute. reflexivity.
Defined.

(** ** One recovery in two scripts *)

(** X21.  The recovery of [gemini_qa.py] is [extract_json_robust] without
    its last resort: on every answer it gives the document the first four
    stages of [extract_json_robust] give, and [None] where only the
    truncation repair would have given one. *)
Theorem qa_recovery_is_robust_without_last_resort (content : str) :
  GeminiQa.parsed_qa content
  = without_last_resort (Retry.extract_json_robust content).
Proof.
  unfold GeminiQa.parsed_qa, Retry.extract_json_robust, without_last_resort.
  destruct content as [ | c content ]; [ reflexivity | ].
  cbn [nonempty negb].
  set (text := match re_search fence_re (c :: content) with
               | Some g => strip (backref1 g)
               | None => c :: content
               end).
  cbn zeta. destruct (json_loads text); [ reflexivity | ].
  destruct (json_loads (re_sub _ _ _)); [ reflexivity | ].
  destruct (Retry.outermost_braces text); reflexivity.
Qed.

(** ** The trailing-comma repair *)

Lemma comma_free_safe s : comma_free s = true -> comma_safe s.
Proof.
  induction s as [ | c s IH ]; intros H t; [ reflexivity | ].
  cbn [comma_free forallb] in H. apply andb_true_iff in H as [Hc Hs].
  apply negb_true_iff in Hc.
  cbn [app sub_from]. unfold match_here, trailing_comma_re. cbn [rmatch].
  change (u ",") with [44%N]. rewrite startswith_cons, N.eqb_sym, Hc. cbn [andb].
  f_equal. by apply IH.
Qed.

Lemma comma_safe_app a b : comma_safe a -> comma_safe b -> comma_safe (a ++ b).
Proof. intros Ha Hb t. by rewrite <- app_assoc, Ha, Hb, app_assoc. Qed.

(** After a comma and white space, an item: the pattern does not match. *)
Lemma star_greedy_no_closer {A} ws c rest (k : str -> option A) :
  Forall (fun x => isspace x = true) ws ->
  isspace c = false -> is_closer c = false ->
  (forall x l, is_closer x = false -> k (x :: l) = None) ->
  star_greedy isspace (ws ++ c :: rest) k = None.
Proof.
  intros Hws Hc Hcl Hk. induction Hws as [ | w ws Hw _ IH ].
  - cbn [app star_greedy]. rewrite Hc. by apply Hk.
  - cbn [app star_greedy]. rewrite Hw, IH. apply Hk.
    unfold is_closer. unfold isspace in Hw.
    destruct (N.eqb_spec w 125) as [ -> | ]; [ discriminate Hw | ].
    destruct (N.eqb_spec w 93) as [ -> | ]; [ discriminate Hw | ]. reflexivity.
Qed.

Lemma match_here_no_closer ws c rest :
  Forall (fun x => isspace x = true) ws ->
  isspace c = false -> is_closer c = false ->
  match_here trailing_comma_re (44%N :: ws ++ c :: rest) = None.
Proof.
  intros Hws Hc Hcl. unfold match_here, trailing_comma_re. cbn [rmatch].
  change (startswith (u ",") (44%N :: ws ++ c :: rest)) with true. cbn iota.
  change (drop (length (u ",")) (44%N :: ws ++ c :: rest)) with (ws ++ c :: rest).
  apply star_greedy_no_closer; try done.
  intros x l Hx. by rewrite Hx.
Qed.

Lemma separator_safe ws part :
  Forall (fun x => isspace x = true) ws ->
  comma_free ws = true ->
  opens_item part -> comma_safe part ->
  comma_safe (44%N :: ws ++ part).
Proof.
  intros Hws Hfree Hopen Hpart t.
  destruct part as [ | c rest ]; [ done | ]. destruct Hopen as [Hc Hcl].
  cbn [app sub_from]. rewrite <- app_assoc. cbn [app].
  rewrite (match_here_no_closer ws c (rest ++ t)) by done.
  f_equal. rewrite (comma_free_safe ws Hfree), <- app_assoc. f_equal.
  exact (Hpart t).
Qed.

Lemma join_opens {A} (f : A -> str) sep x xs :
  opens_item (f x) -> opens_item (join sep (List.map f (x :: xs))).
Proof.
  intros H. destruct (f x) as [ | c l ] eqn:E; [ done | ].
  destruct xs as [ | y ys ]; cbn [List.map join]; rewrite E; exact H.
Qed.

Lemma join_safe {A} (f : A -> str) ws items :
  Forall (fun x => isspace x = true) ws -> comma_free ws = true ->
  Forall (fun x => opens_item (f x) /\ comma_safe (f x)) items ->
  comma_safe (join (44%N :: ws) (List.map f items)).
Proof.
  intros Hws Hfree. induction 1 as [ | x l [Hx1 Hx2] Hl IH ]; [ by apply comma_free_safe | ].
  destruct l as [ | y l ]; [ exact Hx2 | ].
  rewrite join_step. apply comma_safe_app; [ exact Hx2 | ].
  cbn [app]. apply separator_safe; try done.
  inversion Hl as [ | ? ? [Hy1 Hy2] Hl' ]; subst. by apply join_opens.
Qed.

(** The separator the encoder puts between two items: a comma, then white
    space without a comma. *)
Lemma separator_shape indent level :
  exists ws, item_separator indent ++ newline_indent indent level = 44%N :: ws
             /\ Forall (fun x => isspace x = true) ws /\ comma_free ws = true.
Proof.
  destruct indent as [ n | ].
  - exists (10%N :: List.repeat 32%N (n * level)). split; [ reflexivity | ].
    split.
    + constructor; [ reflexivity | ]. apply Forall_forall. intros x Hx.
      apply list_elem_of_In, repeat_spec in Hx. by subst.
    + cbn. induction (n * level) as [ | k IH ]; [ reflexivity | exact IH ].
  - exists [32%N]. split; [ reflexivity | ]. split; [ by repeat constructor | reflexivity ].
Qed.

Lemma newline_indent_comma_free indent level :
  comma_free (newline_indent indent level) = true.
Proof.
  destruct indent as [ n | ]; [ | reflexivity ]. cbn.
  induction (n * level) as [ | k IH ]; [ reflexivity | exact IH ].
Qed.

Lemma escape_char_comma_free c :
  (c =? 44)%N = false -> comma_free (escape_char c) = true.
Proof.
  intros Hc. destruct (c <? 32)%N eqn:Hsmall.
  - destruct (small_char c Hsmall) as (n & Hn & ->).
    do 32 (destruct n as [ | n ]; [ vm_compute; reflexivity | ]). lia.
  - unfold escape_char. rewrite Hsmall. apply N.ltb_ge in Hsmall.
    repeat match goal with
           | |- context [(c =? ?k)%N] =>
               destruct (N.eqb_spec c k); [ subst; vm_compute; reflexivity | ]
           end.
    cbn. by rewrite Hc.
Qed.

Lemma encode_basestring_comma_free s :
  comma_free s = true -> comma_free (encode_basestring s) = true.
Proof.
  intros Hs. unfold encode_basestring, comma_free in *. cbn [forallb].
  rewrite forallb_app. cbn. rewrite andb_true_r.
  induction s as [ | c s IH ]; [ reflexivity | ].
  cbn [forallb] in Hs. apply andb_true_iff in Hs as [Hc Hs].
  cbn [List.map List.concat]. rewrite forallb_app, IH by done.
  rewrite andb_true_r. apply escape_char_comma_free. by apply negb_true_iff.
Qed.

Lemma int_repr_comma_free z : comma_free (int_repr z) = true.
Proof.
  assert (Hd : forall d, comma_free (digits_of_uint d) = true)
    by (induction d; cbn; done).
  unfold int_repr. destruct (Z.to_int z); [ apply Hd | cbn; apply Hd ].
Qed.

Lemma starts_value_opens c l : starts_value c = true -> opens_item (c :: l).
Proof.
  intros H. split.
  - unfold starts_value, is_digit in H. unfold isspace.
    rewrite !orb_true_iff, !andb_true_iff, !N.leb_le, !N.eqb_eq in H.
    rewrite !orb_false_iff, !andb_false_iff, !N.leb_gt, !N.eqb_neq. lia.
  - apply starts_value_not_closing in H as [H1 H2]. unfold is_closer. by rewrite H1, H2.
Qed.

Lemma encode_opens indent level d :
  valid_doc d = true -> opens_item (encode indent level d).
Proof.
  intros Hv. destruct (encode_head indent level d Hv) as (c & l & -> & Hc).
  by apply starts_value_opens.
Qed.

(** In what the encoder writes, no comma stands before a closing bracket,
    as long as the strings hold no comma. *)
Lemma encode_comma_safe indent d : forall level,
  valid_doc d = true -> commas_only_in_structure d = true ->
  comma_safe (encode indent level d).
Proof.
  induction d as [ | b | z | x | s | items IH | entries IH ] using Document_induction;
    intros level Hv Hc.
  - by apply comma_free_safe.
  - destruct b; by apply comma_free_safe.
  - apply comma_free_safe, int_repr_comma_free.
  - by apply comma_free_safe.
  - by apply comma_free_safe, encode_basestring_comma_free.
  - destruct items as [ | x items ]; [ by apply comma_free_safe | ].
    rewrite encode_seq_cons.
    cbn [valid_doc] in Hv. cbn [commas_only_in_structure] in Hc.
    rewrite forallb_forall in Hv, Hc.
    destruct (separator_shape indent (S level)) as (ws & -> & Hws & Hfree).
    apply (comma_safe_app [91%N]); [ by apply comma_free_safe | ].
    apply comma_safe_app; [ apply comma_free_safe, newline_indent_comma_free | ].
    apply comma_safe_app;
      [ | apply comma_safe_app; apply comma_free_safe;
          [ apply newline_indent_comma_free | done ] ].
    apply join_safe; [ done | done | ].
    apply Forall_forall. intros y Hy.
    assert (valid_doc y = true) by (apply Hv; by apply list_elem_of_In).
    assert (commas_only_in_structure y = true) by (apply Hc; by apply list_elem_of_In).
    split; [ by apply encode_opens | ].
    rewrite Forall_forall in IH. by apply IH.
  - destruct entries as [ | kv entries ]; [ by apply comma_free_safe | ].
    rewrite encode_map_cons.
    cbn [valid_doc] in Hv. cbn [commas_only_in_structure] in Hc.
    apply andb_true_iff in Hv as [_ Hv]. rewrite forallb_forall in Hv, Hc.
    destruct (separator_shape indent (S level)) as (ws & -> & Hws & Hfree).
    apply (comma_safe_app [123%N]); [ by apply comma_free_safe | ].
    apply comma_safe_app; [ apply comma_free_safe, newline_indent_comma_free | ].
    apply comma_safe_app;
      [ | apply comma_safe_app; apply comma_free_safe;
          [ apply newline_indent_comma_free | done ] ].
    apply join_safe; [ done | done | ].
    apply Forall_forall. intros y Hy.
    assert (valid_doc y.2 = true) by (apply (Hv y); by apply list_elem_of_In).
    assert (Hy' : comma_free y.1 && commas_only_in_structure y.2 = true)
      by (apply (Hc y); by apply list_elem_of_In).
    apply andb_true_iff in Hy' as [Hk Hval].
    split; [ by split | ].
    apply comma_safe_app; [ by apply comma_free_safe, encode_basestring_comma_free | ].
    apply (comma_safe_app (u ": ")); [ by apply comma_free_safe | ].
    rewrite Forall_forall in IH. by apply IH.
Qed.

Lemma final_comma indent closer :
  is_closer closer = true ->
  sub_from trailing_comma_re backref1 0 (44%N :: newline_indent indent 0 ++ [closer])
  = newline_indent indent 0 ++ [closer].
Proof.
  intros H. unfold is_closer in H. apply orb_true_iff in H.
  destruct indent as [ n | ]; cbn [newline_indent]; rewrite ?Nat.mul_0_r;
    destruct H as [ H | H ]; apply N.eqb_eq in H; subst closer; reflexivity.
Qed.

Lemma items_safe indent (items : list Document) :
  Forall (fun y => valid_doc y = true /\ commas_only_in_structure y = true) items ->
  comma_safe (join (item_separator indent ++ newline_indent indent 1)
                   (List.map (encode indent 1) items)).
Proof.
  intros H. destruct (separator_shape indent 1) as (ws & -> & Hws & Hfree).
  apply join_safe; [ done | done | ].
  eapply Forall_impl; [ exact H | ]. intros y [Hv Hc].
  split; [ by apply encode_opens | by apply encode_comma_safe ].
Qed.

Lemma entries_safe indent (entries : list (str * Document)) :
  Forall (fun kv => valid_doc kv.2 = true
                    /\ comma_free kv.1 && commas_only_in_structure kv.2 = true) entries ->
  comma_safe (join (item_separator indent ++ newline_indent indent 1)
                   (List.map (fun kv => encode_basestring kv.1 ++ u ": "
                                          ++ encode indent 1 kv.2) entries)).
Proof.
  intros H. destruct (separator_shape indent 1) as (ws & -> & Hws & Hfree).
  apply join_safe; [ done | done | ].
  eapply Forall_impl; [ exact H | ]. intros y [Hv Hc].
  apply andb_true_iff in Hc as [Hk Hval].
  split; [ by split | ].
  apply comma_safe_app; [ by apply comma_free_safe, encode_basestring_comma_free | ].
  apply (comma_safe_app (u ": ")); [ by apply comma_free_safe | ].
  by apply encode_comma_safe.
Qed.

Lemma trailing_comma_removed indent d :
  valid_doc d = true -> commas_only_in_structure d = true ->
  re_sub trailing_comma_re backref1 (with_trailing_comma indent d) = json_dumps indent d.
Proof.
  intros Hv Hc. unfold re_sub.
  assert (Hplain : sub_from trailing_comma_re backref1 0 (json_dumps indent d)
                   = json_dumps indent d).
  { pose proof (encode_comma_safe indent d 0 Hv Hc []) as H.
    rewrite app_nil_r in H. cbn [sub_from] in H. rewrite app_nil_r in H. exact H. }
  destruct d as [ | b | z | x | s | [ | x items ] | [ | kv entries ] ]; try exact Hplain.
  - unfold with_trailing_comma, json_dumps. rewrite encode_seq_cons.
    cbn [valid_doc] in Hv. cbn [commas_only_in_structure] in Hc.
    rewrite forallb_forall in Hv, Hc.
    change (u "[") with [91%N]. change (u ",") with [44%N]. change (u "]") with [93%N].
    rewrite (comma_free_safe [91%N] eq_refl).
    rewrite (comma_free_safe _ (newline_indent_comma_free indent 1)).
    rewrite items_safe.
    + cbn [app]. by rewrite final_comma.
    + apply Forall_forall. intros y Hy.
      split; [ apply Hv | apply Hc ]; by apply list_elem_of_In.
  - unfold with_trailing_comma, json_dumps. rewrite encode_map_cons.
    cbn [valid_doc] in Hv. cbn [commas_only_in_structure] in Hc.
    apply andb_true_iff in Hv as [_ Hv]. rewrite forallb_forall in Hv, Hc.
    change (u "{") with [123%N]. change (u ",") with [44%N]. change (u "}") with [125%N].
    rewrite (comma_free_safe [123%N] eq_refl).
    rewrite (comma_free_safe _ (newline_indent_comma_free indent 1)).
    rewrite entries_safe.
    + cbn [app]. by rewrite final_comma.
    + apply Forall_forall. intros y Hy.
      split; [ apply (Hv y) | apply (Hc y) ]; by apply list_elem_of_In.
Qed.

Lemma with_trailing_comma_nonempty indent d :
  valid_doc d = true -> nonempty (with_trailing_comma indent d) = true.
Proof.
  intros Hv.
  destruct d as [ | b | z | x | s | [ | x items ] | [ | kv entries ] ];
    try (by apply json_dumps_nonempty); reflexivity.
Qed.

(** ** The parser on a trailing comma *)

Lemma array_loop_closer fuel values rest :
  array_loop fuel values (93%N :: rest) = Err Expecting_value.
Proof.
  destruct fuel as [ | fuel ]; [ reflexivity | ].
  rewrite array_loop_step. destruct fuel as [ | fuel ]; reflexivity.
Qed.

Lemma object_loop_closer fuel pairs rest :
  object_loop fuel pairs (125%N :: rest) = Err Expecting_property_name.
Proof.
  destruct fuel as [ | fuel ]; [ reflexivity | ]. by apply object_loop_not_quote.
Qed.

Section TrailingComma.
Variable indent : option nat.
Variable level : nat.
Variable rest : list N.

Let sep := item_separator indent ++ newline_indent indent (S level).

(** The loop of the array parser reads the items, then stops at the
    bracket that follows the comma. *)
Lemma array_loop_trailing items :
  Forall (fun x => valid_doc x = true /\ reads_back indent x) items ->
  items <> [] ->
  forall values fuel,
    sum_list_with (fun x => S (size x)) items <= fuel ->
    array_loop fuel values
      (join sep (List.map (encode indent (S level)) items)
         ++ 44%N :: newline_indent indent level ++ 93%N :: rest)
    = Err Expecting_value.
Proof.
  induction 1 as [ | x items [Hvx Hx] Hitems IH ]; [ done | ]. intros _ values fuel Hfuel.
  cbn [sum_list_with] in Hfuel. destruct fuel as [ | fuel ]; [ lia | ].
  rewrite array_loop_step. destruct items as [ | y ys ].
  - cbn [List.map join].
    rewrite (Hx (S level) fuel (44%N :: newline_indent indent level ++ 93%N :: rest)
               ltac:(lia) eq_refl).
    cbn [mbind scan_bind].
    change (skip_ws (44%N :: newline_indent indent level ++ 93%N :: rest))
      with (44%N :: newline_indent indent level ++ 93%N :: rest).
    cbv beta iota. rewrite skip_ws_newline_indent.
    change (skip_ws (93%N :: rest)) with (93%N :: rest).
    apply array_loop_closer.
  - rewrite join_step, <- !app_assoc. unfold sep at 1. rewrite <- app_assoc.
    destruct (skip_ws_item_separator indent (S level)
                (join sep (List.map (encode indent (S level)) (y :: ys))
                   ++ 44%N :: newline_indent indent level ++ 93%N :: rest))
      as (t' & Ht' & Hskip).
    rewrite Ht'. rewrite (Hx (S level) fuel (44%N :: t') ltac:(lia) eq_refl).
    cbn [mbind scan_bind]. change (skip_ws (44%N :: t')) with (44%N :: t').
    cbv beta iota. rewrite Hskip.
    inversion Hitems as [ | ? ? [Hvy _] _ ]; subst.
    destruct (join_cons (encode indent (S level)) sep y ys
                (44%N :: newline_indent indent level ++ 93%N :: rest)) as (t & Ht).
    destruct (encode_head indent (S level) y Hvy) as (c & l & Hc & Hstart).
    assert (Hsk : skip_ws (join sep (List.map (encode indent (S level)) (y :: ys))
                             ++ 44%N :: newline_indent indent level ++ 93%N :: rest)
                  = join sep (List.map (encode indent (S level)) (y :: ys))
                      ++ 44%N :: newline_indent indent level ++ 93%N :: rest).
    { rewrite Ht, Hc. cbn [app]. by apply skip_ws_value. }
    rewrite Hsk. apply IH; [ done | cbn [sum_list_with] in *; lia ].
Qed.

Let encode_entry (kv : list N * Document) : list N :=
  encode_basestring kv.1 ++ u ": " ++ encode indent (S level) kv.2.

(** The loop of the object parser reads the entries, then stops at the
    brace that follows the comma. *)
Lemma object_loop_trailing entries :
  Forall (fun kv => valid_doc kv.2 = true /\ reads_back indent kv.2) entries ->
  entries <> [] ->
  forall pairs fuel,
    sum_list_with (fun kv => S (size kv.2)) entries <= fuel ->
    object_loop fuel pairs
      (join sep (List.map encode_entry entries)
         ++ 44%N :: newline_indent indent level ++ 125%N :: rest)
    = Err Expecting_property_name.
Proof.
  induction 1 as [ | [k v] entries [Hvx Hx] Hentries IH ]; [ done | ].
  intros _ pairs fuel Hfuel. cbn [snd] in *.
  cbn [sum_list_with snd] in Hfuel. destruct fuel as [ | fuel ]; [ lia | ].
  destruct (encode_head indent (S level) v Hvx) as (c & l & Hc & Hstart).
  assert (Hentry : forall tail,
    object_loop (S fuel) pairs (encode_entry (k, v) ++ tail)
    = v' ← scan_once fuel (encode indent (S level) v ++ tail);
      match v' with
      | None => Err Expecting_value
      | Some (value, s4) =>
          let pairs' := dict_set pairs k value in
          match skip_ws s4 with
          | 125%N :: rest' => Ok (DMap pairs', rest')
          | 44%N :: s5 => object_loop fuel pairs' (skip_ws s5)
          | _ => Err Expecting_comma
          end
      end).
  { intros tail. unfold encode_entry, encode_basestring. eval_literals.
    cbn [fst snd app]. rewrite <- !app_assoc. cbn [app].
    rewrite object_loop_step, scanstring_encoded. cbn [mbind scan_bind].
    change (skip_ws (58%N :: 32%N :: encode indent (S level) v ++ tail))
      with (58%N :: 32%N :: encode indent (S level) v ++ tail).
    cbv beta iota.
    change (skip_ws (32%N :: encode indent (S level) v ++ tail))
      with (skip_ws (encode indent (S level) v ++ tail)).
    rewrite Hc. cbn [app]. by rewrite (skip_ws_value c _ Hstart). }
  destruct entries as [ | kv more ].
  - cbn [List.map join]. rewrite Hentry.
    rewrite (Hx (S level) fuel (44%N :: newline_indent indent level ++ 125%N :: rest)
               ltac:(lia) eq_refl).
    cbn [mbind scan_bind].
    change (skip_ws (44%N :: newline_indent indent level ++ 125%N :: rest))
      with (44%N :: newline_indent indent level ++ 125%N :: rest).
    cbv beta iota. rewrite skip_ws_newline_indent.
    change (skip_ws (125%N :: rest)) with (125%N :: rest).
    apply object_loop_closer.
  - rewrite join_step, <- !app_assoc. unfold sep at 1. rewrite <- app_assoc.
    destruct (skip_ws_item_separator indent (S level)
                (join sep (List.map encode_entry (kv :: more))
                   ++ 44%N :: newline_indent indent level ++ 125%N :: rest))
      as (t' & Ht' & Hskip).
    rewrite Ht', Hentry. rewrite (Hx (S level) fuel (44%N :: t') ltac:(lia) eq_refl).
    cbn [mbind scan_bind]. change (skip_ws (44%N :: t')) with (44%N :: t').
    cbv beta iota. rewrite Hskip.
    destruct (join_cons encode_entry sep kv more
                (44%N :: newline_indent indent level ++ 125%N :: rest)) as (t & Ht).
    assert (Hsk : skip_ws (join sep (List.map encode_entry (kv :: more))
                             ++ 44%N :: newline_indent indent level ++ 125%N :: rest)
                  = join sep (List.map encode_entry (kv :: more))
                      ++ 44%N :: newline_indent indent level ++ 125%N :: rest).
    { rewrite Ht. reflexivity. }
    rewrite Hsk. apply IH; [ done | cbn [sum_list_with] in *; lia ].
Qed.

End TrailingComma.

Lemma with_trailing_comma_length indent d :
  has_items d = true ->
  length (with_trailing_comma indent d) = S (length (json_dumps indent d)).
Proof.
  destruct d as [ | b | z | x | s | [ | x items ] | [ | kv entries ] ]; try discriminate;
    intros _; unfold with_trailing_comma, json_dumps.
  - rewrite encode_seq_cons. eval_literals. cbn [app length].
    repeat (rewrite !length_app; cbn [length]). lia.
  - rewrite encode_map_cons. eval_literals. cbn [app length].
    repeat (rewrite !length_app; cbn [length]). lia.
Qed.

(** The parser rejects a comma before the closing bracket. *)
Lemma trailing_comma_is_rejected indent d :
  valid_doc d = true -> has_items d = true ->
  parse (with_trailing_comma indent d) = None.
Proof.
  intros Hv Hitems. unfold parse, json_loads.
  pose proof (with_trailing_comma_length indent d Hitems) as Hlen.
  pose proof (size_le_length indent d Hv 0) as Hsize. fold (json_dumps indent d) in Hsize.
  destruct d as [ | b | z | x | s | [ | x items ] | [ | kv entries ] ]; try discriminate.
  - revert Hlen. unfold with_trailing_comma. eval_literals. cbn [app]. intros Hlen.
    change (startswith [65279%N] (91%N :: ?t)) with false. cbn iota.
    match goal with
    | |- context [skip_ws (91%N :: ?t)] => change (skip_ws (91%N :: t)) with (91%N :: t)
    end.
    cbn [valid_doc] in Hv. rewrite forallb_forall in Hv.
    destruct (join_cons (encode indent 1)
                (item_separator indent ++ newline_indent indent 1) x items
                (44%N :: newline_indent indent 0 ++ [93%N])) as (t & Ht).
    destruct (encode_head indent 1 x (Hv x ltac:(left; reflexivity)))
      as (c & l & Hc & Hstart).
    rewrite (scan_once_array_items _ _ c (l ++ t)).
    + change (c :: l ++ t) with ((c :: l) ++ t). rewrite <- Hc, <- Ht.
      rewrite (array_loop_trailing indent 0 [] (x :: items)); [ reflexivity | | done | ].
      * apply Forall_forall. intros y Hy.
        assert (valid_doc y = true) by (apply Hv; by apply list_elem_of_In).
        split; [ done | by apply scan_encode ].
      * cbn [size] in Hsize. cbn [length] in Hlen |- *. lia.
    + rewrite skip_ws_newline_indent. cbn [app] in Ht. rewrite Ht, Hc. cbn [app].
      by apply skip_ws_value.
    + apply (starts_value_not_closing c Hstart).
  - revert Hlen. unfold with_trailing_comma.
    change (u "{") with [123%N]. change (u ",") with [44%N]. change (u "}") with [125%N].
    cbn [app]. intros Hlen.
    change (startswith [65279%N] (123%N :: ?t)) with false. cbn iota.
    match goal with
    | |- context [skip_ws (123%N :: ?t)] => change (skip_ws (123%N :: t)) with (123%N :: t)
    end.
    cbn [valid_doc] in Hv. apply andb_true_iff in Hv as [_ Hv].
    rewrite forallb_forall in Hv.
    destruct (join_cons (fun e => encode_basestring e.1 ++ u ": " ++ encode indent 1 e.2)
                (item_separator indent ++ newline_indent indent 1) kv entries
                (44%N :: newline_indent indent 0 ++ [125%N])) as (t & Ht).
    assert (Hhead : exists l, encode_basestring kv.1 ++ u ": " ++ encode indent 1 kv.2
                              = 34%N :: l)
      by (eexists; reflexivity).
    destruct Hhead as (l & Hl).
    rewrite (scan_once_object_items _ _ 34%N (l ++ t)).
    + change (34%N :: l ++ t) with ((34%N :: l) ++ t). rewrite <- Hl, <- Ht.
      rewrite (object_loop_trailing indent 0 [] (kv :: entries)); [ reflexivity | | done | ].
      * apply Forall_forall. intros e He.
        assert (valid_doc e.2 = true) by (apply (Hv e); by apply list_elem_of_In).
        split; [ done | by apply scan_encode ].
      * cbn [size] in Hsize. cbn [length] in Hlen |- *. lia.
    + rewrite skip_ws_newline_indent. cbn [app] in Ht. rewrite Ht, Hl. reflexivity.
    + reflexivity.
Qed.

(** X22.  The trailing-comma repair repairs a trailing comma.  Take the
    serialization of a list or a dictionary that is not empty, whose
    strings and keys hold no comma and which nowhere holds three backticks
    in a row, and put a comma after its last item: the parser rejects the
    text, the substitution of [extract_json_robust] removes that comma and
    nothing else, and [extract_json_robust] returns the document, at the
    trailing-comma stage. *)
Theorem trailing_comma_is_repaired (indent : option nat) (d : Document) :
  valid_doc d = true ->
  commas_only_in_structure d = true ->
  has_items d = true ->
  py_find (u "```") (with_trailing_comma indent d) = None ->
  parse (with_trailing_comma indent d) = None
  /\ re_sub trailing_comma_re backref1 (with_trailing_comma indent d) = json_dumps indent d
  /\ Retry.extract_json_robust (with_trailing_comma indent d)
     = ([Fence; Direct; TrailingComma], Some d).
Proof.
  intros Hv Hc Hitems Hfence.
  pose proof (trailing_comma_is_rejected indent d Hv Hitems) as Hdirect.
  split; [ exact Hdirect | ]. split; [ by apply trailing_comma_removed | ].
  unfold Retry.extract_json_robust.
  rewrite with_trailing_comma_nonempty by done. cbn [negb].
  unfold fence_re. rewrite re_search_no_literal by done.
  unfold parse in Hdirect.
  destruct (json_loads (with_trailing_comma indent d)); [ discriminate Hdirect | ].
  by rewrite trailing_comma_removed, json_loads_dumps.
Qed.

Lemma trailing_comma_is_repaired_witness :
  with_trailing_comma (Some 2) doc_two_items
  = q "{
  'a': [
    1,
    2
  ],
  'b': 'x',
}"
  /\ Retry.extract_json_robust (with_trailing_comma (Some 2) doc_two_items)
     = ([Fence; Direct; TrailingComma], Some doc_two_items).
Proof.
  split; [ vm_compute; reflexivity | ].
  refine (proj2 (proj2 (trailing_comma_is_repaired (Some 2) doc_two_items _ _ _ _))).
  - vm_compute. reflexivity.
  - vm_compute. reflexivity.
  - vm_compute. reflexivity.
  - vm_compute. reflexivity.
Defined.

(** ** The re-parse pass after the pool *)

(** The re-parse pass leaves alone a page that has a document, and a page
    whose document is what the robust parser makes of its response. *)
Lemma reparsed_settled d :
  truthy (parsed_json d) = true
  \/ parsed_json d = py_value (Retry.extract_json_robust (raw_response d)).2 ->
  reparsed d = d.
Proof.
  intros [ Ht | Hp ]; unfold reparsed.
  - by rewrite Ht.
  - destruct (negb (truthy (parsed_json d)) && nonempty (raw_response d)) eqn:Hc; [ | done ].
    apply andb_true_iff in Hc as [Hc _]. apply negb_true_iff in Hc.
    cbn zeta. by rewrite <- Hp, Hc.
Qed.

Lemma attempt_loop_parsed page_num respond attempts : forall result st st' r effects,
  match result with
  | Some r0 => parsed_json r0 = py_value (Retry.extract_json_robust (raw_response r0)).2
  | None => True
  end ->
  Retry.attempt_loop page_num respond attempts result st = (st', Return r, effects) ->
  parsed_json r = py_value (Retry.extract_json_robust (raw_response r)).2.
Proof.
  induction attempts as [ | attempt rest IH ]; intros result st st' r effects Hres;
    cbn [Retry.attempt_loop].
  - destruct result; [ by intros [= _ <- _] | discriminate ].
  - destruct (respond attempt) as [ | content thinking_ | e ].
    + destruct (Retry.attempt_loop page_num respond rest result st) as [[s o] eff] eqn:Hl.
      intros [= _ -> _]. by eapply IH.
    + match goal with |- context [Retry.write _ ?d st] => set (r1 := d) end.
      destruct (truthy (py_value (Retry.extract_json_robust content).2)).
      * by intros [= _ <- _].
      * destruct (Retry.attempt_loop page_num respond rest (Some r1) _) as [[s o] eff] eqn:Hl.
        intros [= _ -> _]. by eapply (IH (Some r1)).
    + destruct (Retry.attempt_loop page_num respond rest result st) as [[s o] eff] eqn:Hl.
      intros [= _ -> _]. by eapply IH.
Qed.

Lemma pool_raised respond failed : forall st,
  (foldl (Retry.run_page respond) (st, true) failed).2 = true.
Proof.
  induction failed as [ | p rest IH ]; intros st; [ done | ]. cbn [foldl].
  unfold Retry.run_page at 2.
  destruct (Retry.process_page p (respond p) st) as [[st' o] eff]. destruct o; apply IH.
Qed.

(** After a pool in which no call raised, a page file is either one the
    re-parse pass leaves alone or one no call was made for. *)
Lemma run_pool_files respond failed : forall st raised,
  (foldl (Retry.run_page respond) (st, raised) failed).2 = false ->
  forall i d,
    Retry.files (foldl (Retry.run_page respond) (st, raised) failed).1 !! i = Some d ->
    reparsed d = d
    \/ Retry.files st !! i = Some d /\ forall p, p ∈ failed -> i <> p + 1.
Proof.
  induction failed as [ | p rest IH ]; intros st raised Hr i d Hd; cbn [foldl] in *.
  - right. split; [ done | ]. intros p Hp. by apply elem_of_nil in Hp.
  - destruct (Retry.run_page respond (st, raised) p) as [st' raised'] eqn:Hstep.
    unfold Retry.run_page in Hstep.
    pose proof (attempt_loop_saved p (respond p) (seq 0 3) None st I) as Hsaved.
    destruct (Retry.process_page p (respond p) st) as [[s o] eff] eqn:Hp.
    unfold Retry.process_page in Hp. rewrite Hp in Hsaved.
    destruct o as [ r | e ]; injection Hstep as <- <-.
    + destruct (IH s raised Hr i d Hd) as [ H | [H1 H2] ]; [ by left | ].
      destruct Hsaved as [Hfile Hother].
      destruct (decide (i = p + 1)) as [ -> | Hne ].
      * left. rewrite Hfile in H1. injection H1 as <-.
        apply reparsed_settled. right.
        exact (attempt_loop_parsed _ _ _ None _ _ _ _ I Hp).
      * right. rewrite Hother in H1 by done. split; [ done | ].
        intros p' Hp'. apply elem_of_cons in Hp' as [ -> | Hp' ]; [ done | by apply H2 ].
    + by rewrite pool_raised in Hr.
Qed.

(** The pages the first loop of [main] does not put on its list hold a
    success with a document. *)
Lemma find_failed_kept pages : forall st acc,
  Retry.files (foldl Retry.check_page (st, acc) pages).1 = Retry.files st
  /\ (forall x, x ∈ acc -> x ∈ (foldl Retry.check_page (st, acc) pages).2)
  /\ forall i, i ∈ pages ->
       (i - 1) ∈ (foldl Retry.check_page (st, acc) pages).2
       \/ exists d, Retry.files st !! i = Some d /\ Retry.needs_retry d = false.
Proof.
  induction pages as [ | j rest IH ]; intros st acc; cbn [foldl].
  - split; [ done | ]. split; [ done | ]. intros i Hi. by apply elem_of_nil in Hi.
  - destruct (Retry.check_page (st, acc) j) as [st' acc'] eqn:Hstep.
    destruct (IH st' acc') as (Hfiles & Hacc & Hpages).
    assert (Hst : Retry.files st' = Retry.files st
                  /\ (forall x, x ∈ acc -> x ∈ acc')
                  /\ ((j - 1) ∈ acc'
                      \/ exists d, Retry.files st !! j = Some d
                                   /\ Retry.needs_retry d = false)).
    { unfold Retry.check_page in Hstep.
      destruct (Retry.files st !! j) as [ d | ] eqn:Hd.
      - destruct (Retry.needs_retry d) eqn:Hn; injection Hstep as <- <-.
        + split; [ done | ]. split; [ intros x Hx; apply elem_of_app; by left | ].
          left. apply elem_of_app. right. by apply list_elem_of_singleton.
        + split; [ done | ]. split; [ done | ]. right. by exists d.
      - injection Hstep as <- <-.
        split; [ done | ]. split; [ intros x Hx; apply elem_of_app; by left | ].
        left. apply elem_of_app. right. by apply list_elem_of_singleton. }
    destruct Hst as (Hst & Hsub & Hj).
    split; [ by rewrite Hfiles | ]. split; [ auto | ].
    intros i Hi. apply elem_of_cons in Hi as [ -> | Hi ].
    + destruct Hj as [ Hj | Hj ]; [ left; by apply Hacc | by right ].
    + destruct (Hpages i Hi) as [ H | (d & Hd & Hn) ]; [ by left | ].
      right. exists d. by rewrite <- Hst.
Qed.

(** X23.  In a retry pass the re-parse loop of [main] finds nothing to do.
    When the dictionaries of the answers can be written and no call of the
    pool raises, every page file the loop goes through either is a success
    with a document or was just written by [process_page] with what the
    very same parser makes of its response: the loop changes no file. *)
Theorem reparse_pass_changes_nothing (respond : nat -> nat -> Response)
    (st : Retry.State) :
  (forall page_num attempt, attempt < 3 -> writable (respond page_num attempt) = true) ->
  let pages := seq 1 Retry.NUM_PAGES in
  let found := Retry.find_failed pages st in
  let pool := Retry.run_pool respond found.2 found.1 in
  pool.2 = false ->
  Retry.files (Retry.reparse pages pool.1) = Retry.files pool.1.
Proof.
  intros _ pages found pool Hr.
  assert (Hpos : forall i, i ∈ pages -> 1 <= i)
    by (intros i Hi; apply elem_of_seq in Hi; lia).
  clearbody pages.
  destruct (find_failed_kept pages st []) as (Hfiles & _ & Hpages).
  fold (Retry.find_failed pages st) in Hfiles, Hpages. fold found in Hfiles, Hpages.
  apply map_eq. intros i. rewrite reparse_lookup.
  destruct (bool_decide (i ∈ pages)) eqn:Hi; [ | done ].
  apply bool_decide_eq_true in Hi.
  destruct (Retry.files pool.1 !! i) as [ d | ] eqn:Hd; [ | done ]. cbn. f_equal.
  destruct (run_pool_files respond found.2 found.1 false Hr i d Hd) as [ H | [H1 H2] ];
    [ done | ].
  destruct (Hpages i Hi) as [ Hin | (d0 & Hd0 & Hn) ].
  - exfalso. apply (H2 (i - 1) Hin). specialize (Hpos i Hi). lia.
  - rewrite Hfiles in H1. rewrite H1 in Hd0. injection Hd0 as <-.
    apply reparsed_settled. left.
    unfold Retry.needs_retry in Hn. apply orb_false_iff in Hn as [_ Hn].
    by apply negb_false_iff in Hn.
Qed.

Lemma reparse_pass_changes_nothing_witness :
  Retry.files
    (Retry.reparse (seq 1 Retry.NUM_PAGES)
       (Retry.run_pool answers_prose
          (Retry.find_failed (seq 1 Retry.NUM_PAGES)
             {| Retry.files := {[ 1 := page_lost 1 ]}; Retry.log := [] |}).2
          (Retry.find_failed (seq 1 Retry.NUM_PAGES)
             {| Retry.files := {[ 1 := page_lost 1 ]}; Retry.log := [] |}).1).1)
  = Retry.files
      (Retry.run_pool answers_prose
         (Retry.find_failed (seq 1 Retry.NUM_PAGES)
            {| Retry.files := {[ 1 := page_lost 1 ]}; Retry.log := [] |}).2
         (Retry.find_failed (seq 1 Retry.NUM_PAGES)
            {| Retry.files := {[ 1 := page_lost 1 ]}; Retry.log := [] |}).1).1.
Proof.
  refine (reparse_pass_changes_nothing answers_prose
            {| Retry.files := {[ 1 := page_lost 1 ]}; Retry.log := [] |} _ _).
  - intros page_num attempt _. vm_compute. reflexivity.
  - vm_compute. reflexivity.
Defined.

(** ** Three readers of one response *)

Lemma qa_block_retry content thinking_ block :
  Message.qa_block content block
  = match Message.retry_block (content, thinking_) block with
    | Return st => Return st.1
    | Raise e => Raise e
    end.
Proof.
  destruct block as [ | b | z | x | s | items | entries ]; try reflexivity.
  cbn [Message.qa_block Message.retry_block]. cbn zeta.
  destruct (eq_str (default DNull (dict_get entries (u "type"))) (u "thinking")) eqn:Hthinking.
  - assert (Htext : eq_str (default DNull (dict_get entries (u "type"))) (u "text") = false).
    { destruct (default DNull (dict_get entries (u "type"))); try done.
      unfold eq_str, str_eqb in *. apply bool_decide_eq_true in Hthinking as ->. done. }
    by rewrite Htext.
  - destruct (eq_str (default DNull (dict_get entries (u "type"))) (u "text")); [ | done ].
    by destruct (add_text content _).
Qed.

Lemma qa_loop_retry blocks : forall content thinking_,
  for_blocks Message.qa_block content blocks
  = match for_blocks Message.retry_block (content, thinking_) blocks with
    | Return st => Return st.1
    | Raise e => Raise e
    end.
Proof.
  induction blocks as [ | block rest IH ]; intros content thinking_; [ reflexivity | ].
  cbn [for_blocks]. rewrite (qa_block_retry content thinking_).
  destruct (Message.retry_block (content, thinking_) block) as [ [c t] | e ]; [ | done ].
  apply IH.
Qed.

Lemma extract_loop_retry blocks : forall st,
  Forall (fun block => is_bare block = false) blocks ->
  for_blocks Message.extract_block st blocks = for_blocks Message.retry_block st blocks.
Proof.
  induction blocks as [ | block rest IH ]; intros st Hb; [ reflexivity | ].
  inversion Hb as [ | ? ? Hblock Hrest ]; subst. cbn [for_blocks].
  assert (Hstep : Message.extract_block st block = Message.retry_block st block)
    by (destruct st, block; done).
  rewrite Hstep. destruct (Message.retry_block st block); [ by apply IH | done ].
Qed.

Lemma qa_as_retry data :
  Message.qa data
  = match Message.retry data with
    | Return st => Return st.1
    | Raise e => Raise e
    end.
Proof.
  unfold Message.qa, Message.retry, read_message.
  destruct (find_content data) as [ [ msg_content | ] | e ]; [ | done | done ].
  destruct msg_content as [ | b | z | x | s | blocks | entries ]; try done.
  apply qa_loop_retry.
Qed.

(** X24.  The three scripts read the same text from the same response.  On
    every response body, [verify_page] of [gemini_qa.py] gets the content
    [process_page] of [retry_failed.py] gets, and raises when that one
    raises; [call_gemini] of [extract.py] gets the same content and the
    same thinking as [retry_failed.py], and raises alike, unless a block of
    the message is a bare string, which it alone adds to the content. *)
Theorem readers_agree (data : Document) :
  Message.qa data
  = match Message.retry data with
    | Return st => Return st.1
    | Raise e => Raise e
    end
  /\ (Forall (fun block => is_bare block = false) (blocks_of data) ->
      Message.extract data = Message.retry data).
Proof.
  split; [ apply qa_as_retry | ].
  unfold Message.retry, Message.extract, read_message, blocks_of.
  destruct (find_content data) as [ [ msg_content | ] | e ]; [ | done | done ].
  destruct msg_content as [ | b | z | x | s | blocks | entries ]; try done.
  apply extract_loop_retry.
Qed.

Lemma readers_agree_witness :
  Message.qa response_blocks = Return (q "{'a': 1}")
  /\ Message.retry response_blocks = Return (q "{'a': 1}", DStr (u "hmm"))
  /\ Message.extract response_blocks = Return (q "{'a': ?1}", DStr (u "hmm")).
Proof.
  split; [ | split ].
  - rewrite (proj1 (readers_agree response_blocks)). vm_compute. reflexivity.
  - vm_compute. reflexivity.
  - vm_compute. reflexivity.
Defined.

(** ** The content of a response *)

Lemma retry_loop_content blocks : forall content thinking_ st,
  for_blocks Message.retry_block (content, thinking_) blocks = Return st ->
  st.1 = content ++ List.concat (List.map (block_text false) blocks).
Proof.
  induction blocks as [ | block rest IH ]; intros content thinking_ st; cbn [for_blocks].
  - intros [= <-]. cbn. by rewrite app_nil_r.
  - destruct (Message.retry_block (content, thinking_) block) as [ [c t] | e ] eqn:Hblock;
      [ | discriminate ].
    intros Hrest. apply IH in Hrest. rewrite Hrest. cbn [List.map List.concat].
    rewrite app_assoc. f_equal.
    destruct block as [ | b | z | x | s | items | entries ];
      try (injection Hblock as <- _; cbn; by rewrite app_nil_r).
    cbn [Message.retry_block block_text] in *. cbn zeta in Hblock.
    destruct (eq_str (default DNull (dict_get entries (u "type"))) (u "thinking")) eqn:Hthinking.
    + assert (Htext : eq_str (default DNull (dict_get entries (u "type"))) (u "text") = false).
      { destruct (default DNull (dict_get entries (u "type"))); try done.
        unfold eq_str, str_eqb in *. apply bool_decide_eq_true in Hthinking as ->. done. }
      rewrite Htext. injection Hblock as <- _. by rewrite app_nil_r.
    + destruct (eq_str (default DNull (dict_get entries (u "type"))) (u "text")).
      * destruct (dict_get entries (u "text")) as [ [ | | | | s | | ] | ];
          cbn in Hblock; try discriminate Hblock; injection Hblock as <- _;
          by rewrite ?app_nil_r.
      * injection Hblock as <- _. by rewrite app_nil_r.
Qed.

Lemma extract_loop_content blocks : forall content thinking_ st,
  for_blocks Message.extract_block (content, thinking_) blocks = Return st ->
  st.1 = content ++ List.concat (List.map (block_text true) blocks).
Proof.
  induction blocks as [ | block rest IH ]; intros content thinking_ st; cbn [for_blocks].
  - intros [= <-]. cbn. by rewrite app_nil_r.
  - destruct (Message.extract_block (content, thinking_) block) as [ [c t] | e ] eqn:Hblock;
      [ | discriminate ].
    intros Hrest. apply IH in Hrest. rewrite Hrest. cbn [List.map List.concat].
    rewrite app_assoc. f_equal.
    destruct block as [ | b | z | x | s | items | entries ];
      try (injection Hblock as <- _; cbn; by rewrite ?app_nil_r).
    cbn [Message.extract_block block_text] in *. cbn zeta in Hblock.
    destruct (eq_str (default DNull (dict_get entries (u "type"))) (u "thinking")) eqn:Hthinking.
    + assert (Htext : eq_str (default DNull (dict_get entries (u "type"))) (u "text") = false).
      { destruct (default DNull (dict_get entries (u "type"))); try done.
        unfold eq_str, str_eqb in *. apply bool_decide_eq_true in Hthinking as ->. done. }
      rewrite Htext. injection Hblock as <- _. by rewrite app_nil_r.
    + destruct (eq_str (default DNull (dict_get entries (u "type"))) (u "text")).
      * destruct (dict_get entries (u "text")) as [ [ | | | | s | | ] | ];
          cbn in Hblock; try discriminate Hblock; injection Hblock as <- _;
          by rewrite ?app_nil_r.
      * injection Hblock as <- _. by rewrite app_nil_r.
Qed.

(** X25.  What the content of a response is made of.  Whenever one of the
    three scripts gets a content from a response body, it is the content of
    the message of the first choice when that is a string, and otherwise
    the texts of its blocks of type "text", in their order (with the bare
    strings among the blocks, in [extract.py]); it is empty when the
    response has no choice, or a message content that is neither a string
    nor a list.  The text of a thinking block never gets into it. *)
Theorem content_is_the_text_blocks (data : Document) :
  (forall st, Message.retry data = Return st -> st.1 = content_of false data)
  /\ (forall content, Message.qa data = Return content -> content = content_of false data)
  /\ (forall st, Message.extract data = Return st -> st.1 = content_of true data).
Proof.
  assert (Hretry : forall st, Message.retry data = Return st -> st.1 = content_of false data).
  { unfold Message.retry, read_message, content_of.
    destruct (find_content data) as [ [ msg_content | ] | e ];
      [ | by intros st [= <-] | discriminate ].
    destruct msg_content as [ | b | z | x | s | blocks | entries ];
      try (by intros st [= <-]).
    intros st Hst. by apply retry_loop_content in Hst. }
  split; [ exact Hretry | ]. split.
  - intros content Hqa. rewrite qa_as_retry in Hqa.
    destruct (Message.retry data) as [ st | e ] eqn:Hst; [ | discriminate ].
    injection Hqa as <-. by apply Hretry.
  - unfold Message.extract, read_message, content_of.
    destruct (find_content data) as [ [ msg_content | ] | e ];
      [ | by intros st [= <-] | discriminate ].
    destruct msg_content as [ | b | z | x | s | blocks | entries ];
      try (by intros st [= <-]).
    intros st Hst. by apply extract_loop_content in Hst.
Qed.

(** ** The dictionary of a verified page *)

Lemma answered_result page_num content r :
  Verify.answered page_num content = Return r ->
  Verify.page r = page_num /\ Verify.book_page r = page_num + 36
  /\ (truthy (Verify.parsed_qa r) = true ->
      Verify.status r = u "success"
      /\ exists entries,
           Verify.parsed_qa r = DMap entries
           /\ Verify.sized (default (DSeq []) (dict_get entries (u "issues"))) = true)
  /\ (truthy (Verify.parsed_qa r) = false -> Verify.status r = u "parse_failed").
Proof.
  unfold Verify.answered. cbn zeta.
  destruct (storable (DStr content) && storable (GeminiQa.parsed_qa content));
    [ | discriminate ].
  destruct (Verify.report (GeminiQa.parsed_qa content)) as [ [] | e ] eqn:Hreport;
    [ | discriminate ].
  intros [= <-]. cbn [Verify.page Verify.book_page Verify.parsed_qa Verify.status].
  split; [ reflexivity | ]. split; [ reflexivity | ]. split.
  - intros Ht. rewrite Ht. split; [ reflexivity | ].
    unfold Verify.report in Hreport. rewrite Ht in Hreport.
    destruct (GeminiQa.parsed_qa content) as [ | | | | | | entries ]; try discriminate.
    exists entries. split; [ done | ].
    by destruct (Verify.sized (default (DSeq []) (dict_get entries (u "issues")))).
  - by intros ->.
Qed.

Lemma verify_loop_cases page_num respond attempts r :
  (Verify.verify_loop page_num respond attempts).1 = Some r ->
  (exists content, Verify.answered page_num content = Return r)
  \/ r = Verify.failed page_num
     /\ exists attempt, attempt ∈ attempts /\ 2 <= attempt
                        /\ verified page_num (respond attempt) = false
                        /\ respond attempt <> RateLimited.
Proof.
  induction attempts as [ | attempt rest IH ]; cbn [Verify.verify_loop]; [ discriminate | ].
  assert (Hrest : (Verify.verify_loop page_num respond rest).1 = Some r ->
                  (exists content, Verify.answered page_num content = Return r)
                  \/ r = Verify.failed page_num
                     /\ exists a, a ∈ attempt :: rest /\ 2 <= a
                                  /\ verified page_num (respond a) = false
                                  /\ respond a <> RateLimited).
  { intros H. destruct (IH H) as [ ? | (-> & a & Ha & ?) ]; [ by left | ].
    right. split; [ done | ]. exists a. split; [ by right | done ]. }
  assert (Hexc : verified page_num (respond attempt) = false ->
                 respond attempt <> RateLimited ->
                 (if attempt <? 2
                  then let '(r0, effects) := Verify.verify_loop page_num respond rest in
                       (r0, Post attempt :: Sleep 3 :: effects)
                  else (Some (Verify.failed page_num), [Post attempt])).1 = Some r ->
                 (exists content, Verify.answered page_num content = Return r)
                 \/ r = Verify.failed page_num
                    /\ exists a, a ∈ attempt :: rest /\ 2 <= a
                                 /\ verified page_num (respond a) = false
                                 /\ respond a <> RateLimited).
  { intros Hv Hl. destruct (attempt <? 2) eqn:Hlt.
    - destruct (Verify.verify_loop page_num respond rest). exact Hrest.
    - intros [= <-]. right. split; [ done | ]. exists attempt.
      apply Nat.ltb_ge in Hlt. split; [ by left | done ]. }
  destruct (respond attempt) as [ | content thinking_ | e ] eqn:Hresp.
  - destruct (Verify.verify_loop page_num respond rest). exact Hrest.
  - destruct (Verify.answered page_num content) as [ result | e ] eqn:Ha.
    + intros [= <-]. left. by exists content.
    + apply Hexc; [ | done ]. cbn [verified]. by rewrite Ha.
  - by apply Hexc.
Qed.

(** X26.  The dictionary [verify_page] returns.  Whatever the model answers,
    a returned dictionary carries [page = page_num] and [book_page =
    page_num + 36], and its status is "success" exactly when its
    [parsed_qa] is true as a Python value; then [parsed_qa] is a dictionary
    whose [issues] have a length.  An answer that parses to a non-empty
    list, string or number is never returned: the progress message raises
    on it, and the attempt ends as one that raised.  The only other
    statuses are "parse_failed", with a [parsed_qa] that is false, and
    "failed", after a third attempt that raised. *)
Theorem verified_page_is_a_dict (page_num : nat) (respond : nat -> Response)
    (r : Verify.Result) :
  (Verify.verify_loop page_num respond (seq 0 3)).1 = Some r ->
  Verify.page r = page_num /\ Verify.book_page r = page_num + 36
  /\ str_eqb (Verify.status r) (u "success") = truthy (Verify.parsed_qa r)
  /\ (truthy (Verify.parsed_qa r) = true ->
      exists entries,
        Verify.parsed_qa r = DMap entries
        /\ Verify.sized (default (DSeq []) (dict_get entries (u "issues"))) = true)
  /\ (Verify.status r = u "success" \/ Verify.status r = u "parse_failed"
      \/ Verify.status r = u "failed" /\ verified page_num (respond 2) = false
         /\ respond 2 <> RateLimited).
Proof.
  intros Hr.
  destruct (verify_loop_cases _ _ _ _ Hr) as [ (content & Ha) | (-> & a & Hin & Hle & Hv & Hl) ].
  - destruct (answered_result _ _ _ Ha) as (Hp & Hb & Htrue & Hfalse).
    split; [ done | ]. split; [ done | ].
    destruct (truthy (Verify.parsed_qa r)) eqn:Ht.
    + destruct (Htrue eq_refl) as [Hs Hd]. rewrite Hs.
      split; [ done | ]. split; [ by intros _ | ]. by left.
    + rewrite (Hfalse eq_refl). split; [ done | ]. split; [ discriminate | ].
      right. by left.
  - assert (a = 2) as ->.
    { cbn [seq] in Hin. repeat (apply elem_of_cons in Hin as [ -> | Hin ]; [ lia | ]).
      by apply elem_of_nil in Hin. }
    cbn. split; [ done | ]. split; [ done | ]. split; [ done | ]. split; [ discriminate | ].
    right. right. done.
Qed.

Lemma verified_page_is_a_dict_witness :
  (Verify.verify_loop 5 answers_list (seq 0 3)).1 = Some (Verify.failed 5)
  /\ Verify.status (Verify.failed 5) = u "failed"
  /\ verified 5 (answers_list 2) = false.
Proof.
  split; [ vm_compute; reflexivity | ]. split; [ reflexivity | ].
  pose proof (verified_page_is_a_dict 5 answers_list (Verify.failed 5) eq_refl)
    as (_ & _ & _ & _ & [ H | [ H | (_ & H & _) ] ]).
  - discriminate H.
  - discriminate H.
  - exact H.
Defined.

(** ** A third attempt that is rate limited *)

Lemma verify_loop_none page_num respond :
  (Verify.verify_loop page_num respond (seq 0 3)).1 = None
  <-> respond 2 = RateLimited
      /\ verified page_num (respond 0) = false /\ verified page_num (respond 1) = false.
Proof.
  cbn [seq Verify.verify_loop]. unfold verified.
  change (0 <? 2) with true. change (1 <? 2) with true. change (2 <? 2) with false.
  cbn iota.
  destruct (respond 0) as [ | c0 t0 | e0 ];
    [ | destruct (Verify.answered page_num c0) | ];
    (destruct (respond 1) as [ | c1 t1 | e1 ];
     [ | destruct (Verify.answered page_num c1) | ]);
    (destruct (respond 2) as [ | c2 t2 | e2 ];
     [ | destruct (Verify.answered page_num c2) | ]);
    cbn [fst]; split; try done; intros (? & ? & ?); done.
Qed.

Lemma gather_results run completed : forall acc,
  match Verify.gather run completed acc with
  | Return l => exists rs, l = acc ++ rs /\ List.map run completed = List.map Return rs
  | Raise e => exists p, p ∈ completed /\ run p = Raise e
  end.
Proof.
  induction completed as [ | p rest IH ]; intros acc; cbn [Verify.gather].
  - exists []. by rewrite app_nil_r.
  - destruct (run p) as [ r | e ] eqn:Hp.
    + specialize (IH (acc ++ [r])).
      destruct (Verify.gather run rest (acc ++ [r])) as [ l | e ].
      * destruct IH as (rs & -> & Hrs). exists (r :: rs). rewrite <- app_assoc.
        split; [ done | ]. cbn [List.map]. by rewrite Hp, Hrs.
      * destruct IH as (p' & ? & ?). exists p'. split; [ by right | done ].
    + exists p. split; [ left | done ].
Qed.

Lemma subscripted_none results : None ∈ results -> Verify.subscripted results = None.
Proof.
  induction results as [ | [ r | ] rest IH ]; intros Hin.
  - by apply elem_of_nil in Hin.
  - apply elem_of_cons in Hin as [ | Hin ]; [ done | ].
    cbn [Verify.subscripted]. by rewrite IH.
  - reflexivity.
Qed.

Lemma subscripted_all (l : list Verify.Result) :
  Verify.subscripted (List.map Some l) = Some l.
Proof.
  induction l as [ | r l IH ]; [ done | ]. cbn [List.map Verify.subscripted]. by rewrite IH.
Qed.

(** X27.  A third attempt that is rate limited breaks the run.  [verify_page]
    returns [None] (it falls off the end of its loop) exactly when the
    third request is answered by the status 429 and neither of the first
    two attempts returned.  When that happens to one page, [main] raises
    and writes no [gemini_qa_all.json]: it is the [TypeError] of the sort
    key on [None] when every page could be loaded. *)
Theorem last_rate_limit_breaks_the_run (loaded : nat -> outcome unit)
    (respond : nat -> nat -> Response) (completed : list nat) (p : nat) :
  p ∈ completed ->
  respond p 2 = RateLimited ->
  verified p (respond p 0) = false ->
  verified p (respond p 1) = false ->
  (Verify.verify_loop p (respond p) (seq 0 3)).1 = None
  /\ (exists e, Verify.main loaded respond completed = Raise e)
  /\ ((forall i, i ∈ completed -> loaded i = Return ()) ->
      Verify.main loaded respond completed = Raise (u "TypeError"))
  /\ (forall page_num answers,
        (Verify.verify_loop page_num answers (seq 0 3)).1 = None ->
        answers 2 = RateLimited).
Proof.
  intros Hp H2 H0 H1.
  assert (Hnone : (Verify.verify_loop p (respond p) (seq 0 3)).1 = None)
    by (by apply verify_loop_none).
  assert (Hmain : match Verify.main loaded respond completed with
                  | Raise e => e = u "TypeError" \/ exists i, i ∈ completed /\ loaded i = Raise e
                  | Return _ => False
                  end).
  { unfold Verify.main.
    pose proof (gather_results (Verify.verify_page loaded respond) completed []) as Hg.
    destruct (Verify.gather (Verify.verify_page loaded respond) completed []) as [ l | e ].
    - destruct Hg as (rs & -> & Hrs). cbn [app].
      rewrite subscripted_none; [ by left | ].
      apply list_elem_of_In in Hp.
      assert (Hin : In (Verify.verify_page loaded respond p)
                       (List.map (Verify.verify_page loaded respond) completed))
        by (by apply in_map).
      rewrite Hrs in Hin. apply in_map_iff in Hin as (r & Hr & Hin).
      apply list_elem_of_In.
      unfold Verify.verify_page in Hr. destruct (loaded p); [ | discriminate ].
      injection Hr as ->. by rewrite <- Hnone.
    - destruct Hg as (i & Hi & He). right. exists i. split; [ done | ].
      unfold Verify.verify_page in He.
      destruct (loaded i); [ discriminate He | by injection He as -> ]. }
  split; [ exact Hnone | ]. split; [ | split ].
  - destruct (Verify.main loaded respond completed) as [ | e ]; [ done | by exists e ].
  - intros Hloaded. destruct (Verify.main loaded respond completed) as [ | e ]; [ done | ].
    destruct Hmain as [ -> | (i & Hi & He) ]; [ done | ].
    rewrite (Hloaded i Hi) in He. discriminate He.
  - intros page_num answers H. by apply verify_loop_none in H as (? & _).
Qed.

Lemma last_rate_limit_breaks_the_run_witness :
  (Verify.verify_loop 7 (limits_third 7) (seq 0 3)).1 = None
  /\ Verify.main (fun _ => Return ()) limits_third (seq 1 NUM_PAGES) = Raise (u "TypeError").
Proof.
  pose proof (last_rate_limit_breaks_the_run (fun _ => Return ()) limits_third
                (seq 1 NUM_PAGES) 7
                ltac:(apply elem_of_seq; unfold NUM_PAGES; lia)
                eq_refl eq_refl eq_refl) as (H1 & _ & H2 & _).
  split; [ exact H1 | ]. apply H2. intros i _. reflexivity.
Defined.

(** ** The figures of the QA run *)

Lemma verify_loop_page page_num respond r :
  (Verify.verify_loop page_num respond (seq 0 3)).1 = Some r ->
  Verify.page r = page_num
  /\ str_eqb (Verify.status r) (u "success") = truthy (Verify.parsed_qa r).
Proof.
  intros Hr.
  destruct (verify_loop_cases _ _ _ _ Hr) as [ (content & Ha) | (-> & _) ]; [ | done ].
  destruct (answered_result _ _ _ Ha) as (Hp & _ & Htrue & Hfalse).
  split; [ done | ].
  destruct (truthy (Verify.parsed_qa r)).
  - by destruct (Htrue eq_refl) as [-> _].
  - by rewrite (Hfalse eq_refl).
Qed.

(** X28.  The figures of a QA run in which no page is rate limited on its
    third attempt and every page can be loaded: whatever the order in which
    the pages complete, [main] writes the 84 dictionaries in ascending page
    order, each being what [verify_page] returned for its page, and the
    number of pages it reports as verified is the number of dictionaries
    with the status "success". *)
Theorem qa_run_figures (loaded : nat -> outcome unit) (respond : nat -> nat -> Response)
    (completed : list nat) :
  completed ≡ₚ seq 1 NUM_PAGES ->
  (forall i, i ∈ seq 1 NUM_PAGES -> loaded i = Return ()) ->
  (forall i, i ∈ seq 1 NUM_PAGES -> respond i 2 <> RateLimited) ->
  exists results,
    Verify.main loaded respond completed
    = Return (results,
              length (List.filter (fun r => str_eqb (Verify.status r) (u "success")) results))
    /\ List.map Some results
       = List.map (fun i => (Verify.verify_loop i (respond i) (seq 0 3)).1) (seq 1 NUM_PAGES)
    /\ List.map Verify.page results = seq 1 NUM_PAGES.
Proof.
  intros Hperm Hloaded Hlast.
  set (f := fun i => default (Verify.failed i) (Verify.verify_loop i (respond i) (seq 0 3)).1).
  assert (Hkey : forall i, Verify.page (f i) = i
                           /\ str_eqb (Verify.status (f i)) (u "success")
                              = truthy (Verify.parsed_qa (f i))).
  { intros i. unfold f.
    destruct (Verify.verify_loop i (respond i) (seq 0 3)).1 as [ r | ] eqn:Hr;
      [ by apply (verify_loop_page i (respond i)) | done ]. }
  assert (Hf : forall i, i ∈ seq 1 NUM_PAGES ->
                 (Verify.verify_loop i (respond i) (seq 0 3)).1 = Some (f i)).
  { intros i Hi. unfold f.
    destruct (Verify.verify_loop i (respond i) (seq 0 3)).1 eqn:Hr; [ done | ].
    apply verify_loop_none in Hr as (Hr & _). by apply Hlast in Hr. }
  assert (Hgather : forall acc,
            Verify.gather (Verify.verify_page loaded respond) completed acc
            = Return (acc ++ List.map Some (List.map f completed))).
  { assert (Hrun : Forall (fun i => Verify.verify_page loaded respond i = Return (Some (f i)))
                          completed).
    { apply Forall_forall. intros i Hi. rewrite Hperm in Hi.
      unfold Verify.verify_page. by rewrite (Hloaded i Hi), (Hf i Hi). }
    clear Hperm. induction Hrun as [ | i rest Hi _ IH ]; intros acc.
    - cbn. by rewrite app_nil_r.
    - cbn [Verify.gather List.map]. rewrite Hi, IH. by rewrite <- app_assoc. }
  unfold Verify.main. rewrite Hgather. cbn [app]. rewrite subscripted_all. cbn zeta.
  rewrite (sort_by_pages Verify.page f completed 1 NUM_PAGES (fun i => proj1 (Hkey i)) Hperm).
  exists (List.map f (seq 1 NUM_PAGES)).
  revert Hf. generalize (seq 1 NUM_PAGES) as pages. intros pages Hf.
  split; [ | split ].
  - do 2 f_equal. clear Hf. induction pages as [ | i pages IH ]; [ done | ].
    cbn [List.map sum_list_with List.filter]. rewrite (proj2 (Hkey i)), IH.
    by destruct (truthy (Verify.parsed_qa (f i))).
  - rewrite List.map_map. apply List.map_ext_in. intros i Hi. symmetry.
    by apply Hf, list_elem_of_In.
  - rewrite List.map_map. rewrite (List.map_ext _ id); [ apply List.map_id | ].
    intros i. apply (proj1 (Hkey i)).
Qed.

Lemma qa_run_figures_witness :
  exists results,
    Verify.main (fun _ => Return ()) (fun _ => answers_list) (reverse (seq 1 NUM_PAGES))
    = Return (results,
              length (List.filter (fun r => str_eqb (Verify.status r) (u "success")) results))
    /\ List.map Some results
       = List.map (fun i => (Verify.verify_loop i answers_list (seq 0 3)).1)
                  (seq 1 NUM_PAGES)
    /\ List.map Verify.page results = seq 1 NUM_PAGES.
Proof.
  refine (qa_run_figures (fun _ => Return ()) (fun _ => answers_list)
            (reverse (seq 1 NUM_PAGES)) _ _ _).
  - apply reverse_Permutation.
  - intros i _. reflexivity.
  - intros i _. discriminate.
Defined.

(** ** A retry pass after a run: what the pool leaves *)








(** ** A retry pass after a run *)






